(** * redis_viewer: the data-access layer of [redis_gui.py]

    A shallow embedding of [SimpleRedisClient] (connection set-up, value
    codec, key scanning) together with the fragment of Python it relies on
    (text and byte strings, [json.loads] / [json.dumps], dictionaries) and a
    reference model of the store it talks to. *)

From Stdlib Require Import ZArith NArith List String Ascii Lia DecimalString
  DecimalFacts DecimalPos DecimalN.
From stdpp Require Import base option list sorting numbers strings.

Set Warnings "-register-all".
Open Scope Z_scope.

(* ===================================================================== *)
(** * Python text, bytes and UTF-8                                        *)
(* ===================================================================== *)

(** A Python [str] is a sequence of code points, a [bytes] object a sequence
    of octets. *)
Definition str : Type := list N.
Definition bytes : Type := list N.

(** ASCII literals. In [quoted] an apostrophe stands for the double quote. *)
Definition quoted (s : string) : str :=
  map (λ a, let c := N_of_ascii a in if (c =? 39)%N then 34%N else c)
      (list_ascii_of_string s).
Definition txt (s : string) : str := map N_of_ascii (list_ascii_of_string s).
Definition raw (s : string) : bytes := map N_of_ascii (list_ascii_of_string s).

Definition str_eqb (x y : str) : bool := bool_decide (x = y).

Definition is_surrogate (c : N) : bool := ((55296 <=? c) && (c <=? 57343))%N.

(** [chr(c).encode("utf-8")]; lone surrogates and values past U+10FFFF have
    no encoding. *)
Definition utf8_encode_cp (c : N) : option bytes :=
  (if c <? 128 then Some [c]
   else if c <? 2048 then Some [192 + c / 64; 128 + c mod 64]
   else if c <? 65536 then
     if is_surrogate c then None
     else Some [224 + c / 4096; 128 + (c / 64) mod 64; 128 + c mod 64]
   else if c <? 1114112 then
     Some [240 + c / 262144; 128 + (c / 4096) mod 64;
           128 + (c / 64) mod 64; 128 + c mod 64]
   else None)%N.

(** [s.encode("utf-8")]: [None] stands for [UnicodeEncodeError]. *)
Fixpoint utf8_encode (s : str) : option bytes :=
  match s with
  | [] => Some []
  | c :: r =>
      match utf8_encode_cp c, utf8_encode r with
      | Some x, Some y => Some (x ++ y)
      | _, _ => None
      end
  end.

Definition between (lo hi x : N) : bool := ((lo <=? x) && (x <=? hi))%N.
Definition is_cont (x : N) : bool := between 128 191 x.

(** Admissible range of the second octet after lead octet [b0]. *)
Definition second_ok (b0 x : N) : bool :=
  (if b0 =? 224 then between 160 191 x
   else if b0 =? 237 then between 128 159 x
   else if b0 =? 240 then between 144 191 x
   else if b0 =? 244 then between 128 143 x
   else is_cont x)%N.

Definition REPLACEMENT : N := 65533%N.

(** [val.decode("utf-8", errors=...)]. With [replace = false] the decoder is
    strict and [None] stands for [UnicodeDecodeError]; with [replace = true]
    every maximal ill-formed prefix becomes U+FFFD and decoding resumes at the
    offending octet. *)
Fixpoint utf8_decode (replace : bool) (bs : bytes) : option str :=
  let bad (rest : option str) : option str :=
    if replace then cons REPLACEMENT <$> rest else None in
  match bs with
  | [] => Some []
  | b0 :: r0 =>
      if (b0 <? 128)%N then cons b0 <$> utf8_decode replace r0
      else if between 194 223 b0 then
        match r0 with
        | b1 :: r1 =>
            if is_cont b1
            then cons ((b0 - 192) * 64 + (b1 - 128))%N <$> utf8_decode replace r1
            else bad (utf8_decode replace r0)
        | [] => bad (Some [])
        end
      else if between 224 239 b0 then
        match r0 with
        | b1 :: r1 =>
            if second_ok b0 b1 then
              match r1 with
              | b2 :: r2 =>
                  if is_cont b2
                  then cons ((b0 - 224) * 4096 + (b1 - 128) * 64 + (b2 - 128))%N
                         <$> utf8_decode replace r2
                  else bad (utf8_decode replace r1)
              | [] => bad (Some [])
              end
            else bad (utf8_decode replace r0)
        | [] => bad (Some [])
        end
      else if between 240 244 b0 then
        match r0 with
        | b1 :: r1 =>
            if second_ok b0 b1 then
              match r1 with
              | b2 :: r2 =>
                  if is_cont b2 then
                    match r2 with
                    | b3 :: r3 =>
                        if is_cont b3
                        then cons ((b0 - 240) * 262144 + (b1 - 128) * 4096
                                   + (b2 - 128) * 64 + (b3 - 128))%N
                               <$> utf8_decode replace r3
                        else bad (utf8_decode replace r2)
                    | [] => bad (Some [])
                    end
                  else bad (utf8_decode replace r1)
              | [] => bad (Some [])
              end
            else bad (utf8_decode replace r0)
        | [] => bad (Some [])
        end
      else bad (utf8_decode replace r0)
  end.

(** The [bytes] branch of [_b2s]: [val.decode("utf-8")] and, when that
    raises, [val.decode("utf-8", errors="replace")]. *)
Definition decode_bytes (v : bytes) : str :=
  match utf8_decode false v with
  | Some s => s
  | None => default [] (utf8_decode true v)
  end.

(** Code-point order on [str], the order of Python's [<=] on strings. *)
Fixpoint str_leb (x y : str) : bool :=
  match x, y with
  | [], _ => true
  | _ :: _, [] => false
  | c :: x', d :: y' =>
      if (c <? d)%N then true
      else if (d <? c)%N then false
      else str_leb x' y'
  end.

Definition str_le (x y : str) : Prop := str_leb x y = true.

#[global] Instance str_le_dec x y : Decision (str_le x y).
Proof. unfold str_le. apply _. Defined.

(** [sorted(l)] on a list of strings. *)
Definition sorted (l : list str) : list str := merge_sort str_le l.

(** [str(n)] for an [int]. *)
Definition str_of_Z (z : Z) : str := txt (NilZero.string_of_int (Z.to_int z)).

(** [needle in hay] on strings. *)
Fixpoint is_prefix (p s : list N) : bool :=
  match p, s with
  | [], _ => true
  | c :: p', d :: s' => (c =? d)%N && is_prefix p' s'
  | _ :: _, [] => false
  end.

Fixpoint contains (needle hay : list N) : bool :=
  is_prefix needle hay ||
  match hay with
  | [] => false
  | _ :: hay' => contains needle hay'
  end.

(** [s.lower()] on ASCII letters (all the type names the client compares
    against are ASCII). *)
Definition lower_cp (c : N) : N := (if between 65 90 c then c + 32 else c)%N.
Definition lower (s : str) : str := map lower_cp s.

(** A Python [dict] keeps insertion order and one entry per key. *)
Fixpoint dict_set {K V} `{EqDecision K} (k : K) (v : V) (d : list (K * V))
  : list (K * V) :=
  match d with
  | [] => [(k, v)]
  | (k', v') :: d' =>
      if decide (k = k') then (k, v) :: d' else (k', v') :: dict_set k v d'
  end.

Fixpoint dict_get {K V} `{EqDecision K} (k : K) (d : list (K * V)) : option V :=
  match d with
  | [] => None
  | (k', v') :: d' => if decide (k = k') then Some v' else dict_get k d'
  end.

Definition dict_pop {K V} `{EqDecision K} (k : K) (d : list (K * V))
  : list (K * V) :=
  filter (λ kv, kv.1 ≠ k) d.

(** [dict(pairs)]: later pairs overwrite earlier ones. *)
Definition dict_of_pairs {K V} `{EqDecision K} (l : list (K * V))
  : list (K * V) :=
  foldl (λ d kv, dict_set kv.1 kv.2 d) [] l.

(** [keys[:n]] for a Python integer [n]. *)
Definition slice_to {A} (n : Z) (l : list A) : list A :=
  if 0 <=? n then take (Z.to_nat n) l
  else take (Z.to_nat (Z.of_nat (length l) + n)) l.

(* ===================================================================== *)
(** * Floating point                                                       *)
(* ===================================================================== *)

(** Binary64 arithmetic is the host's; the development is parametric in it.
    [float_of_str] is [float(s)] on text ([None]: [ValueError]),
    [float_of_Z] is [float(n)] ([None]: [OverflowError]), [float_repr] is
    [repr(x)], [float_json] the token [json.dumps] emits, and [float_leb] the
    order the store sorts scores by. *)
Class Float := {
  float : Type;
  float_of_str : str → option float;
  float_of_Z : Z → option float;
  float_repr : float → str;
  float_json : float → str;
  float_leb : float → float → bool;
}.

(* ===================================================================== *)
(** * JSON                                                                 *)
(* ===================================================================== *)

Section Json.
Context `{Float}.

(** What [json.loads] returns: [None], [bool], [int], [float], [str], [list]
    and [dict] with string keys. *)
Inductive json :=
| JNull
| JBool (v : bool)
| JInt (z : Z)
| JFloat (x : float)
| JStr (s : str)
| JArr (l : list json)
| JObj (d : list (str * json)).

Definition is_ws (c : N) : bool :=
  ((c =? 32) || (c =? 9) || (c =? 10) || (c =? 13))%N.

Fixpoint skip_ws (s : str) : str :=
  match s with
  | c :: r => if is_ws c then skip_ws r else s
  | [] => []
  end.

Definition is_digit (c : N) : bool := between 48 57 c.

Definition hex_val (c : N) : option N :=
  (if between 48 57 c then Some (c - 48)
   else if between 97 102 c then Some (c - 87)
   else if between 65 70 c then Some (c - 55)
   else None)%N.

Definition hex4 (c1 c2 c3 c4 : N) : option N :=
  v1 ← hex_val c1; v2 ← hex_val c2; v3 ← hex_val c3; v4 ← hex_val c4;
  Some (v1 * 4096 + v2 * 256 + v3 * 16 + v4)%N.

Definition simple_escape (c : N) : option N :=
  (if c =? 34 then Some 34          (* quote *)
   else if c =? 92 then Some 92     (* backslash *)
   else if c =? 47 then Some 47     (* slash *)
   else if c =? 98 then Some 8      (* backspace *)
   else if c =? 102 then Some 12    (* form feed *)
   else if c =? 110 then Some 10    (* line feed *)
   else if c =? 114 then Some 13    (* carriage return *)
   else if c =? 116 then Some 9     (* tab *)
   else None)%N.

Definition is_high (c : N) : bool := between 55296 56319 c.
Definition is_low (c : N) : bool := between 56320 57343 c.

(** The body of a string literal, after the opening quote: the decoded text
    and what follows the closing quote. Control characters are refused
    (strict mode); a [\uD8xx\uDCxx] pair is one code point. *)
Fixpoint scan_string (s : str) : option (str * str) :=
  let emit (c : N) (k : option (str * str)) : option (str * str) :=
    '(t, r) ← k; Some (c :: t, r) in
  match s with
  | [] => None
  | c :: r =>
      if (c =? 34)%N then Some ([], r)
      else if (c <? 32)%N then None
      else if (c =? 92)%N then
        match r with
        | [] => None
        | e :: r1 =>
            if (e =? 117)%N then
              match r1 with
              | h1 :: h2 :: h3 :: h4 :: r2 =>
                  match hex4 h1 h2 h3 h4 with
                  | None => None
                  | Some hi =>
                      if is_high hi then
                        match r2 with
                        | b1 :: b2 :: l1 :: l2 :: l3 :: l4 :: r3 =>
                            if ((b1 =? 92) && (b2 =? 117))%N then
                              match hex4 l1 l2 l3 l4 with
                              | Some lo =>
                                  if is_low lo
                                  then emit (65536 + (hi - 55296) * 1024
                                             + (lo - 56320))%N (scan_string r3)
                                  else emit hi (scan_string r2)
                              | None => None
                              end
                            else emit hi (scan_string r2)
                        | _ => emit hi (scan_string r2)
                        end
                      else emit hi (scan_string r2)
                  end
              | _ => None
              end
            else
              match simple_escape e with
              | Some x => emit x (scan_string r1)
              | None => None
              end
        end
      else emit c (scan_string r)
  end.

Fixpoint take_digits (s : str) : str * str :=
  match s with
  | c :: r =>
      if is_digit c then let '(d, r') := take_digits r in (c :: d, r')
      else ([], s)
  | [] => ([], [])
  end.

Definition digits_val (d : str) : Z :=
  foldl (λ acc c, acc * 10 + Z.of_N (c - 48)) 0 d.

(** A number token as [json.scanner] matches it: an optional minus sign, an
    integer part (a single zero, or digits not starting with zero), an
    optional fraction (a dot and digits) and an optional exponent (e or E, an
    optional sign, digits). Without fraction and exponent it is an [int],
    otherwise [float] of the matched text. *)
Definition scan_number (s : str) : option (json * str) :=
  let '(sign, s1) :=
    match s with
    | c :: r => if (c =? 45)%N then ([c], r) else ([], s)
    | [] => ([], s)
    end in
  let '(ip, s2) :=
    match s1 with
    | c :: r =>
        if (c =? 48)%N then ([c], r)
        else let '(d, r') := take_digits s1 in (d, r')
    | [] => ([], s1)
    end in
  match ip with
  | [] => None
  | _ :: _ =>
      let '(frac, s3) :=
        match s2 with
        | c :: r =>
            if (c =? 46)%N then
              match take_digits r with
              | ([], _) => ([], s2)
              | (d, r') => (c :: d, r')
              end
            else ([], s2)
        | [] => ([], s2)
        end in
      let '(ex, s4) :=
        match s3 with
        | c :: r =>
            if ((c =? 101) || (c =? 69))%N then
              let '(sg, r1) :=
                match r with
                | g :: r' =>
                    if ((g =? 43) || (g =? 45))%N then ([g], r') else ([], r)
                | [] => ([], r)
                end in
              match take_digits r1 with
              | ([], _) => ([], s3)
              | (d, r') => (c :: sg ++ d, r')
              end
            else ([], s3)
        | [] => ([], s3)
        end in
      match frac, ex with
      | [], [] =>
          Some (JInt (if sign is [] then digits_val ip else - digits_val ip), s4)
      | _, _ => x ← float_of_str (sign ++ ip ++ frac ++ ex); Some (JFloat x, s4)
      end
  end.

Definition strip_prefix (p s : str) : option str :=
  if is_prefix p s then Some (drop (length p) s) else None.

(** Keyword tokens, in the order [json.scanner] tries them. *)
Definition scan_constant (s : str) : option (json * str) :=
  match strip_prefix (txt "null") s with
  | Some r => Some (JNull, r)
  | None =>
  match strip_prefix (txt "true") s with
  | Some r => Some (JBool true, r)
  | None =>
  match strip_prefix (txt "false") s with
  | Some r => Some (JBool false, r)
  | None =>
  match strip_prefix (txt "NaN") s with
  | Some r => x ← float_of_str (txt "nan"); Some (JFloat x, r)
  | None =>
  match strip_prefix (txt "Infinity") s with
  | Some r => x ← float_of_str (txt "inf"); Some (JFloat x, r)
  | None =>
  match strip_prefix (txt "-Infinity") s with
  | Some r => x ← float_of_str (txt "-inf"); Some (JFloat x, r)
  | None => scan_number s
  end end end end end end.

(** The recursive-descent decoder. [scan_value] reads one value at the head
    of the input, [scan_items] the rest of an array after its first bracket
    or a comma, [scan_members] the rest of an object likewise. Every two
    nested calls consume a character, so [2 * length s + 2] units of fuel
    never run out ([json_loads_fuel] below). *)
Fixpoint scan_value (fuel : nat) (s : str) : option (json * str) :=
  match fuel with
  | O => None
  | S fuel =>
      match s with
      | [] => None
      | c :: r =>
          if (c =? 34)%N then '(t, r') ← scan_string r; Some (JStr t, r')
          else if (c =? 123)%N then
            match skip_ws r with
            | c' :: r' =>
                if (c' =? 125)%N then Some (JObj [], r')
                else '(d, r'') ← scan_members fuel (c' :: r') []; Some (JObj d, r'')
            | [] => None
            end
          else if (c =? 91)%N then
            match skip_ws r with
            | c' :: r' =>
                if (c' =? 93)%N then Some (JArr [], r')
                else '(l, r'') ← scan_items fuel (c' :: r') []; Some (JArr l, r'')
            | [] => None
            end
          else scan_constant s
      end
  end
with scan_items (fuel : nat) (s : str) (acc : list json)
  : option (list json * str) :=
  match fuel with
  | O => None
  | S fuel =>
      '(v, r) ← scan_value fuel s;
      match skip_ws r with
      | c :: r' =>
          if (c =? 93)%N then Some (acc ++ [v], r')
          else if (c =? 44)%N then scan_items fuel (skip_ws r') (acc ++ [v])
          else None
      | [] => None
      end
  end
with scan_members (fuel : nat) (s : str) (acc : list (str * json))
  : option (list (str * json) * str) :=
  match fuel with
  | O => None
  | S fuel =>
      match s with
      | c :: r =>
          if (c =? 34)%N then
            '(k, r1) ← scan_string r;
            match skip_ws r1 with
            | c1 :: r2 =>
                if (c1 =? 58)%N then
                  '(v, r3) ← scan_value fuel (skip_ws r2);
                  match skip_ws r3 with
                  | c2 :: r4 =>
                      if (c2 =? 125)%N then Some (dict_set k v acc, r4)
                      else if (c2 =? 44)%N
                      then scan_members fuel (skip_ws r4) (dict_set k v acc)
                      else None
                  | [] => None
                  end
                else None
            | [] => None
            end
          else None
      | [] => None
      end
  end.

(** [json.loads(s)]; [None] stands for [JSONDecodeError]. *)
Definition json_loads (s : str) : option json :=
  match s with
  | 65279%N :: _ => None  (* a leading BOM is refused *)
  | _ =>
      match scan_value (2 * length s + 2) (skip_ws s) with
      | Some (v, r) => if skip_ws r is [] then Some v else None
      | None => None
      end
  end.
Definition hex_digit (n : N) : N := (if n <? 10 then 48 + n else 87 + n)%N.

(** The escape [\uXXXX] with four lower-case hexadecimal digits. *)
Definition u_escape (c : N) : str :=
  [92; 117; hex_digit (c / 4096); hex_digit ((c / 256) mod 16);
   hex_digit ((c / 16) mod 16); hex_digit (c mod 16)]%N.

(** One character of a string under [ensure_ascii=True]. *)
Definition escape_cp (c : N) : str :=
  (if c =? 34 then [92; 34]
   else if c =? 92 then [92; 92]
   else if c =? 10 then [92; 110]
   else if c =? 13 then [92; 114]
   else if c =? 9 then [92; 116]
   else if c =? 8 then [92; 98]
   else if c =? 12 then [92; 102]
   else if between 32 126 c then [c]
   else if c <? 65536 then u_escape c
   else u_escape (55296 + ((c - 65536) / 1024) mod 1024)
        ++ u_escape (56320 + (c - 65536) mod 1024))%N.

Definition json_quote (s : str) : str :=
  [34%N] ++ concat (map escape_cp s) ++ [34%N].

(** [sep.join(l)]. *)
Fixpoint join (sep : str) (l : list str) : str :=
  match l with
  | [] => []
  | [x] => x
  | x :: l' => x ++ sep ++ join sep l'
  end.

(** [json.dumps(v)] with the default separators and [ensure_ascii]. *)
Fixpoint json_dumps (v : json) : str :=
  match v with
  | JNull => txt "null"
  | JBool true => txt "true"
  | JBool false => txt "false"
  | JInt z => str_of_Z z
  | JFloat x => float_json x
  | JStr s => json_quote s
  | JArr l => txt "[" ++ join (txt ", ") (map json_dumps l) ++ txt "]"
  | JObj d =>
      txt "{"
      ++ join (txt ", ")
           (map (λ kv, json_quote kv.1 ++ txt ": " ++ json_dumps kv.2) d)
      ++ txt "}"
  end.

(** [json.dumps(v) if isinstance(v, (dict, list)) else str(v)], the text a
    parsed element is stored as. *)
Definition to_text (v : json) : str :=
  match v with
  | JObj _ | JArr _ => json_dumps v
  | JStr s => s
  | JInt z => str_of_Z z
  | JFloat x => float_repr x
  | JBool true => txt "True"
  | JBool false => txt "False"
  | JNull => txt "None"
  end.
End Json.

(* ===================================================================== *)
(** * Python values and [_b2s]                                             *)
(* ===================================================================== *)

(** Keys of the dictionaries found in replies: [bytes] before [_b2s], [str]
    after. *)
Inductive pykey :=
| KeyBytes (v : bytes)
| KeyStr (s : str).

#[global] Instance pykey_eq_dec : EqDecision pykey.
Proof. solve_decision. Defined.

Section Values.
Context `{Float}.

(** The Python values found in replies and in results. A [set] (the reply
    of [SMEMBERS], [SINTER], [SUNION], ... through redis-py) is kept by the
    list of its elements. *)
Inductive pyval :=
| PyNone
| PyBool (v : bool)
| PyInt (z : Z)
| PyFloat (x : float)
| PyStr (s : str)
| PyBytes (v : bytes)
| PyList (l : list pyval)
| PyTuple (l : list pyval)
| PyDict (d : list (pykey * pyval))
| PySet (l : list pyval).

Definition b2s_key (k : pykey) : pykey :=
  match k with
  | KeyBytes v => KeyStr (decode_bytes v)
  | KeyStr _ => k
  end.

(** [_b2s]: bytes to text, through lists, tuples and dictionaries. Any
    other value is returned as it is ([return val]), a set with the [bytes]
    it holds. *)
Fixpoint _b2s (val : pyval) : pyval :=
  match val with
  | PyBytes v => PyStr (decode_bytes v)
  | PyList l => PyList (map _b2s l)
  | PyTuple l => PyTuple (map _b2s l)
  | PyDict d => PyDict (dict_of_pairs (map (λ kv, (b2s_key kv.1, _b2s kv.2)) d))
  | _ => val
  end.

(** A parsed JSON value as the Python value it is. *)
Fixpoint py_of_json (j : json) : pyval :=
  match j with
  | JNull => PyNone
  | JBool v => PyBool v
  | JInt z => PyInt z
  | JFloat x => PyFloat x
  | JStr s => PyStr s
  | JArr l => PyList (map py_of_json l)
  | JObj d => PyDict (map (λ kv, (KeyStr kv.1, py_of_json kv.2)) d)
  end.

(** [t == s] for a string literal [s]. *)
Definition py_eq (t : pyval) (s : str) : bool :=
  match t with
  | PyStr x => str_eqb x s
  | _ => false
  end.

(** The shapes redis-py gives to replies. *)
Definition py_bytes_opt (v : option bytes) : pyval :=
  match v with
  | Some x => PyBytes x
  | None => PyNone
  end.

Definition py_bytes_list (l : list bytes) : pyval := PyList (map PyBytes l).

Definition py_bytes_dict (d : list (bytes * bytes)) : pyval :=
  PyDict (map (λ fv, (KeyBytes fv.1, PyBytes fv.2)) d).

(** [sorted(v)] for a list of strings. *)
Definition py_sorted (v : pyval) : pyval :=
  match v with
  | PyList l =>
      PyList (map PyStr (sorted (map (λ x, if x is PyStr t then t else []) l)))
  | _ => v
  end.
End Values.

(* ===================================================================== *)
(** * Exceptions and the state-and-error monad                            *)
(* ===================================================================== *)

(** What a call into the transport ([self.client], redis-py and the server
    behind it) can raise. *)
Inductive transport_error :=
| T_TypeError (msg : string)        (* unexpected keyword argument *)
| T_DataError (msg : string)        (* refused by redis-py before sending *)
| T_ResponseError (msg : string)    (* error reply of the server *)
| T_ConnectionError (msg : string)  (* no connection, time-out *)
| T_UnicodeEncodeError.             (* an argument has no UTF-8 encoding *)

(** Python exceptions. The source keeps only [str(e)] of a wrapped exception;
    the model keeps the exception itself, so that its origin stays visible. *)
Inductive exn :=
| JSONDecodeError
| ValueError (msg : string)
| TypeError (msg : string)
| OverflowError
| UnicodeEncodeError
| UnicodeDecodeError
| FromTransport (e : transport_error)
| Message (msg : string)            (* an exception built from text alone *)
| SimpleRedisClientError (cause : exn).

(** [except TypeError] catches both the client's and the transport's. *)
Definition is_TypeError (e : exn) : bool :=
  match e with
  | TypeError _ | FromTransport (T_TypeError _) => true
  | _ => false
  end.

Definition exn_str (e : exn) : string :=
  (fix go (e : exn) : string :=
     match e with
     | JSONDecodeError => "Expecting value"
     | ValueError m | TypeError m | Message m => m
     | OverflowError => "int too large to convert to float"
     | UnicodeEncodeError | FromTransport T_UnicodeEncodeError =>
         "'utf-8' codec can't encode character"
     | UnicodeDecodeError => "'utf-8' codec can't decode byte"
     | FromTransport (T_TypeError m) | FromTransport (T_DataError m)
     | FromTransport (T_ResponseError m)
     | FromTransport (T_ConnectionError m) => m
     | SimpleRedisClientError c => go c
     end) e.

(** Outcome of a computation: a value, an exception, or no answer within the
    fuel given to its [while] loops. *)
Inductive result (A : Type) :=
| Ok (a : A)
| Raise (e : exn)
| OutOfFuel.
Arguments Ok {A} a.
Arguments Raise {A} e.
Arguments OutOfFuel {A}.

Inductive reply (A : Type) :=
| Reply (a : A)
| Fail (e : transport_error).
Arguments Reply {A} a.
Arguments Fail {A} e.

Section Monad.
Context {St : Type}.

Definition M (A : Type) : Type := St → result A * St.

Definition ret {A} (a : A) : M A := λ s, (Ok a, s).
Definition raise {A} (e : exn) : M A := λ s, (Raise e, s).
Definition out_of_fuel {A} : M A := λ s, (OutOfFuel, s).

Definition bind {A B} (m : M A) (k : A → M B) : M B :=
  λ s, match m s with
       | (Ok a, s') => k a s'
       | (Raise e, s') => (Raise e, s')
       | (OutOfFuel, s') => (OutOfFuel, s')
       end.

(** [try: m  except Exception as e: h e]. *)
Definition try_catch {A} (m : M A) (h : exn → M A) : M A :=
  λ s, match m s with
       | (Raise e, s') => h e s'
       | r => r
       end.

(** A transport call; its failure is raised as an exception. *)
Definition call {A} (op : St → reply A * St) : M A :=
  λ s, match op s with
       | (Reply a, s') => (Ok a, s')
       | (Fail e, s') => (Raise (FromTransport e), s')
       end.

(** [try: m  except Exception as e: raise SimpleRedisClientError(str(e))],
    the frame every client method is wrapped in. *)
Definition wrapped {A} (m : M A) : M A :=
  try_catch m (λ e, raise (SimpleRedisClientError e)).

Definition of_option {A} (o : option A) (e : exn) : M A :=
  match o with
  | Some a => ret a
  | None => raise e
  end.

(** [for x in l: acc = f x acc]. *)
Fixpoint for_each {A B} (l : list A) (f : A → B → M B) (acc : B) : M B :=
  match l with
  | [] => ret acc
  | x :: l' => bind (f x acc) (for_each l' f)
  end.
End Monad.
Arguments M : clear implicits.

Notation "'let*' x := m 'in' k" := (bind m (λ x, k))
  (at level 10, x name, m at level 100, k at level 200, only parsing).
Notation "'let*' ' p := m 'in' k" := (bind m (λ p, k))
  (at level 10, p pattern, m at level 100, k at level 200, only parsing).

(* ===================================================================== *)
(** * The transport: [self.client]                                        *)
(* ===================================================================== *)

(** The commands the client sends through [redis.Redis], as operations on
    the state [St] of the world behind the socket. The pool is created with
    [decode_responses=False], so replies carry [bytes]; arguments are the
    Python values the source passes. *)
Class Transport `{Float} (St : Type) := {
  t_ping : St → reply bool * St;
  t_type : str → St → reply bytes * St;
  t_get : str → St → reply (option bytes) * St;
  t_set : str → bytes → St → reply unit * St;
  t_delete : str → St → reply Z * St;
  t_hset : str → list (str * str) → St → reply Z * St;
  t_hgetall : str → St → reply (list (bytes * bytes)) * St;
  t_rpush : str → list str → St → reply Z * St;
  t_lrange : str → Z → Z → St → reply (list bytes) * St;
  t_sadd : str → list str → St → reply Z * St;
  t_smembers : str → St → reply (list bytes) * St;
  t_zadd : str → list (str * float) → St → reply Z * St;
  t_zrange_withscores : str → Z → Z → St → reply (list (bytes * float)) * St;
  t_xrange : str → Z → St → reply (list (bytes * list (bytes * bytes))) * St;
  (** [scan(cursor=, match=, count=, _type=)]; [None]: keyword not passed. *)
  t_scan : Z → str → Z → option str → St → reply (Z * list bytes) * St;
}.

(* ===================================================================== *)
(** * [SimpleRedisClient]: value codec and key scanner                    *)
(* ===================================================================== *)

Section Client.
Context `{Float} `{!Transport St}.

(** [{"type": t, "key": key, "value": v}]. *)
Record ValueRecord := {
  vr_type : pyval;
  vr_key : str;
  vr_value : pyval;
}.

(** [{"acknowledged": True, "operation": op, "key": key, ...}] with the
    optional [fields] and [length] entries. *)
Record SetResult := {
  acknowledged : bool;
  operation : str;
  sr_key : str;
  sr_fields : option Z;
  sr_length : option Z;
}.

(** [ping]. *)
Definition ping : M St bool :=
  wrapped (call t_ping).

(** [type]. *)
Definition type (key : str) : M St pyval :=
  wrapped (let* t := call (t_type key) in ret (_b2s (PyBytes t))).

(** [delete]. *)
Definition delete (key : str) : M St Z :=
  wrapped (call (t_delete key)).

(** [get_value]. *)
Definition get_value (key : str) (max_items : Z) : M St ValueRecord :=
  wrapped (
    let* t := type key in
    let* t := match t with
              | PyBytes v =>
                  of_option (PyStr <$> utf8_decode false v) UnicodeDecodeError
              | _ => ret t
              end in
    let record v := {| vr_type := t; vr_key := key; vr_value := v |} in
    if py_eq t (txt "string") then
      let* val := call (t_get key) in
      let sval := _b2s (py_bytes_opt val) in
      match sval with
      | PyStr text =>
          match json_loads text with
          | Some parsed => ret (record (py_of_json parsed))
          | None => ret (record sval)
          end
      | _ => ret (record sval)
      end
    else if py_eq t (txt "hash") then
      let* d := call (t_hgetall key) in
      ret (record (_b2s (py_bytes_dict d)))
    else if py_eq t (txt "list") then
      let* l := call (t_lrange key 0 (max_items - 1)) in
      ret (record (_b2s (py_bytes_list l)))
    else if py_eq t (txt "set") then
      let* l := call (t_smembers key) in
      ret (record (py_sorted (_b2s (py_bytes_list l))))
    else if py_eq t (txt "zset") then
      let* data := call (t_zrange_withscores key 0 (max_items - 1)) in
      ret (record (PyList (map (λ ks, PyList [_b2s (PyBytes ks.1); PyFloat ks.2])
                             data)))
    else if py_eq t (txt "stream") then
      let* l := call (t_xrange key max_items) in
      ret (record (_b2s (PyList (map (λ e, PyTuple [PyBytes e.1;
                                                    py_bytes_dict e.2]) l))))
    else if py_eq t (txt "none") then
      ret (record PyNone)
    else
      let* val := call (t_get key) in
      ret (record (_b2s (py_bytes_opt val)))).

(** [float(x)] on a parsed JSON value. *)
Definition py_float (v : json) : M St float :=
  match v with
  | JInt z => of_option (float_of_Z z) OverflowError
  | JFloat x => ret x
  | JBool v => of_option (float_of_Z (if v then 1 else 0)) OverflowError
  | JStr s =>
      of_option (float_of_str s) (ValueError "could not convert string to float")
  | JNull | JArr _ | JObj _ =>
      raise (TypeError "float() argument must be a string or a real number")
  end.

(** [member, score = item] for an [item] that is not a dict. *)
Definition unpack_pair (item : json) : M St (json * json) :=
  match item with
  | JArr [m; s] => ret (m, s)
  | JArr (_ :: _ :: _ :: _) | JStr (_ :: _ :: _ :: _) =>
      raise (ValueError "too many values to unpack (expected 2)")
  | JArr _ | JStr [] | JStr [_] =>
      raise (ValueError "not enough values to unpack (expected 2)")
  | JStr [c; d] => ret (JStr [c], JStr [d])
  | JObj d =>
      match d with
      | [(k1, _); (k2, _)] => ret (JStr k1, JStr k2)
      | _ :: _ :: _ :: _ =>
          raise (ValueError "too many values to unpack (expected 2)")
      | _ => raise (ValueError "not enough values to unpack (expected 2)")
      end
  | JNull | JBool _ | JInt _ | JFloat _ =>
      raise (TypeError "cannot unpack non-iterable object")
  end.

(** One iteration of the loop building [pairs] for a sorted set. *)
Definition zset_pair (item : json) (pairs : list (str * float))
  : M St (list (str * float)) :=
  match item with
  | JObj d =>
      let member := default JNull (dict_get (txt "member") d) in
      let* score := py_float (default (JInt 0) (dict_get (txt "score") d)) in
      ret (pairs ++ [(to_text member, score)])
  | _ =>
      let* '(member, score) := unpack_pair item in
      let* score' := py_float score in
      ret (pairs ++ [(to_text member, score')])
  end.

Definition loads (value_text : str) : M St json :=
  of_option (json_loads value_text) JSONDecodeError.

Definition len {A} (l : list A) : Z := Z.of_nat (length l).

(** [set_value]. *)
Definition set_value (key value_text value_type : str) : M St SetResult :=
  wrapped (
    let vt := lower value_type in
    let result op fields length :=
      {| acknowledged := true; operation := txt op; sr_key := key;
         sr_fields := fields; sr_length := length |} in
    if str_eqb vt (txt "string") then
      let* v := of_option (utf8_encode value_text) UnicodeEncodeError in
      let* _ := call (t_set key v) in
      ret (result "SET" None None)
    else if str_eqb vt (txt "hash") then
      let* data := loads value_text in
      match data with
      | JObj d =>
          let* _ := call (t_hset key (map (λ kv, (kv.1, to_text kv.2)) d)) in
          ret (result "HSET" (Some (len d)) None)
      | _ => raise (ValueError "Hash value must be a JSON object")
      end
    else if str_eqb vt (txt "list") then
      let* data := loads value_text in
      match data with
      | JArr l =>
          let* _ := (if l is [] then ret 0
                     else let* _ := call (t_delete key) in
                          call (t_rpush key (map to_text l))) in
          ret (result "RPUSH" None (Some (len l)))
      | _ => raise (ValueError "List value must be a JSON array")
      end
    else if str_eqb vt (txt "set") then
      let* data := loads value_text in
      match data with
      | JArr l =>
          let* _ := (if l is [] then ret 0
                     else let* _ := call (t_delete key) in
                          call (t_sadd key (map to_text l))) in
          ret (result "SADD" None (Some (len l)))
      | _ => raise (ValueError "Set value must be a JSON array")
      end
    else if str_eqb vt (txt "zset") then
      let* data := loads value_text in
      match data with
      | JArr l =>
          let* pairs := for_each l zset_pair [] in
          let* _ := (if pairs is [] then ret 0
                     else let* _ := call (t_delete key) in
                          call (t_zadd key (dict_of_pairs pairs))) in
          ret (result "ZADD" None (Some (len pairs)))
      | _ => raise (ValueError "ZSet value must be an array of pairs or objects")
      end
    else raise (ValueError "Unsupported type")).

(** [type_filter and type_filter.lower() != "all"]. *)
Definition filtering (type_filter : option str) : bool :=
  match type_filter with
  | Some (c :: t) => negb (str_eqb (lower (c :: t)) (txt "all"))
  | Some [] | None => false
  end.

Definition scan_call (cursor : Z) (pattern : str) (type_filter : option str)
    (count : Z) : M St (Z * list bytes) :=
  call (t_scan cursor pattern count
               (if filtering type_filter then type_filter else None)).

(** The post-filter of the fallback paths: keep the keys whose [type] is the
    filter; a key whose [type] call fails is skipped. *)
Definition type_check (type_filter : str) (k : str) (keys : list str)
  : M St (list str) :=
  try_catch
    (let* t := type k in
     ret (if py_eq t type_filter then keys ++ [k] else keys))
    (λ _, ret keys).

Section scan.
Variables (pattern : str) (type_filter : option str) (count : Z).

(** First loop of [scan]: [while True: ...; if cursor == 0 or len(keys) >=
    count: break]. A batch holds [bytes], on which [_b2s] is
    [decode_bytes]. *)
Fixpoint scan_loop (fuel : nat) (tf : option str) (cursor : Z)
    (keys : list str) : M St (list str) :=
  match fuel with
  | O => out_of_fuel
  | S fuel =>
      let* '(cursor', batch) := scan_call cursor pattern tf count in
      let keys' := keys ++ map decode_bytes batch in
      if (cursor' =? 0) || (count <=? len keys') then ret keys'
      else scan_loop fuel tf cursor' keys'
  end.

(** [scan]. *)
Definition scan (fuel : nat) : M St (list str) :=
  try_catch
    (let* keys := scan_loop fuel type_filter 0 [] in
     ret (slice_to count keys))
    (λ e,
       if is_TypeError e then
         wrapped (
           let* keys := scan_loop fuel None 0 [] in
           if filtering type_filter then
             let* filtered := for_each keys (type_check (default [] type_filter)) [] in
             ret (slice_to count filtered)
           else ret (slice_to count keys))
       else raise (SimpleRedisClientError e)).

(** First loop of [scan_with_cursor]: [while len(keys) < count: ...;
    if next_cursor == 0: break]. *)
Fixpoint cursor_loop (fuel : nat) (next_cursor : Z) (keys : list str)
  : M St (list str * Z) :=
  if len keys <? count then
    match fuel with
    | O => out_of_fuel
    | S fuel =>
        let* '(next_cursor', batch) := scan_call next_cursor pattern type_filter count in
        let keys' := keys ++ map decode_bytes batch in
        if next_cursor' =? 0 then ret (keys', next_cursor')
        else cursor_loop fuel next_cursor' keys'
    end
  else ret (keys, next_cursor).

(** The loop of the fallback: an unfiltered call, then the per-key check. *)
Fixpoint fallback_loop (fuel : nat) (next_cursor : Z) (keys : list str)
  : M St (list str * Z) :=
  if len keys <? count then
    match fuel with
    | O => out_of_fuel
    | S fuel =>
        let* '(next_cursor', batch) := scan_call next_cursor pattern None count in
        let batch_keys := map decode_bytes batch in
        let* keys' := (if filtering type_filter
                       then for_each batch_keys
                              (type_check (default [] type_filter)) keys
                       else ret (keys ++ batch_keys)) in
        if next_cursor' =? 0 then ret (keys', next_cursor')
        else fallback_loop fuel next_cursor' keys'
    end
  else ret (keys, next_cursor).

(** [scan_with_cursor]. *)
Definition scan_with_cursor (fuel : nat) (cursor : Z) : M St (list str * Z) :=
  try_catch
    (let* '(keys, next_cursor) := cursor_loop fuel cursor [] in
     ret (slice_to count keys, next_cursor))
    (λ e,
       if is_TypeError e then
         wrapped (
           let* '(keys, next_cursor) := fallback_loop fuel cursor [] in
           ret (slice_to count keys, next_cursor))
       else raise (SimpleRedisClientError e)).
End scan.
End Client.

(* ===================================================================== *)
(** * [SimpleRedisClient.__init__]: building the connection pool          *)
(* ===================================================================== *)

Section Connect.
Context `{Float}.

(** The object made by [ssl.create_default_context()]. *)
Record ssl_context := {
  check_hostname : bool;
  verify_required : bool;   (* [verify_mode]: CERT_REQUIRED or CERT_NONE *)
}.

(** Values of the keyword arguments handed to [redis.ConnectionPool]. *)
Inductive kwval :=
| KStr (s : str)
| KInt (z : Z)
| KFloat (x : float)
| KBool (v : bool)
| KCertReqs (required : bool)
| KContext (ctx : ssl_context)
| KSSLConnection.

Definition kwargs : Type := list (string * kwval).

(** The imported [redis] package, as far as the constructor uses it:
    [ConnectionPool] called on keyword arguments either builds a pool
    ([None]) or raises, and the legacy class [SSLConnection] may or may not
    exist. *)
Record redis_module := {
  ConnectionPool : kwargs → option exn;
  SSLConnection : bool;
}.

(** The arguments of the constructor. *)
Record Profile := {
  host : str;
  port : Z;
  db : Z;
  username : option str;
  password : option str;
  use_ssl : bool;
  verify_ssl : bool;
  timeout : float;
}.

(** A client is its pool, and a pool is the arguments it was built from. *)
Record Client := { pool : kwargs }.

(** The loop [for a in attempts] of [_try_pool], with [last_err]. *)
Fixpoint first_accepted (redis : redis_module) (attempts : list kwargs)
    (last_err : option exn) : result kwargs :=
  match attempts with
  | [] =>
      match last_err with
      | Some e => Raise e
      | None => Raise (TypeError "exceptions must derive from BaseException")
      end
  | a :: attempts' =>
      match ConnectionPool redis a with
      | None => Ok a
      | Some e =>
          if is_TypeError e then first_accepted redis attempts' (Some e)
          else Raise e
      end
  end.

(** [k = dict(kwargs); for d in drop: k.pop(d, None)]. *)
Definition without (kw : kwargs) (drop : list string) : kwargs :=
  foldl (λ k d, dict_pop d k) kw drop.

(** The list [attempts] that [_try_pool] builds. *)
Definition attempts (kw : kwargs) (use_ssl_conn : bool) : list kwargs :=
  if use_ssl_conn then
    let kwargs_conn := dict_set "connection_class"%string KSSLConnection kw in
    kwargs_conn
      :: map (without kwargs_conn)
           [["username"]; ["ssl_context"]; ["ssl_cert_reqs"]]%string
  else
    kw :: map (without kw)
            [["username"]; ["ssl_context"]; ["ssl_cert_reqs"]; ["ssl"]]%string.

(** [_try_pool]. *)
Definition _try_pool (redis : redis_module) (kw : kwargs) (use_ssl_conn : bool)
  : result kwargs :=
  if use_ssl_conn && negb (SSLConnection redis) then
    Raise (SimpleRedisClientError
             (Message "This redis-py version does not support SSLConnection."))
  else first_accepted redis (attempts kw use_ssl_conn) None.

(** [if x:] on an optional string. *)
Definition truthy (x : option str) : option str :=
  match x with
  | Some (c :: t) => Some (c :: t)
  | _ => None
  end.

(** [base_kwargs] as the constructor fills it. *)
Definition base_kwargs (p : Profile) : kwargs :=
  let k0 : kwargs :=
    [("host", KStr (host p)); ("port", KInt (port p)); ("db", KInt (db p));
     ("socket_timeout", KFloat (timeout p));
     ("decode_responses", KBool false)]%string in
  let k1 := match truthy (password p) with
            | Some pw => dict_set "password"%string (KStr pw) k0
            | None => k0
            end in
  let k2 := match truthy (username p) with
            | Some un => dict_set "username"%string (KStr un) k1
            | None => k1
            end in
  if use_ssl p then
    let ssl_ctx := {| check_hostname := verify_ssl p;
                      verify_required := verify_ssl p |} in
    dict_set "ssl_context"%string (KContext ssl_ctx)
      (dict_set "ssl_cert_reqs"%string (KCertReqs (verify_ssl p))
         (dict_set "ssl"%string (KBool true) k2))
  else k2.

Definition mentions (needle : string) (e : exn) : bool :=
  contains (txt needle) (txt (exn_str e)).

(** [__init__]; [redis = None] is the failed import. The message prefix the
    last handler adds is left out, the wrapped exception is kept. *)
Definition __init__ (redis : option redis_module) (p : Profile) : result Client :=
  match redis with
  | None =>
      Raise (SimpleRedisClientError
               (Message "The 'redis' package is not installed."))
  | Some redis =>
      let built :=
        match _try_pool redis (base_kwargs p) false with
        | Raise te =>
            if is_TypeError te then
              if use_ssl p && (mentions "ssl" te || mentions "ssl_context" te)
              then _try_pool redis (base_kwargs p) true
              else Raise te
            else Raise te
        | r => r
        end in
      match built with
      | Ok k => Ok {| pool := k |}
      | Raise e => Raise (SimpleRedisClientError e)
      | OutOfFuel => OutOfFuel
      end
  end.

(** [RedisViewer._get_client] once the form fields are read: construct, then
    test the connection; the dialogs are left out. *)
Definition _get_client `{!Transport St} (redis : option redis_module)
    (p : Profile) : M St (option Client) :=
  try_catch
    (let* client := (λ s, (__init__ redis p, s)) in
     let* alive := ping in
     if alive then ret (Some client) else ret None)
    (λ e, match e with
          | SimpleRedisClientError _ => ret None
          | _ => raise e
          end).
End Connect.

(* ===================================================================== *)
(** * A reference model of the store                                       *)
(* ===================================================================== *)

(** The store is not part of the program; this model follows the Redis
    command reference for the commands the client sends and is the
    [Transport] the examples run on. Keys live in a table in a fixed order;
    [SCAN] looks at [COUNT] table slots per call and its cursor is the index
    of the next slot, [0] when the table is exhausted. Glob patterns cover
    the star, the question mark and the backslash escape. *)
Section Server.
Context `{Float}.

Inductive rvalue :=
| RString (v : bytes)
| RHash (h : list (bytes * bytes))
| RList (l : list bytes)
| RSet (m : list bytes)
| RZSet (z : list (bytes * float))
| RStream (entries : list (bytes * list (bytes * bytes))).

(** Commands as they reach the server. *)
Inductive command :=
| PING
| TYPE (k : bytes)
| GET (k : bytes)
| SET (k v : bytes)
| DEL (k : bytes)
| HSET (k : bytes) (fv : list (bytes * bytes))
| HGETALL (k : bytes)
| RPUSH (k : bytes) (vs : list bytes)
| LRANGE (k : bytes) (start stop : Z)
| SADD (k : bytes) (ms : list bytes)
| SMEMBERS (k : bytes)
| ZADD (k : bytes) (ms : list (bytes * float))
| ZRANGE (k : bytes) (start stop : Z)
| XRANGE (k : bytes) (count : Z)
| SCAN (cursor : Z) (pattern : bytes) (count : Z) (type : option bytes).

Record server := {
  alive : bool;                   (* the server answers *)
  scan_type_kw : bool;            (* this redis-py knows [scan(_type=)] *)
  table : list (bytes * rvalue);  (* the key space *)
  log : list command;             (* commands received, oldest first *)
}.

Definition type_name (v : rvalue) : bytes :=
  match v with
  | RString _ => raw "string"
  | RHash _ => raw "hash"
  | RList _ => raw "list"
  | RSet _ => raw "set"
  | RZSet _ => raw "zset"
  | RStream _ => raw "stream"
  end.

Definition wrongtype {A} : reply A :=
  Fail (T_ResponseError
          "WRONGTYPE Operation against a key holding the wrong kind of value").

(** One round trip: the command is logged and answered, unless the server is
    down. *)
Definition received (c : command) (t : list (bytes * rvalue)) (s : server)
  : server :=
  {| alive := alive s; scan_type_kw := scan_type_kw s; table := t;
     log := log s ++ [c] |}.

Definition exchange {A} (c : command)
    (f : list (bytes * rvalue) → reply A * list (bytes * rvalue))
    (s : server) : reply A * server :=
  if alive s then ((f (table s)).1, received c (f (table s)).2 s)
  else (Fail (T_ConnectionError "Connection refused"), s).

(** redis-py encodes text arguments as UTF-8 before anything is sent. *)
Definition encoded {A} (x : str) (k : bytes → server → reply A * server)
  : server → reply A * server :=
  λ s, match utf8_encode x with
       | Some v => k v s
       | None => (Fail T_UnicodeEncodeError, s)
       end.

Definition encoded_list {A} (l : list str)
    (k : list bytes → server → reply A * server)
  : server → reply A * server :=
  λ s, match mapM utf8_encode l with
       | Some v => k v s
       | None => (Fail T_UnicodeEncodeError, s)
       end.

Definition encode_pair {B} (p : str * B) : option (bytes * B) :=
  v ← utf8_encode p.1; Some (v, p.2).

Definition encode_field (fv : str * str) : option (bytes * bytes) :=
  f ← utf8_encode fv.1; v ← utf8_encode fv.2; Some (f, v).

(** Index ranges of [LRANGE] and [ZRANGE]: negative indices count from the
    end, the stop index is inclusive and clipped. *)
Definition range {A} (start stop : Z) (l : list A) : list A :=
  let n := Z.of_nat (length l) in
  let a := if start <? 0 then Z.max 0 (n + start) else start in
  let z := if stop <? 0 then n + stop else Z.min stop (n - 1) in
  if z <? a then [] else take (Z.to_nat (z - a + 1)) (drop (Z.to_nat a) l).

(** Glob matching. *)
Fixpoint glob (p : bytes) : bytes → bool :=
  match p with
  | [] => λ s, if s is [] then true else false
  | c :: p' =>
      if (c =? 42)%N then
        fix star (s : bytes) : bool :=
          glob p' s || match s with
                       | [] => false
                       | _ :: s' => star s'
                       end
      else if (c =? 63)%N then
        λ s, match s with
             | _ :: s' => glob p' s'
             | [] => false
             end
      else if (c =? 92)%N then
        match p' with
        | e :: p'' =>
            λ s, match s with
                 | x :: s' => (x =? e)%N && glob p'' s'
                 | [] => false
                 end
        | [] => λ s, bool_decide (s = [92%N])
        end
      else
        λ s, match s with
             | x :: s' => (x =? c)%N && glob p' s'
             | [] => false
             end
  end.

(** The [TYPE] option of [SCAN] compares type names without regard to
    case. *)
Definition type_matches (type : option bytes) (v : rvalue) : bool :=
  match type with
  | None => true
  | Some t => bool_decide (lower t = type_name v)
  end.

(** [SCAN] on the reference store: the cursor is a position in the table
    and a call looks at the [count] slots from it. The cursors of a real
    store are opaque and [COUNT] is a hint; what holds for those is stated on
    [pager] below. *)
Definition scan_reply (cursor : Z) (pattern : bytes) (count : Z)
    (type : option bytes) (t : list (bytes * rvalue)) : reply (Z * list bytes) :=
  if (count <? 1) || (cursor <? 0) then Fail (T_ResponseError "ERR syntax error")
  else
    let window := take (Z.to_nat count) (drop (Z.to_nat cursor) t) in
    let next := if cursor + count <? Z.of_nat (length t)
                then cursor + count else 0 in
    Reply (next,
           map fst (filter (λ kv, glob pattern kv.1 && type_matches type kv.2)
                      window)).

(** [HSET]: known fields are overwritten in place, new ones appended. *)
Definition hash_update (h fv : list (bytes * bytes)) : list (bytes * bytes) :=
  foldl (λ d kv, dict_set kv.1 kv.2 d) h fv.

Definition new_in {B} (old : list bytes) (l : list (bytes * B)) : Z :=
  Z.of_nat (length (filter (λ k, k ∉ old) (remove_dups (map fst l)))).

(** [SADD]: members not yet present are appended. *)
Definition set_add (m ms : list bytes) : list bytes :=
  foldl (λ acc x, if decide (x ∈ acc) then acc else acc ++ [x]) m ms.

(** Sorted sets are kept by score, then by member. *)
Definition zset_before (a c : bytes * float) : bool :=
  if float_leb a.2 c.2
  then if float_leb c.2 a.2 then str_leb a.1 c.1 else true
  else false.

Fixpoint zset_insert (e : bytes * float) (z : list (bytes * float))
  : list (bytes * float) :=
  match z with
  | [] => [e]
  | x :: z' => if zset_before e x then e :: z else x :: zset_insert e z'
  end.

Definition zset_add (z ms : list (bytes * float)) : list (bytes * float) :=
  foldl (λ acc e, zset_insert e (dict_pop e.1 acc)) z ms.

#[export] Instance server_transport : Transport server := {
  t_ping := exchange PING (λ t, (Reply true, t));
  t_type key := encoded key (λ k,
    exchange (TYPE k) (λ t,
      (Reply (match dict_get k t with
              | Some v => type_name v
              | None => raw "none"
              end), t)));
  t_get key := encoded key (λ k,
    exchange (GET k) (λ t,
      (match dict_get k t with
       | Some (RString v) => Reply (Some v)
       | Some _ => wrongtype
       | None => Reply None
       end, t)));
  t_set key v := encoded key (λ k,
    exchange (SET k v) (λ t, (Reply (), dict_set k (RString v) t)));
  t_delete key := encoded key (λ k,
    exchange (DEL k) (λ t,
      (Reply (if dict_get k t is Some _ then 1 else 0), dict_pop k t)));
  t_hset key mapping := encoded key (λ k s,
    match mapping with
    | [] => (Fail (T_DataError "'hset' with no key value pairs"), s)
    | _ :: _ =>
        match mapM encode_field mapping with
        | None => (Fail T_UnicodeEncodeError, s)
        | Some fv =>
            exchange (HSET k fv) (λ t,
              match dict_get k t with
              | Some (RHash h) =>
                  (Reply (new_in (map fst h) fv),
                   dict_set k (RHash (hash_update h fv)) t)
              | Some _ => (wrongtype, t)
              | None =>
                  (Reply (new_in [] fv), dict_set k (RHash (hash_update [] fv)) t)
              end) s
        end
    end);
  t_hgetall key := encoded key (λ k,
    exchange (HGETALL k) (λ t,
      (match dict_get k t with
       | Some (RHash h) => Reply h
       | Some _ => wrongtype
       | None => Reply []
       end, t)));
  t_rpush key values := encoded key (λ k, encoded_list values (λ vs,
    exchange (RPUSH k vs) (λ t,
      match vs, dict_get k t with
      | [], _ =>
          (Fail (T_ResponseError "ERR wrong number of arguments"), t)
      | _, Some (RList l) =>
          (Reply (Z.of_nat (length (l ++ vs))), dict_set k (RList (l ++ vs)) t)
      | _, Some _ => (wrongtype, t)
      | _, None => (Reply (Z.of_nat (length vs)), dict_set k (RList vs) t)
      end)));
  t_lrange key start stop := encoded key (λ k,
    exchange (LRANGE k start stop) (λ t,
      (match dict_get k t with
       | Some (RList l) => Reply (range start stop l)
       | Some _ => wrongtype
       | None => Reply []
       end, t)));
  t_sadd key values := encoded key (λ k, encoded_list values (λ ms,
    exchange (SADD k ms) (λ t,
      match ms, dict_get k t with
      | [], _ =>
          (Fail (T_ResponseError "ERR wrong number of arguments"), t)
      | _, Some (RSet m) =>
          (Reply (Z.of_nat (length (set_add m ms)) - Z.of_nat (length m)),
           dict_set k (RSet (set_add m ms)) t)
      | _, Some _ => (wrongtype, t)
      | _, None =>
          (Reply (Z.of_nat (length (set_add [] ms))),
           dict_set k (RSet (set_add [] ms)) t)
      end)));
  t_smembers key := encoded key (λ k,
    exchange (SMEMBERS k) (λ t,
      (match dict_get k t with
       | Some (RSet m) => Reply m
       | Some _ => wrongtype
       | None => Reply []
       end, t)));
  t_zadd key mapping := encoded key (λ k s,
    match mapping with
    | [] =>
        (Fail (T_DataError "ZADD requires at least one element/score pair"), s)
    | _ :: _ =>
        match mapM encode_pair mapping with
        | None => (Fail T_UnicodeEncodeError, s)
        | Some ms =>
            exchange (ZADD k ms) (λ t,
              match dict_get k t with
              | Some (RZSet z) =>
                  (Reply (new_in (map fst z) ms),
                   dict_set k (RZSet (zset_add z ms)) t)
              | Some _ => (wrongtype, t)
              | None =>
                  (Reply (new_in [] ms), dict_set k (RZSet (zset_add [] ms)) t)
              end) s
        end
    end);
  t_zrange_withscores key start stop := encoded key (λ k,
    exchange (ZRANGE k start stop) (λ t,
      (match dict_get k t with
       | Some (RZSet z) => Reply (range start stop z)
       | Some _ => wrongtype
       | None => Reply []
       end, t)));
  t_xrange key count := encoded key (λ k s,
    if count <? 1
    then (Fail (T_DataError "XRANGE count must be a positive integer"), s)
    else
      exchange (XRANGE k count) (λ t,
        (match dict_get k t with
         | Some (RStream es) => Reply (take (Z.to_nat count) es)
         | Some _ => wrongtype
         | None => Reply []
         end, t)) s);
  t_scan cursor pattern count type := λ s,
    match type with
    | Some ty =>
        if scan_type_kw s then
          encoded pattern (λ p, encoded ty (λ tb,
            exchange (SCAN cursor p count (Some tb))
              (λ t, (scan_reply cursor p count (Some tb) t, t)))) s
        else
          (Fail (T_TypeError "scan() got an unexpected keyword argument '_type'"),
           s)
    | None =>
        encoded pattern (λ p,
          exchange (SCAN cursor p count None)
            (λ t, (scan_reply cursor p count None t, t))) s
    end;
}.
End Server.

(** An instance of [Float] for running examples: the integral values, written
    without exponent. On integers of magnitude at most [2^53] and on their
    decimal numerals these operations agree with Python's. *)
Definition integral_of_str (s : str) : option Z :=
  let '(neg, d) :=
    match s with
    | c :: r => if (c =? 45)%N then (true, r) else (false, s)
    | [] => (false, s)
    end in
  match d with
  | [] => None
  | _ :: _ =>
      if forallb (between 48 57) d
      then Some (let v := foldl (λ acc c, acc * 10 + Z.of_N (c - 48)) 0 d in
                 if neg then - v else v)
      else None
  end.

#[export] Instance integral_float : Float := {
  float := Z;
  float_of_str := integral_of_str;
  float_of_Z z := if Z.abs z <=? 2 ^ 53 then Some z else None;
  float_repr z := str_of_Z z ++ txt ".0";
  float_json z := str_of_Z z ++ txt ".0";
  float_leb := Z.leb;
}.


(* ===================================================================== *)
(** * Notions used in the statements                                       *)
(* ===================================================================== *)



(** Octets the strict decoder accepts. *)
Definition valid_utf8 (x : bytes) : Prop := is_Some (utf8_decode false x).


(** A parameter set the transport takes, and one it refuses as carrying an
    unsupported parameter. *)
Definition accepted `{Float} (redis : redis_module) (a : kwargs) : bool :=
  if ConnectionPool redis a is None then true else false.

Definition unsupported `{Float} (redis : redis_module) (a : kwargs) : Prop :=
  ∀ e, ConnectionPool redis a = Some e → is_TypeError e = true.


(** A page walk over a store whose answer to a scan at cursor [c] is
    [reply_at c]: starting at a cursor with the keys gathered so far, scan
    calls are issued, each resumed at the cursor the previous one returned,
    until [count] keys are gathered or the store answers cursor [0].
    [page_run c keys cs keys' c'] lists the cursors [cs] of the calls, the
    keys gathered at the end and the last cursor. *)
Inductive page_run (reply_at : Z → Z * list bytes) (count : Z)
  : Z → list str → list Z → list str → Z → Prop :=
| run_enough c keys :
    count ≤ len keys →
    page_run reply_at count c keys [] keys c
| run_last c keys batch :
    len keys < count →
    reply_at c = (0, batch) →
    page_run reply_at count c keys [c] (keys ++ map decode_bytes batch) 0
| run_next c keys c' batch cs keys' nc :
    len keys < count →
    reply_at c = (c', batch) →
    c' ≠ 0 →
    page_run reply_at count c' (keys ++ map decode_bytes batch) cs keys' nc →
    page_run reply_at count c keys (c :: cs) keys' nc.


Section Notions.
Context `{Float}.
Implicit Types (s : server) (kb pb : bytes) (ty : option bytes) (c : Z).

(** What [type] answers on a live server. *)
Definition stored_type (t : list (bytes * rvalue)) kb : str :=
  match dict_get kb t with
  | Some v => type_name v
  | None => raw "none"
  end.


(** The store's answer to a scan at cursor [c]. *)
Definition store_reply (t : list (bytes * rvalue)) pb (count : Z) ty c
  : Z * list bytes :=
  match scan_reply c pb count ty t with
  | Reply r => r
  | Fail _ => (0, [])
  end.

(** The [TYPE] argument that reaches the store on the native path. *)
Definition native_type s (type_filter : option str) ty : Prop :=
  if filtering type_filter
  then scan_type_kw s = true ∧ ∃ tb, type_filter ≫= utf8_encode = Some tb
                                      ∧ ty = Some tb
  else ty = None.

(** The state after scan calls at the cursors [cs]. *)
Definition scanned pb (count : Z) ty (cs : list Z) s : server :=
  {| alive := alive s; scan_type_kw := scan_type_kw s; table := table s;
     log := log s ++ map (λ c, SCAN c pb count ty) cs |}.


(** States with the same key space, whatever was logged. *)
Definition same_store s s' : Prop :=
  alive s' = alive s ∧ table s' = table s.
End Notions.

(* ===================================================================== *)
(** * Example inputs                                                       *)
(* ===================================================================== *)

Definition empty_store : server :=
  {| alive := true; scan_type_kw := true; table := []; log := [] |}.

Definition down_store : server :=
  {| alive := false; scan_type_kw := true; table := []; log := [] |}.

Definition users_store : server :=
  {| alive := true; scan_type_kw := true;
     table := [(raw "user:1", RString (raw "a")); (raw "other", RString (raw "x"));
               (raw "user:2", RString (raw "b")); (raw "user:3", RString (raw "c"))];
     log := [] |}.

(** One string and one hash; [kw] tells whether this redis-py knows the
    [_type] keyword of [scan]. *)
Definition mixed_store (kw : bool) : server :=
  {| alive := true; scan_type_kw := kw;
     table := [(raw "s1", RString (raw "v")); (raw "h1", RHash [(raw "f", raw "v")])];
     log := [] |}.

(** Two members that are not valid UTF-8. *)
Definition binary_set_store : server :=
  {| alive := true; scan_type_kw := true;
     table := [(raw "k", RSet [[255%N]; [254%N]])]; log := [] |}.

Definition letters_store (m : list bytes) : server :=
  {| alive := true; scan_type_kw := true; table := [(raw "k", RSet m)];
     log := [] |}.

Definition hash_store : server :=
  {| alive := true; scan_type_kw := true;
     table := [(raw "h", RHash [(raw "old", raw "1"); (raw "a", raw "0")])];
     log := [] |}.

Definition text_store : server :=
  {| alive := true; scan_type_kw := true;
     table := [(raw "j", RString (raw "[1, 2]")); (raw "t", RString (raw "hello"))];
     log := [] |}.

Definition tls_profile : Profile :=
  {| host := txt "localhost"; port := 6380; db := 0;
     username := Some (txt "app"); password := Some (txt "secret");
     use_ssl := true; verify_ssl := true; timeout := 5 |}.

Definition has_kw (name : string) (a : kwargs) : bool :=
  if dict_get name a is Some _ then true else false.

(** A transport that takes any parameter set. *)
Definition permissive_redis : redis_module :=
  {| ConnectionPool := λ _, None; SSLConnection := true |}.

(** A transport that knows neither [username] nor [ssl_context]. *)
Definition old_redis : redis_module :=
  {| ConnectionPool := λ a,
       if has_kw "username" a
       then Some (TypeError "got an unexpected keyword argument 'username'")
       else if has_kw "ssl_context" a
       then Some (TypeError "got an unexpected keyword argument 'ssl_context'")
       else None;
     SSLConnection := true |}.

(** A transport that does not know [ssl_context] alone. *)
Definition no_context_redis : redis_module :=
  {| ConnectionPool := λ a,
       if has_kw "ssl_context" a
       then Some (TypeError "got an unexpected keyword argument 'ssl_context'")
       else None;
     SSLConnection := true |}.
(* ===================================================================== *)
(** * The rest of [SimpleRedisClient]                                      *)
(* ===================================================================== *)

Section MoreValues.
Context `{Float}.

(** No [bytes] object anywhere in a value, dictionary keys included. *)
Fixpoint bytes_free (v : pyval) : bool :=
  match v with
  | PyBytes _ => false
  | PyList l | PyTuple l | PySet l => forallb bytes_free l
  | PyDict d =>
      forallb (λ kv, (if kv.1 is KeyStr _ then true else false)
                     && bytes_free kv.2) d
  | _ => true
  end.

(** No [bytes] inside a set, at any depth of the value. *)
Fixpoint sets_bytes_free (v : pyval) : bool :=
  match v with
  | PySet l => forallb bytes_free l
  | PyList l | PyTuple l => forallb sets_bytes_free l
  | PyDict d => forallb (λ kv, sets_bytes_free kv.2) d
  | _ => true
  end.

(** No [set] anywhere in a value. *)
Fixpoint set_free (v : pyval) : bool :=
  match v with
  | PySet _ => false
  | PyList l | PyTuple l => forallb set_free l
  | PyDict d => forallb (λ kv, set_free kv.2) d
  | _ => true
  end.
End MoreValues.

(** The other commands of [redis.Redis] the client calls: [info] (a
    dictionary), [dbsize], [ttl], [expire] and [execute_command], whose reply
    can be any value. *)
Class AdminTransport `{Float} (St : Type) := {
  t_info : St → reply pyval * St;
  t_dbsize : St → reply Z * St;
  t_ttl : str → St → reply Z * St;
  t_expire : str → Z → St → reply bool * St;
  t_execute_command : str → list str → St → reply pyval * St;
}.

Section Admin.
Context `{Float} `{!AdminTransport St}.

(** [info]. *)
Definition info : M St pyval :=
  wrapped (let* r := call t_info in ret (_b2s r)).

(** [dbsize]. *)
Definition dbsize : M St Z :=
  wrapped (call t_dbsize).

(** [ttl]. *)
Definition ttl (key : str) : M St Z :=
  wrapped (call (t_ttl key)).

(** [expire]. *)
Definition expire (key : str) (seconds : Z) : M St bool :=
  wrapped (call (t_expire key seconds)).

(** [custom]; [parts[0]] on an empty list raises [IndexError]. *)
Definition custom (parts : list str) : M St pyval :=
  wrapped (
    match parts with
    | [] => raise (Message "list index out of range")
    | cmd :: args =>
        let* res := call (t_execute_command cmd args) in
        ret (_b2s res)
    end).
End Admin.

(** Further example inputs. *)
Definition list_store : server :=
  {| alive := true; scan_type_kw := true;
     table := [(raw "l", RList [raw "a"; raw "b"; raw "c"])]; log := [] |}.

Definition zset_store : server :=
  {| alive := true; scan_type_kw := true;
     table := [(raw "z", RZSet [(raw "low", 1); (raw "mid", 2); (raw "top", 3)])];
     log := [] |}.

(** A transport for the console that answers a command with its own words,
    as [bytes] ([SMEMBERS] with the set of its arguments, as redis-py gives
    the members of a set), and keeps the commands it received. *)
Definition console : Type := list (list str).

#[export] Instance console_admin : AdminTransport console := {
  t_info st :=
    (Reply (PyDict [(KeyStr (txt "redis_version"), PyStr (txt "7.0"))]),
     st ++ [[txt "INFO"]]);
  t_dbsize st := (Reply 0, st ++ [[txt "DBSIZE"]]);
  t_ttl key st := (Reply (-2), st ++ [[txt "TTL"; key]]);
  t_expire key seconds st :=
    (Reply false, st ++ [[txt "EXPIRE"; key; str_of_Z seconds]]);
  t_execute_command cmd args st :=
    match mapM utf8_encode (cmd :: args) with
    | Some words =>
        (Reply (if str_eqb cmd (txt "SMEMBERS")
                then PySet (map PyBytes (tail words))
                else PyList (map PyBytes words)),
         st ++ [cmd :: args])
    | None => (Fail T_UnicodeEncodeError, st)
    end;
}.

(* ===================================================================== *)
(** * The window: text shown and text read back                            *)
(* ===================================================================== *)

(** [c.isspace()]: the characters [str.strip] removes. *)
Definition is_space (c : N) : bool :=
  between 9 13 c || between 28 32 c || (c =? 133)%N || (c =? 160)%N
  || (c =? 5760)%N || between 8192 8202 c || (c =? 8232)%N || (c =? 8233)%N
  || (c =? 8239)%N || (c =? 8287)%N || (c =? 12288)%N.

Fixpoint lstrip (s : str) : str :=
  match s with
  | c :: r => if is_space c then lstrip r else s
  | [] => []
  end.

(** [s.strip()]. *)
Definition strip (s : str) : str := reverse (lstrip (reverse (lstrip s))).

Section Pretty.
Context `{Float}.

(** One character of a string under [ensure_ascii=False]: the quote, the
    backslash and the control characters are escaped, all else is kept. *)
Definition escape_cp_raw (c : N) : str :=
  (if c =? 34 then [92; 34]
   else if c =? 92 then [92; 92]
   else if c =? 10 then [92; 110]
   else if c =? 13 then [92; 114]
   else if c =? 9 then [92; 116]
   else if c =? 8 then [92; 98]
   else if c =? 12 then [92; 102]
   else if c <? 32 then u_escape c
   else [c])%N.

Definition json_quote_raw (s : str) : str :=
  [34%N] ++ concat (map escape_cp_raw s) ++ [34%N].

(** A line feed and the indentation of a nesting level. *)
Definition newline_indent (indent level : nat) : str :=
  10%N :: repeat 32%N (indent * level).

(** [json.dumps(v, indent=indent, ensure_ascii=False)] at a nesting level:
    one item a line, a comma at the end of the line, a colon and a space
    after a key; an empty array or object on one line. The limits of the
    library are not modelled: for an integer of more than 4300 digits and
    for nesting beyond the recursion limit, where [json.dumps] raises, this
    function still gives a text. *)
Fixpoint json_dumps_indent (indent level : nat) (v : json) : str :=
  match v with
  | JNull => txt "null"
  | JBool true => txt "true"
  | JBool false => txt "false"
  | JInt z => str_of_Z z
  | JFloat x => float_json x
  | JStr s => json_quote_raw s
  | JArr l =>
      if l is [] then txt "[]"
      else
        txt "[" ++ newline_indent indent (S level)
        ++ join (txt "," ++ newline_indent indent (S level))
             (map (json_dumps_indent indent (S level)) l)
        ++ newline_indent indent level ++ txt "]"
  | JObj d =>
      if d is [] then txt "{}"
      else
        txt "{" ++ newline_indent indent (S level)
        ++ join (txt "," ++ newline_indent indent (S level))
             (map (λ kv, json_quote_raw kv.1 ++ txt ": "
                         ++ json_dumps_indent indent (S level) kv.2) d)
        ++ newline_indent indent level ++ txt "}"
  end.

(** A JSON value without numbers in floating point. *)
Fixpoint float_free (v : json) : bool :=
  match v with
  | JFloat _ => false
  | JArr l => forallb float_free l
  | JObj d => forallb (λ kv, float_free kv.2) d
  | _ => true
  end.

(** No object of the value names a key twice, as in any Python [dict]. *)
Fixpoint distinct_keys (v : json) : bool :=
  match v with
  | JArr l => forallb distinct_keys l
  | JObj d =>
      bool_decide (NoDup (map fst d)) && forallb (λ kv, distinct_keys kv.2) d
  | _ => true
  end.

(** [RedisViewer.format_json_value], as the new content of the editor:
    [None] when the editor is left as it is (blank text, or text that is
    not JSON). *)
Definition format_json_value (value_text : str) : option str :=
  let text := strip value_text in
  match text with
  | [] => None
  | _ :: _ =>
      match json_loads text with
      | Some obj => Some (json_dumps_indent 2 0 obj)
      | None => None
      end
  end.
End Pretty.

(** The digits of a decimal numeral, as characters. *)
Fixpoint uint_codes (d : Decimal.uint) : str :=
  match d with
  | Decimal.Nil => []
  | Decimal.D0 l => 48%N :: uint_codes l
  | Decimal.D1 l => 49%N :: uint_codes l
  | Decimal.D2 l => 50%N :: uint_codes l
  | Decimal.D3 l => 51%N :: uint_codes l
  | Decimal.D4 l => 52%N :: uint_codes l
  | Decimal.D5 l => 53%N :: uint_codes l
  | Decimal.D6 l => 54%N :: uint_codes l
  | Decimal.D7 l => 55%N :: uint_codes l
  | Decimal.D8 l => 56%N :: uint_codes l
  | Decimal.D9 l => 57%N :: uint_codes l
  end.

(** What may follow a number: anything but a digit, a dot or an exponent
    mark. *)
Definition ends_number (rest : str) : bool :=
  match rest with
  | [] => true
  | c :: _ => negb (is_digit c || (c =? 46) || (c =? 101) || (c =? 69))%N
  end.

(** The decoder reads a written value back, whatever follows it. *)
Definition reads_back `{Float} (indent : nat) (v : json) : Prop :=
  ∀ (level : nat) (rest : str) (fuel : nat),
    ends_number rest = true →
    (2 * length (json_dumps_indent indent level v ++ rest) + 1 ≤ fuel)%nat →
    scan_value fuel (json_dumps_indent indent level v ++ rest)
    = Some (v, rest).

Section Editor.
Context `{Float}.

(** A Python value as [json.dumps] takes it: tuples are written as arrays,
    [bytes] (as a value or as a key) and sets are refused with [TypeError],
    here [None]. *)
Fixpoint json_of_py (v : pyval) : option json :=
  match v with
  | PyNone => Some JNull
  | PyBool b => Some (JBool b)
  | PyInt z => Some (JInt z)
  | PyFloat x => Some (JFloat x)
  | PyStr s => Some (JStr s)
  | PyBytes _ | PySet _ => None
  | PyList l | PyTuple l => JArr <$> mapM json_of_py l
  | PyDict d =>
      JObj <$> mapM (λ kv, match kv.1 with
                           | KeyStr k => v' ← json_of_py kv.2; Some (k, v')
                           | KeyBytes _ => None
                           end) d
  end.

(** The text [execute_get_value] puts in the editor for the value of a
    record: indented JSON for a [dict] or [list], nothing for [None], and
    [str(val)] otherwise. [None] stands for the [TypeError] of [json.dumps];
    [str] of a tuple, of [bytes] or of a set, which no record of
    [get_value] holds as its value, is not covered and gives [None] as
    well. *)
Definition editor_text (val : pyval) : option str :=
  match val with
  | PyDict _ | PyList _ => json_dumps_indent 2 0 <$> json_of_py val
  | PyNone => Some []
  | PyStr s => Some s
  | PyInt z => Some (str_of_Z z)
  | PyFloat x => Some (float_repr x)
  | PyBool true => Some (txt "True")
  | PyBool false => Some (txt "False")
  | PyBytes _ | PyTuple _ | PySet _ => None
  end.

(** The dictionary [get_value] returns, as [json.dumps] takes it. *)
Definition record_json (r : ValueRecord) : option json :=
  t ← json_of_py (vr_type r);
  v ← json_of_py (vr_value r);
  Some (JObj [(txt "type", t); (txt "key", JStr (vr_key r)); (txt "value", v)]).

(** The text [populate_tree] puts in the results pane for a record;
    [None] stands for the [TypeError] of [json.dumps]. *)
Definition results_text (r : ValueRecord) : option str :=
  json_dumps_indent 2 0 <$> record_json r.
End Editor.

(** A computation on the reference store that leaves the key space as it
    found it, whatever it returns. *)
Definition reads_only `{Float} {A} (m : M server A) : Prop :=
  ∀ s, same_store s (m s).2.

(** Every value a computation returns satisfies [P], in whatever state it
    is run. *)
Definition returns {St A} (P : A → Prop) (m : M St A) : Prop :=
  ∀ s a s', m s = (Ok a, s') → P a.

(** A value the window can show: no [bytes] and no set in it, and no tuple
    at its top. *)
Definition showable `{Float} (v : pyval) : Prop :=
  bytes_free v = true ∧ set_free v = true ∧ ∀ l, v ≠ PyTuple l.

(* ===================================================================== *)
(** * The window: connection form and saved connections                    *)
(* ===================================================================== *)

(** What the connection form holds when a handler reads it. *)
Record Form := {
  host_input : str;
  port_input : str;
  db_input : str;
  https_checkbox : bool;
  verify_ssl_checkbox : bool;
  auth_checkbox : bool;
  user_input : str;
  pass_input : str;
}.

Section Window.
Context `{Float}.
(** [int(text)], Python's own, and the default [timeout=5.0] of the
    constructor. *)
Variables (int : str → option Z) (default_timeout : float).

(** [s or "0"]. *)
Definition or_zero (s : str) : str := if s is [] then txt "0" else s.

(** [RedisViewer._get_client], from the form on. The warnings are dialogs
    followed by [return None]; [int(port)] is evaluated inside the [try]
    that catches [SimpleRedisClientError] alone, so its [ValueError]
    leaves the method (its message goes on to quote the text; it is cut
    short here). *)
Definition _get_client_form `{!Transport St} (redis : option redis_module)
    (f : Form) : M St (option Client) :=
  let host := strip (host_input f) in
  let port := strip (port_input f) in
  let db_txt := or_zero (strip (db_input f)) in
  match host, port with
  | [], _ | _, [] => ret None
  | _ :: _, _ :: _ =>
      match int db_txt with
      | None => ret None
      | Some db =>
          let username :=
            if auth_checkbox f then Some (strip (user_input f)) else None in
          let password :=
            if auth_checkbox f then Some (pass_input f) else None in
          match int port with
          | None => raise (ValueError "invalid literal for int() with base 10")
          | Some port' =>
              _get_client redis
                {| host := host; port := port'; db := db;
                   username := username; password := password;
                   use_ssl := https_checkbox f;
                   verify_ssl := verify_ssl_checkbox f;
                   timeout := default_timeout |}
          end
      end
  end.

(** The dictionary [save_connection] builds from the form. *)
Definition new_connection (conn_name : str) (f : Form) : json :=
  JObj [(txt "name", JStr conn_name);
        (txt "host", JStr (host_input f));
        (txt "port", JStr (port_input f));
        (txt "db", JStr (or_zero (db_input f)));
        (txt "ssl_enabled", JBool (https_checkbox f));
        (txt "verify_ssl", JBool (verify_ssl_checkbox f));
        (txt "auth_enabled", JBool (auth_checkbox f));
        (txt "username", JStr (user_input f));
        (txt "password", JStr (pass_input f))].

(** [conn['name']] for an entry of [self.connections], which holds what
    [save_connection] put there or what the settings file gave: a missing
    key is a [KeyError], an entry that is no dictionary a [TypeError]. *)
Definition conn_name_of (conn : json) : result json :=
  match conn with
  | JObj d =>
      match dict_get (txt "name") d with
      | Some v => Ok v
      | None => Raise (Message "'name'")
      end
  | JArr _ => Raise (TypeError "list indices must be integers or slices, not str")
  | JStr _ => Raise (TypeError "string indices must be integers, not 'str'")
  | JInt _ => Raise (TypeError "'int' object is not subscriptable")
  | JFloat _ => Raise (TypeError "'float' object is not subscriptable")
  | JBool _ => Raise (TypeError "'bool' object is not subscriptable")
  | JNull => Raise (TypeError "'NoneType' object is not subscriptable")
  end.

(** [v == conn_name] for a text [conn_name]. *)
Definition is_name (conn_name : str) (v : json) : bool :=
  match v with
  | JStr s => str_eqb s conn_name
  | _ => false
  end.

(** [[i for i, conn in enumerate(connections) if conn['name'] == conn_name]],
    counting from [i]. *)
Fixpoint existing_indices (conn_name : str) (i : nat) (connections : list json)
  : result (list nat) :=
  match connections with
  | [] => Ok []
  | conn :: rest =>
      match conn_name_of conn with
      | Ok v =>
          match existing_indices conn_name (S i) rest with
          | Ok l => Ok (if is_name conn_name v then i :: l else l)
          | r => r
          end
      | Raise e => Raise e
      | OutOfFuel => OutOfFuel
      end
  end.

(** What [save_connection] does to [self.connections]: nothing when the
    name is blank (a warning), an update in place of the first entry of
    that name, or a new entry at the end. *)
Inductive save_outcome :=
| SaveRefused
| SaveUpdated (connections : list json)
| SaveAdded (connections : list json).

(** [save_connection]; [typed] is the text of the connection box. *)
Definition save_connection (typed : str) (f : Form) (connections : list json)
  : result save_outcome :=
  let conn_name := strip typed in
  match conn_name with
  | [] => Ok SaveRefused
  | _ :: _ =>
      match existing_indices conn_name 0 connections with
      | Ok (i :: _) =>
          Ok (SaveUpdated (<[i := new_connection conn_name f]> connections))
      | Ok [] => Ok (SaveAdded (connections ++ [new_connection conn_name f]))
      | Raise e => Raise e
      | OutOfFuel => OutOfFuel
      end
  end.

(** [[conn for conn in connections if conn['name'] != conn_name]]. *)
Fixpoint without_name (conn_name : str) (connections : list json)
  : result (list json) :=
  match connections with
  | [] => Ok []
  | conn :: rest =>
      match conn_name_of conn with
      | Ok v =>
          match without_name conn_name rest with
          | Ok l => Ok (if is_name conn_name v then l else conn :: l)
          | r => r
          end
      | Raise e => Raise e
      | OutOfFuel => OutOfFuel
      end
  end.

(** [delete_connection]; [typed] is the text of the connection box as it
    stands (it is not stripped), [confirmed] the answer to the question.
    [None]: nothing is deleted. *)
Definition delete_connection (typed : str) (confirmed : bool)
    (connections : list json) : result (option (list json)) :=
  match typed with
  | [] => Ok None
  | _ :: _ =>
      if confirmed then
        match without_name typed connections with
        | Ok l => Ok (Some l)
        | Raise e => Raise e
        | OutOfFuel => OutOfFuel
        end
      else Ok None
  end.

(** The names of the saved connections, where every entry has one. *)
Definition connection_names (connections : list json) : list json :=
  omap (λ conn, match conn_name_of conn with
                | Ok v => Some v
                | _ => None
                end) connections.

(** Every entry is a dictionary with a [name]. *)
Definition all_named (connections : list json) : Prop :=
  Forall (λ conn, ∃ v, conn_name_of conn = Ok v) connections.
End Window.

(** Example inputs for the window. *)
Definition local_form : Form :=
  {| host_input := txt " localhost "; port_input := txt "6379";
     db_input := []; https_checkbox := false; verify_ssl_checkbox := true;
     auth_checkbox := false; user_input := txt "app";
     pass_input := txt "secret" |}.

Definition blank_host_form : Form :=
  {| host_input := [32; 9]%N; port_input := txt "6379"; db_input := txt "0";
     https_checkbox := false; verify_ssl_checkbox := true;
     auth_checkbox := false; user_input := []; pass_input := [] |}.

Definition bad_db_form : Form :=
  {| host_input := txt "localhost"; port_input := txt "6379";
     db_input := txt "one"; https_checkbox := false;
     verify_ssl_checkbox := true; auth_checkbox := false; user_input := [];
     pass_input := [] |}.

Definition bad_port_form : Form :=
  {| host_input := txt "localhost"; port_input := txt "redis";
     db_input := txt "0"; https_checkbox := false;
     verify_ssl_checkbox := true; auth_checkbox := false; user_input := [];
     pass_input := [] |}.

Definition saved_connections : list json :=
  [new_connection (txt "default") blank_host_form;
   new_connection (txt "staging") bad_port_form].

(* ===================================================================== *)
(** * A store with opaque cursors                                          *)
(* ===================================================================== *)

(** One [SCAN] call as a store receives it. *)
Record ScanCall := {
  sc_cursor : Z;
  sc_pattern : str;
  sc_count : Z;
  sc_type : option str;
}.

(** A store known by its answers to [SCAN] alone: [page_at pattern count
    type cursor] is the next cursor and the batch it returns. Cursors are
    opaque (an answer names any next cursor) and [COUNT] is a hint (a batch
    has any size). [asked] lists the calls received. *)
Record pager := {
  page_at : str → Z → option str → Z → Z * list bytes;
  asked : list ScanCall;
}.

(** The store after further calls. *)
Definition asked_more (calls : list ScanCall) (st : pager) : pager :=
  {| page_at := page_at st; asked := asked st ++ calls |}.

(** The calls of a walk: the same pattern, count and type at each cursor. *)
Definition scan_calls (pattern : str) (count : Z) (ty : option str)
    (cs : list Z) : list ScanCall :=
  map (λ c, {| sc_cursor := c; sc_pattern := pattern; sc_count := count;
               sc_type := ty |}) cs.

Definition not_served : transport_error :=
  T_ResponseError "ERR unknown command".

(** The store as a transport: [SCAN] is answered by [page_at], no other
    command is served. *)
#[export] Instance pager_transport `{Float} : Transport pager | 100 := {
  t_ping st := (Fail not_served, st);
  t_type _ st := (Fail not_served, st);
  t_get _ st := (Fail not_served, st);
  t_set _ _ st := (Fail not_served, st);
  t_delete _ st := (Fail not_served, st);
  t_hset _ _ st := (Fail not_served, st);
  t_hgetall _ st := (Fail not_served, st);
  t_rpush _ _ st := (Fail not_served, st);
  t_lrange _ _ _ st := (Fail not_served, st);
  t_sadd _ _ st := (Fail not_served, st);
  t_smembers _ st := (Fail not_served, st);
  t_zadd _ _ st := (Fail not_served, st);
  t_zrange_withscores _ _ _ st := (Fail not_served, st);
  t_xrange _ _ st := (Fail not_served, st);
  t_scan c pattern count ty st :=
    (Reply (page_at st pattern count ty c),
     asked_more (scan_calls pattern count ty [c]) st);
}.

(** The [_type] argument [scan_with_cursor] passes on its first path. *)
Definition passed_type (type_filter : option str) : option str :=
  if filtering type_filter then type_filter else None.

(** An example: from cursor [0] the store answers cursors [17], [5], [9]
    and [0], with batches of one, no, three and one key. *)
Definition sample_pager : pager :=
  {| page_at := λ _ _ _ c,
       if c =? 0 then (17, [raw "a"])
       else if c =? 17 then (5, [])
       else if c =? 5 then (9, [raw "b"; raw "c"; raw "d"])
       else (0, [raw "e"]);
     asked := [] |}.

(* ===================================================================== *)
(** * The order on text                                                    *)
(* ===================================================================== *)

Lemma str_leb_total (x y : str) : str_leb x y = true ∨ str_leb y x = true.
Proof.
  revert y. induction x as [|c x IH]; intros [|d y]; simpl; auto.
  destruct (N.ltb_spec c d), (N.ltb_spec d c); auto; lia.
Qed.

Lemma str_leb_trans (x y z : str) :
  str_leb x y = true → str_leb y z = true → str_leb x z = true.
Proof.
  revert y z. induction x as [|c x IH]; intros [|d y] [|e z]; simpl; auto;
    try discriminate.
  destruct (N.ltb_spec c d), (N.ltb_spec d c), (N.ltb_spec d e),
    (N.ltb_spec e d), (N.ltb_spec c e), (N.ltb_spec e c);
    try discriminate; try lia; eauto.
Qed.

Lemma str_leb_antisym (x y : str) :
  str_leb x y = true → str_leb y x = true → x = y.
Proof.
  revert y. induction x as [|c x IH]; intros [|d y]; simpl; auto;
    try discriminate.
  destruct (N.ltb_spec c d), (N.ltb_spec d c); try discriminate; try lia.
  intros Hxy Hyx. f_equal; [lia | auto].
Qed.

#[global] Instance str_le_total : Total str_le.
Proof. intros x y. apply str_leb_total. Qed.

#[global] Instance str_le_trans : Transitive str_le.
Proof. intros x y z. apply str_leb_trans. Qed.

#[global] Instance str_le_antisym : AntiSymm (=) str_le.
Proof. intros x y. apply str_leb_antisym. Qed.

Lemma sorted_Sorted (l : list str) : StronglySorted str_le (sorted l).
Proof. apply StronglySorted_merge_sort; apply _. Qed.

Lemma sorted_Permutation (l : list str) : sorted l ≡ₚ l.
Proof. apply merge_sort_Permutation. Qed.

(** [sorted] does not depend on the order of its input. *)
Lemma sorted_order_irrelevant (l1 l2 : list str) :
  l1 ≡ₚ l2 → sorted l1 = sorted l2.
Proof.
  intros Hp. apply (StronglySorted_unique str_le); try apply sorted_Sorted.
  by rewrite !sorted_Permutation.
Qed.

(* ===================================================================== *)
(** * JSON: the decoder never runs out of fuel                             *)
(* ===================================================================== *)

Section JsonFuel.
Context `{Float}.
Implicit Types (s r t : str).

Lemma skip_ws_length s : (length (skip_ws s) ≤ length s)%nat.
Proof.
  induction s as [|c s IH]; simpl; [done|]. destruct (is_ws c); simpl; lia.
Qed.

Lemma emit_Some (c : N) (k : option (str * str)) t r :
  ('(t0, r0) ← k; Some (c :: t0, r0)) = Some (t, r) →
  ∃ t0, k = Some (t0, r).
Proof. destruct k as [[t0 r0]|]; simpl; [|done]. intros [= _ <-]. eauto. Qed.

Lemma scan_string_length s t r :
  scan_string s = Some (t, r) → (length r < length s)%nat.
Proof.
  remember (length s) as n eqn:Hn. revert s t r Hn.
  induction n as [n IH] using lt_wf_ind. intros s t r -> Hs.
  assert (∀ c k s', ('(t0, r0) ← k; Some (c :: t0, r0)) = Some (t, r) →
                    k = scan_string s' → (length s' < length s)%nat →
                    (length r < length s)%nat) as Hemit.
  { intros c k s' (t0 & Hk)%emit_Some -> Hlt.
    pose proof (IH (length s') Hlt s' t0 r eq_refl Hk). lia. }
  destruct s as [|c s0]; [done|]. simpl in Hs.
  destruct (c =? 34)%N; [injection Hs as <- <-; simpl; lia|].
  destruct (c <? 32)%N; [done|].
  destruct (c =? 92)%N; [|by eapply Hemit; [exact Hs|reflexivity|simpl; lia]].
  destruct s0 as [|e r1]; [done|]. destruct (e =? 117)%N.
  2:{ destruct (simple_escape e); [|done].
      eapply Hemit; [exact Hs|reflexivity|simpl; lia]. }
  destruct r1 as [|h1 [|h2 [|h3 [|h4 r2]]]]; try done.
  destruct (hex4 h1 h2 h3 h4) as [hi|]; [|done].
  destruct (is_high hi);
    [|by eapply Hemit; [exact Hs|reflexivity|simpl; lia]].
  destruct r2 as [|b1 [|b2 [|l1 [|l2 [|l3 [|l4 r3]]]]]];
    try (eapply Hemit; [exact Hs|reflexivity|simpl; lia]).
  destruct ((b1 =? 92) && (b2 =? 117))%N;
    [|by eapply Hemit; [exact Hs|reflexivity|simpl; lia]].
  destruct (hex4 l1 l2 l3 l4) as [lo|]; [|done].
  destruct (is_low lo);
    (eapply Hemit; [exact Hs|reflexivity|simpl; lia]).
Qed.

Lemma take_digits_length s d r :
  take_digits s = (d, r) → length s = (length d + length r)%nat.
Proof.
  revert d r. induction s as [|c s IH]; intros d r; simpl.
  - by intros [= <- <-].
  - destruct (is_digit c); [|by intros [= <- <-]].
    destruct (take_digits s) as [d' r'] eqn:Hd. intros [= <- <-].
    simpl. by rewrite (IH d' r').
Qed.

Lemma strip_prefix_length p s r :
  strip_prefix p s = Some r → length s = (length p + length r)%nat.
Proof.
  unfold strip_prefix. destruct (is_prefix p s) eqn:Hp; [|done].
  intros [= <-]. revert s Hp. induction p as [|c p IH]; intros [|d s] Hp;
    simpl in *; try done.
  apply andb_true_iff in Hp as [_ Hp]. by rewrite (IH s Hp).
Qed.

Lemma scan_number_length s v r :
  scan_number s = Some (v, r) → (length r ≤ length s)%nat.
Proof.
  unfold scan_number.
  destruct (match s with [] => _ | _ => _ end) as [sign s1] eqn:H1.
  assert (length s1 ≤ length s)%nat as L1.
  { destruct s as [|c r0]; [by simplify_eq|].
    destruct (c =? 45)%N; simplify_eq; simpl; lia. }
  clear H1.
  destruct (match s1 with [] => _ | _ => _ end) as [ip s2] eqn:H2.
  assert (length s2 ≤ length s1)%nat as L2.
  { destruct s1 as [|c r0]; [by simplify_eq|].
    destruct (c =? 48)%N; [simplify_eq; simpl; lia|].
    destruct (take_digits (c :: r0)) as [d r'] eqn:Hd. simplify_eq.
    apply take_digits_length in Hd. lia. }
  clear H2. destruct ip as [|i0 ip]; [done|].
  destruct (match s2 with [] => _ | _ => _ end) as [frac s3] eqn:H3.
  assert (length s3 ≤ length s2)%nat as L3.
  { destruct s2 as [|c r0]; [by simplify_eq|].
    destruct (c =? 46)%N; [|by simplify_eq].
    destruct (take_digits r0) as [[|d0 d] r'] eqn:Hd; simplify_eq; [done|].
    apply take_digits_length in Hd. simpl in *. lia. }
  clear H3.
  destruct (match s3 with [] => _ | _ => _ end) as [ex s4] eqn:H4.
  assert (length s4 ≤ length s3)%nat as L4.
  { destruct s3 as [|c r0]; [by simplify_eq|].
    destruct ((c =? 101) || (c =? 69))%N; [|by simplify_eq].
    destruct (match r0 with [] => _ | _ => _ end) as [sg r1] eqn:H5.
    assert (length r1 ≤ length r0)%nat as L5.
    { destruct r0 as [|g r0']; [by simplify_eq|].
      destruct ((g =? 43) || (g =? 45))%N; simplify_eq; simpl; lia. }
    destruct (take_digits r1) as [[|d0 d] r'] eqn:Hd; simplify_eq; [done|].
    apply take_digits_length in Hd. simpl in *. lia. }
  clear H4.
  destruct frac, ex; [intros [= _ <-]; lia|..];
    (destruct (float_of_str _); [intros [= _ <-]; lia|done]).
Qed.

Lemma scan_constant_length s v r :
  scan_constant s = Some (v, r) → (length r ≤ length s)%nat.
Proof.
  unfold scan_constant.
  repeat (destruct (strip_prefix _ s) as [r0|] eqn:Hp;
          [apply strip_prefix_length in Hp;
           first [intros [= _ <-]; lia
                 |destruct (float_of_str _); [intros [= _ <-]; lia|done]]
          |clear Hp]).
  apply scan_number_length.
Qed.

(** What a scanner leaves unread is never longer than its input. *)
Lemma scan_lengths (fuel : nat) :
  (∀ s v r, scan_value fuel s = Some (v, r) → (length r ≤ length s)%nat) ∧
  (∀ s acc l r,
     scan_items fuel s acc = Some (l, r) → (length r ≤ length s)%nat) ∧
  (∀ s acc d r,
     scan_members fuel s acc = Some (d, r) → (length r ≤ length s)%nat).
Proof.
  induction fuel as [|f (IHv & IHi & IHm)]; [by split_and!|]. split_and!.
  - intros s v r. simpl. destruct s as [|c s0]; [done|].
    pose proof (skip_ws_length s0) as Hws.
    destruct (c =? 34)%N.
    { destruct (scan_string s0) as [[t r']|] eqn:Hs; [|done].
      intros [= _ <-]. apply scan_string_length in Hs. simpl. lia. }
    destruct (c =? 123)%N.
    { destruct (skip_ws s0) as [|c' r']; [done|].
      destruct (c' =? 125)%N; [intros [= _ <-]; simpl in *; lia|].
      destruct (scan_members f _ _) as [[d r'']|] eqn:Hm; [|done].
      intros [= _ <-]. apply IHm in Hm. simpl in *. lia. }
    destruct (c =? 91)%N.
    { destruct (skip_ws s0) as [|c' r']; [done|].
      destruct (c' =? 93)%N; [intros [= _ <-]; simpl in *; lia|].
      destruct (scan_items f _ _) as [[l r'']|] eqn:Hi; [|done].
      intros [= _ <-]. apply IHi in Hi. simpl in *. lia. }
    apply scan_constant_length.
  - intros s acc l r. simpl.
    destruct (scan_value f s) as [[v r0]|] eqn:Hv; [|done]. simpl.
    apply IHv in Hv. pose proof (skip_ws_length r0) as Hws.
    destruct (skip_ws r0) as [|c r']; [done|].
    destruct (c =? 93)%N; [intros [= _ <-]; simpl in *; lia|].
    destruct (c =? 44)%N; [|done]. intros Hi%IHi.
    pose proof (skip_ws_length r'). simpl in *. lia.
  - intros s acc d r. simpl. destruct s as [|c s0]; [done|].
    destruct (c =? 34)%N; [|done].
    destruct (scan_string s0) as [[k r1]|] eqn:Hs; [|done]. simpl.
    apply scan_string_length in Hs. pose proof (skip_ws_length r1) as Hws.
    destruct (skip_ws r1) as [|c1 r2]; [done|].
    destruct (c1 =? 58)%N; [|done].
    destruct (scan_value f _) as [[v r3]|] eqn:Hv; [|done]. simpl.
    apply IHv in Hv. pose proof (skip_ws_length r2).
    pose proof (skip_ws_length r3).
    destruct (skip_ws r3) as [|c2 r4]; [done|].
    destruct (c2 =? 125)%N; [intros [= _ <-]; simpl in *; lia|].
    destruct (c2 =? 44)%N; [|done]. intros Hm%IHm.
    pose proof (skip_ws_length r4). simpl in *. lia.
Qed.

(** Past twice the length of the input (plus one for a value, plus two for
    the rest of an array or object) more fuel changes nothing: where the
    decoder answers [None] the text is refused, it has not run out. *)
Lemma scan_fuel (n : nat) :
  ∀ s, (length s ≤ n)%nat →
    (∀ f g, (2 * length s + 1 ≤ f)%nat → (2 * length s + 1 ≤ g)%nat →
       scan_value f s = scan_value g s) ∧
    (∀ f g acc, (2 * length s + 2 ≤ f)%nat → (2 * length s + 2 ≤ g)%nat →
       scan_items f s acc = scan_items g s acc) ∧
    (∀ f g acc, (2 * length s + 2 ≤ f)%nat → (2 * length s + 2 ≤ g)%nat →
       scan_members f s acc = scan_members g s acc).
Proof.
  induction n as [n IH] using lt_wf_ind. intros s Hn.
  assert (∀ s', (length s' < length s)%nat →
     (∀ f g, (2 * length s' + 1 ≤ f)%nat → (2 * length s' + 1 ≤ g)%nat →
        scan_value f s' = scan_value g s') ∧
     (∀ f g acc, (2 * length s' + 2 ≤ f)%nat → (2 * length s' + 2 ≤ g)%nat →
        scan_items f s' acc = scan_items g s' acc) ∧
     (∀ f g acc, (2 * length s' + 2 ≤ f)%nat → (2 * length s' + 2 ≤ g)%nat →
        scan_members f s' acc = scan_members g s' acc)) as IHs.
  { intros s' Hlt. apply (IH (length s')); lia. }
  clear IH.
  assert (∀ f g, (2 * length s + 1 ≤ f)%nat → (2 * length s + 1 ≤ g)%nat →
            scan_value f s = scan_value g s) as Hvalue.
  { intros [|f] [|g] Hf Hg; [lia..|]. simpl.
    destruct s as [|c s0]; [done|]. pose proof (skip_ws_length s0) as Hws.
    destruct (c =? 34)%N; [done|].
    destruct (c =? 123)%N.
    { destruct (skip_ws s0) as [|c' r'] eqn:Hr; [done|].
      destruct (c' =? 125)%N; [done|].
      destruct (IHs (c' :: r')) as (_ & _ & Hm); [simpl in *; lia|].
      by rewrite (Hm f g) by (simpl in *; lia). }
    destruct (c =? 91)%N; [|done].
    destruct (skip_ws s0) as [|c' r'] eqn:Hr; [done|].
    destruct (c' =? 93)%N; [done|].
    destruct (IHs (c' :: r')) as (_ & Hi & _); [simpl in *; lia|].
    by rewrite (Hi f g) by (simpl in *; lia). }
  split_and!; [done|..].
  - intros [|f] [|g] acc Hf Hg; [lia..|]. simpl.
    rewrite (Hvalue f g) by lia.
    destruct (scan_value g s) as [[v r]|] eqn:Hv; [|done]. simpl.
    apply (scan_lengths g) in Hv. pose proof (skip_ws_length r) as Hws.
    destruct (skip_ws r) as [|c r']; [done|].
    destruct (c =? 93)%N; [done|]. destruct (c =? 44)%N; [|done].
    pose proof (skip_ws_length r').
    destruct (IHs (skip_ws r')) as (_ & Hi & _); [simpl in *; lia|].
    apply Hi; simpl in *; lia.
  - intros [|f] [|g] acc Hf Hg; [lia..|]. simpl.
    destruct s as [|c s0]; [done|]. destruct (c =? 34)%N; [|done].
    destruct (scan_string s0) as [[k r1]|] eqn:Hs; [|done]. simpl.
    apply scan_string_length in Hs. pose proof (skip_ws_length r1) as Hws.
    destruct (skip_ws r1) as [|c1 r2]; [done|].
    destruct (c1 =? 58)%N; [|done]. pose proof (skip_ws_length r2).
    destruct (IHs (skip_ws r2)) as (Hv & _ & _); [simpl in *; lia|].
    rewrite (Hv f g) by (simpl in *; lia). clear Hv.
    destruct (scan_value g _) as [[v r3]|] eqn:Hv; [|done]. simpl.
    apply (scan_lengths g) in Hv. pose proof (skip_ws_length r3).
    destruct (skip_ws r3) as [|c2 r4]; [done|].
    destruct (c2 =? 125)%N; [done|]. destruct (c2 =? 44)%N; [|done].
    pose proof (skip_ws_length r4).
    destruct (IHs (skip_ws r4)) as (_ & _ & Hm); [simpl in *; lia|].
    apply Hm; simpl in *; lia.
Qed.

(** The fuel [json_loads] hands to the decoder is enough for every text. *)
Theorem json_loads_fuel s (fuel : nat) :
  (2 * length s + 2 ≤ fuel)%nat →
  scan_value fuel (skip_ws s) = scan_value (2 * length s + 2) (skip_ws s).
Proof.
  intros Hf. pose proof (skip_ws_length s).
  destruct (scan_fuel (length (skip_ws s)) (skip_ws s)) as (Hv & _); [done|].
  apply Hv; lia.
Qed.

End JsonFuel.

(* ===================================================================== *)
(** * Dictionaries                                                         *)
(* ===================================================================== *)

Section Dict.
Context {K V : Type} `{EqDecision K}.
Implicit Types (d : list (K * V)).

Lemma dict_get_set_eq k v d : dict_get k (dict_set k v d) = Some v.
Proof.
  induction d as [|[k' v'] d IH]; simpl.
  - by rewrite decide_True.
  - destruct (decide (k = k')); simpl.
    + by rewrite decide_True.
    + by rewrite decide_False.
Qed.

Lemma dict_get_set_ne k k' v d :
  k ≠ k' → dict_get k' (dict_set k v d) = dict_get k' d.
Proof.
  intros Hne. induction d as [|[k0 v0] d IH]; simpl.
  - by rewrite decide_False.
  - destruct (decide (k = k0)) as [->|]; simpl.
    + by rewrite !decide_False.
    + by rewrite IH.
Qed.

(** Writing a batch of entries leaves every other key as it was. *)
Lemma dict_get_update_other k d (l : list (K * V)) :
  k ∉ map fst l →
  dict_get k (foldl (λ d kv, dict_set kv.1 kv.2 d) d l) = dict_get k d.
Proof.
  revert d. induction l as [|[k' v'] l IH]; intros d Hk; simpl; [done|].
  simpl in Hk. apply not_elem_of_cons in Hk as [Hne Hk].
  rewrite IH by done. by apply dict_get_set_ne.
Qed.
End Dict.

(* ===================================================================== *)
(** * The client on the reference store                                    *)
(* ===================================================================== *)

Ltac eval_eqb :=
  repeat match goal with
         | |- context [str_eqb ?x ?y] =>
             let v := eval vm_compute in (str_eqb x y) in
             change (str_eqb x y) with v
         end;
  cbv beta iota.

Section OnServer.
Context `{Float}.
Implicit Types (s : server) (key : str) (kb : bytes).

Lemma exchange_alive {A} c (f : list (bytes * rvalue) → reply A * _) s :
  alive s = true →
  exchange c f s = ((f (table s)).1, received c (f (table s)).2 s).
Proof. intros Ha. unfold exchange. by rewrite Ha. Qed.

Lemma exchange_down {A} c (f : list (bytes * rvalue) → reply A * _) s :
  alive s = false →
  exchange c f s = (Fail (T_ConnectionError "Connection refused"), s).
Proof. intros Ha. unfold exchange. by rewrite Ha. Qed.

Lemma decode_type_name (v : rvalue) :
  decode_bytes (type_name v) = type_name v.
Proof. by destruct v. Qed.

Lemma type_on_server s key kb :
  alive s = true → utf8_encode key = Some kb →
  type key s
  = (Ok (PyStr (stored_type (table s) kb)), received (TYPE kb) (table s) s).
Proof.
  intros Ha Hk. unfold type, wrapped, try_catch, bind, call; simpl.
  unfold encoded. rewrite Hk, exchange_alive by done. simpl.
  unfold ret, stored_type. destruct (dict_get kb (table s)) as [v|]; [|done].
  by rewrite decode_type_name.
Qed.

(** [_b2s] on the shapes of the replies. *)
Lemma b2s_bytes_list (l : list bytes) :
  _b2s (py_bytes_list l) = PyList (map PyStr (map decode_bytes l)).
Proof.
  unfold py_bytes_list. simpl. f_equal. by rewrite !map_map.
Qed.

Lemma b2s_bytes_dict (d : list (bytes * bytes)) :
  _b2s (py_bytes_dict d)
  = PyDict (dict_of_pairs
              (map (λ fv, (KeyStr (decode_bytes fv.1), PyStr (decode_bytes fv.2)))
                 d)).
Proof.
  unfold py_bytes_dict. simpl. do 2 f_equal. by rewrite map_map.
Qed.

Lemma py_sorted_strings (l : list str) :
  py_sorted (PyList (map PyStr l)) = PyList (map PyStr (sorted l)).
Proof.
  unfold py_sorted. do 3 f_equal. rewrite map_map. apply map_id.
Qed.

(** The first steps of [get_value] on a live server: the type is asked for
    and comes back as text. *)
Lemma get_value_type s key kb (k : pyval → M server ValueRecord) :
  alive s = true → utf8_encode key = Some kb →
  wrapped
    (let* t := type key in
     let* t := match t with
               | PyBytes v =>
                   of_option (PyStr <$> utf8_decode false v) UnicodeDecodeError
               | _ => ret t
               end in
     k t) s
  = wrapped (k (PyStr (stored_type (table s) kb)))
      (received (TYPE kb) (table s) s).
Proof.
  intros Ha Hk. unfold wrapped, try_catch, bind.
  by rewrite (type_on_server s key kb).
Qed.

Lemma get_value_set s key kb m max_items :
  alive s = true → utf8_encode key = Some kb →
  dict_get kb (table s) = Some (RSet m) →
  (get_value key max_items s).1
  = Ok {| vr_type := PyStr (txt "set"); vr_key := key;
          vr_value := PyList (map PyStr (sorted (map decode_bytes m))) |}.
Proof.
  intros Ha Hk Hm. unfold get_value.
  rewrite (get_value_type s key kb) by done.
  unfold stored_type. rewrite Hm.
  change (type_name (RSet m)) with (txt "set"). cbn [py_eq]. eval_eqb.
  unfold wrapped, try_catch, bind, call, t_smembers, server_transport, encoded.
  rewrite Hk. rewrite exchange_alive by done. cbv beta iota. simpl table.
  rewrite Hm. cbn -[_b2s py_sorted py_bytes_list sorted].
  by rewrite b2s_bytes_list, py_sorted_strings.
Qed.

Lemma get_value_string s key kb v max_items :
  alive s = true → utf8_encode key = Some kb →
  dict_get kb (table s) = Some (RString v) →
  get_value key max_items s
  = (Ok {| vr_type := PyStr (txt "string"); vr_key := key;
           vr_value := match json_loads (decode_bytes v) with
                       | Some parsed => py_of_json parsed
                       | None => PyStr (decode_bytes v)
                       end |},
     received (GET kb) (table s) (received (TYPE kb) (table s) s)).
Proof.
  intros Ha Hk Hm. unfold get_value.
  rewrite (get_value_type s key kb) by done.
  unfold stored_type. rewrite Hm.
  change (type_name (RString v)) with (txt "string"). cbn [py_eq]. eval_eqb.
  unfold wrapped, try_catch, bind, call, t_get, server_transport, encoded.
  rewrite Hk. rewrite exchange_alive by done. cbv beta iota. simpl table.
  rewrite Hm. simpl. by destruct (json_loads (decode_bytes v)).
Qed.

Lemma get_value_hash s key kb h max_items :
  alive s = true → utf8_encode key = Some kb →
  dict_get kb (table s) = Some (RHash h) →
  (get_value key max_items s).1
  = Ok {| vr_type := PyStr (txt "hash"); vr_key := key;
          vr_value := _b2s (py_bytes_dict h) |}.
Proof.
  intros Ha Hk Hm. unfold get_value.
  rewrite (get_value_type s key kb) by done.
  unfold stored_type. rewrite Hm.
  change (type_name (RHash h)) with (txt "hash"). cbn [py_eq]. eval_eqb.
  unfold wrapped, try_catch, bind, call, t_hgetall, server_transport, encoded.
  rewrite Hk. rewrite exchange_alive by done. cbv beta iota. simpl table.
  by rewrite Hm.
Qed.
End OnServer.

(* ===================================================================== *)
(** * UTF-8: strict decoding is inverted by encoding                       *)
(* ===================================================================== *)

Ltac bool_to_prop :=
  unfold is_cont, between, is_surrogate in *;
  repeat match goal with
         | H : _ && _ = true |- _ => apply andb_true_iff in H as [? ?]
         | H : (_ <=? _)%N = true |- _ => apply N.leb_le in H
         | H : (_ <=? _)%N = false |- _ => apply N.leb_gt in H
         | H : (_ <? _)%N = true |- _ => apply N.ltb_lt in H
         | H : (_ <? _)%N = false |- _ => apply N.ltb_ge in H
         | H : (_ =? _)%N = true |- _ => apply N.eqb_eq in H
         | H : (_ =? _)%N = false |- _ => apply N.eqb_neq in H
         end.

Lemma div_split (m hi lo : N) : (lo < m)%N → ((hi * m + lo) / m = hi)%N.
Proof.
  intros Hlo. rewrite N.div_add_l by lia. rewrite N.div_small by done. lia.
Qed.

Lemma mod_split (m hi lo : N) : (lo < m)%N → ((hi * m + lo) mod m = lo)%N.
Proof.
  intros Hlo. rewrite N.add_comm, N.Div0.mod_add. by apply N.mod_small.
Qed.

Lemma cp2_parts (x0 x1 : N) :
  (x1 < 64)%N →
  let c := (x0 * 64 + x1)%N in (c / 64 = x0 ∧ c mod 64 = x1)%N.
Proof. intros H1 c. subst c. by rewrite div_split, mod_split. Qed.

Lemma cp3_parts (x0 x1 x2 : N) :
  (x1 < 64)%N → (x2 < 64)%N →
  let c := (x0 * 4096 + x1 * 64 + x2)%N in
  (c / 4096 = x0 ∧ (c / 64) mod 64 = x1 ∧ c mod 64 = x2)%N.
Proof.
  intros H1 H2 c. subst c. split_and!.
  - rewrite <- N.add_assoc. apply div_split. lia.
  - replace (x0 * 4096 + x1 * 64 + x2)%N with ((x0 * 64 + x1) * 64 + x2)%N by lia.
    by rewrite div_split, mod_split.
  - replace (x0 * 4096 + x1 * 64 + x2)%N with ((x0 * 64 + x1) * 64 + x2)%N by lia.
    by rewrite mod_split.
Qed.

Lemma cp4_parts (x0 x1 x2 x3 : N) :
  (x1 < 64)%N → (x2 < 64)%N → (x3 < 64)%N →
  let c := (x0 * 262144 + x1 * 4096 + x2 * 64 + x3)%N in
  (c / 262144 = x0 ∧ (c / 4096) mod 64 = x1 ∧ (c / 64) mod 64 = x2
   ∧ c mod 64 = x3)%N.
Proof.
  intros H1 H2 H3 c. subst c. split_and!.
  - rewrite <- !N.add_assoc. apply div_split. lia.
  - replace (x0 * 262144 + x1 * 4096 + x2 * 64 + x3)%N
      with ((x0 * 64 + x1) * 4096 + (x2 * 64 + x3))%N by lia.
    rewrite div_split by lia. by rewrite mod_split.
  - replace (x0 * 262144 + x1 * 4096 + x2 * 64 + x3)%N
      with (((x0 * 64 + x1) * 64 + x2) * 64 + x3)%N by lia.
    by rewrite div_split, mod_split.
  - replace (x0 * 262144 + x1 * 4096 + x2 * 64 + x3)%N
      with (((x0 * 64 + x1) * 64 + x2) * 64 + x3)%N by lia.
    by rewrite mod_split.
Qed.

Lemma encode_cp_1 (b0 : N) :
  (b0 <? 128)%N = true → utf8_encode_cp b0 = Some [b0].
Proof. intros H0. unfold utf8_encode_cp. by rewrite H0. Qed.

Lemma encode_cp_2 (b0 b1 : N) :
  between 194 223 b0 = true → is_cont b1 = true →
  utf8_encode_cp ((b0 - 192) * 64 + (b1 - 128)) = Some [b0; b1].
Proof.
  intros H0 H1. bool_to_prop. unfold utf8_encode_cp.
  destruct (cp2_parts (b0 - 192) (b1 - 128)) as [Hd Hm]; [lia|].
  rewrite Hd, Hm.
  destruct (N.ltb_spec ((b0 - 192) * 64 + (b1 - 128)) 128); [exfalso; lia|].
  destruct (N.ltb_spec ((b0 - 192) * 64 + (b1 - 128)) 2048); [|exfalso; lia].
  do 2 f_equal; [lia|f_equal; lia].
Qed.

Lemma encode_cp_3 (b0 b1 b2 : N) :
  between 224 239 b0 = true → second_ok b0 b1 = true → is_cont b2 = true →
  utf8_encode_cp ((b0 - 224) * 4096 + (b1 - 128) * 64 + (b2 - 128))
  = Some [b0; b1; b2].
Proof.
  intros H0 H1 H2. unfold second_ok in H1.
  assert (is_cont b1 = true ∧ (b0 = 224 → 160 ≤ b1) ∧ (b0 = 237 → b1 ≤ 159))%N
    as (Hc & Hlo & Hhi).
  { repeat match type of H1 with
           | (if ?c then _ else _) = true => destruct c eqn:?
           end; bool_to_prop; split_and!; try lia;
      apply andb_true_iff; split; (apply N.leb_le; lia). }
  clear H1. bool_to_prop. unfold utf8_encode_cp.
  destruct (cp3_parts (b0 - 224) (b1 - 128) (b2 - 128)) as (Hd & Hm1 & Hm0);
    [lia..|].
  rewrite Hd, Hm1, Hm0.
  set (c := ((b0 - 224) * 4096 + (b1 - 128) * 64 + (b2 - 128))%N).
  assert (2048 ≤ c ∧ c < 65536 ∧ ¬ (55296 ≤ c ∧ c ≤ 57343))%N
    as (Hc1 & Hc2 & Hs) by (subst c; lia).
  destruct (N.ltb_spec c 128); [exfalso; lia|].
  destruct (N.ltb_spec c 2048); [exfalso; lia|].
  destruct (N.ltb_spec c 65536); [|exfalso; lia].
  assert (is_surrogate c = false) as ->.
  { unfold is_surrogate. apply andb_false_iff.
    destruct (N.leb_spec 55296 c); [right; apply N.leb_gt; lia | by left]. }
  do 2 f_equal; try lia; f_equal; try lia; f_equal; lia.
Qed.

Lemma encode_cp_4 (b0 b1 b2 b3 : N) :
  between 240 244 b0 = true → second_ok b0 b1 = true →
  is_cont b2 = true → is_cont b3 = true →
  utf8_encode_cp ((b0 - 240) * 262144 + (b1 - 128) * 4096
                  + (b2 - 128) * 64 + (b3 - 128))
  = Some [b0; b1; b2; b3].
Proof.
  intros H0 H1 H2 H3. unfold second_ok in H1.
  assert (is_cont b1 = true ∧ (b0 = 240 → 144 ≤ b1) ∧ (b0 = 244 → b1 ≤ 143))%N
    as (Hc & Hlo & Hhi).
  { repeat match type of H1 with
           | (if ?c then _ else _) = true => destruct c eqn:?
           end; bool_to_prop; split_and!; try lia;
      apply andb_true_iff; split; (apply N.leb_le; lia). }
  clear H1. bool_to_prop. unfold utf8_encode_cp.
  destruct (cp4_parts (b0 - 240) (b1 - 128) (b2 - 128) (b3 - 128))
    as (Hd & Hm2 & Hm1 & Hm0); [lia..|].
  rewrite Hd, Hm2, Hm1, Hm0.
  set (c := ((b0 - 240) * 262144 + (b1 - 128) * 4096
             + (b2 - 128) * 64 + (b3 - 128))%N).
  assert (65536 ≤ c ∧ c < 1114112)%N as (Hc1 & Hc2) by (subst c; lia).
  destruct (N.ltb_spec c 128); [exfalso; lia|].
  destruct (N.ltb_spec c 2048); [exfalso; lia|].
  destruct (N.ltb_spec c 65536); [exfalso; lia|].
  destruct (N.ltb_spec c 1114112); [|exfalso; lia].
  do 2 f_equal; try lia; f_equal; try lia; f_equal; try lia; f_equal; lia.
Qed.

Lemma fmap_cons_Some (c : N) (o : option str) (s : str) :
  cons c <$> o = Some s → ∃ s', s = c :: s' ∧ o = Some s'.
Proof. destruct o as [s'|]; simpl; [|done]. intros [= <-]. eauto. Qed.

(** Re-encoding what the strict decoder accepted gives back the octets. *)
Lemma utf8_decode_encode (x : bytes) (s : str) :
  utf8_decode false x = Some s → utf8_encode s = Some x.
Proof.
  remember (length x) as n eqn:Hn. revert x s Hn.
  induction n as [n IH] using lt_wf_ind. intros x s Hn Hd.
  assert (∀ (pre : bytes) (c : N) (r : bytes) (o : option str),
            x = pre ++ r → pre ≠ [] → utf8_encode_cp c = Some pre →
            o = utf8_decode false r → cons c <$> o = Some s →
            utf8_encode s = Some x) as Hstep.
  { intros pre c r o -> Hpre Hc -> (s' & -> & Hr)%fmap_cons_Some.
    simpl. rewrite Hc.
    rewrite (IH (length r)) with (x := r) (s := s'); [done| |done..].
    subst n. rewrite length_app. destruct pre; [done|]. simpl. lia. }
  destruct x as [|b0 r0]; simpl in Hd; [by injection Hd as <-|].
  destruct (b0 <? 128)%N eqn:H1.
  { eapply (Hstep [b0]); eauto using encode_cp_1. }
  destruct (between 194 223 b0) eqn:H2.
  { destruct r0 as [|b1 r1]; [done|]. destruct (is_cont b1) eqn:?; [|done].
    eapply (Hstep [b0; b1]); eauto using encode_cp_2. }
  destruct (between 224 239 b0) eqn:H3.
  { destruct r0 as [|b1 r1]; [done|]. destruct (second_ok b0 b1) eqn:?; [|done].
    destruct r1 as [|b2 r2]; [done|]. destruct (is_cont b2) eqn:?; [|done].
    eapply (Hstep [b0; b1; b2]); eauto using encode_cp_3. }
  destruct (between 240 244 b0) eqn:H4; [|done].
  destruct r0 as [|b1 r1]; [done|]. destruct (second_ok b0 b1) eqn:?; [|done].
  destruct r1 as [|b2 r2]; [done|]. destruct (is_cont b2) eqn:?; [|done].
  destruct r2 as [|b3 r3]; [done|]. destruct (is_cont b3) eqn:?; [|done].
  eapply (Hstep [b0; b1; b2; b3]); eauto using encode_cp_4.
Qed.

Lemma utf8_decode_strict_inj (x y : bytes) (s : str) :
  utf8_decode false x = Some s → utf8_decode false y = Some s → x = y.
Proof.
  intros Hx%utf8_decode_encode Hy%utf8_decode_encode. congruence.
Qed.

Lemma decode_bytes_valid (x : bytes) :
  valid_utf8 x → utf8_decode false x = Some (decode_bytes x).
Proof. intros [s Hs]. unfold decode_bytes. by rewrite Hs. Qed.

Lemma decode_bytes_inj (x y : bytes) :
  valid_utf8 x → valid_utf8 y → decode_bytes x = decode_bytes y → x = y.
Proof.
  intros Hx%decode_bytes_valid Hy%decode_bytes_valid Heq.
  rewrite Heq in Hx. eauto using utf8_decode_strict_inj.
Qed.

Lemma encode_decode_bytes (x : bytes) :
  valid_utf8 x → utf8_encode (decode_bytes x) = Some x.
Proof. intros Hx%decode_bytes_valid. by apply utf8_decode_encode. Qed.

Section OnServer2.
Context `{Float}.
Implicit Types (s : server) (key : str) (kb : bytes).

Lemma received_alive c t s : alive (received c t s) = alive s.
Proof. done. Qed.

Lemma received_table c t s : table (received c t s) = t.
Proof. done. Qed.

Lemma received_log c t s : log (received c t s) = log s ++ [c].
Proof. done. Qed.

(** [set_value] on a hash: one [HSET], on top of whatever hash is there. *)
Lemma set_value_hash_on_server s key kb text d fv h :
  alive s = true → utf8_encode key = Some kb →
  json_loads text = Some (JObj d) → d ≠ [] →
  mapM encode_field (map (λ kv, (kv.1, to_text kv.2)) d) = Some fv →
  (dict_get kb (table s) = Some (RHash h)
   ∨ dict_get kb (table s) = None ∧ h = []) →
  set_value key text (txt "hash") s
  = (Ok {| acknowledged := true; operation := txt "HSET"; sr_key := key;
           sr_fields := Some (len d); sr_length := None |},
     received (HSET kb fv)
       (dict_set kb (RHash (hash_update h fv)) (table s)) s).
Proof.
  intros Ha Hk Hj Hd Hfv Hh. unfold set_value, wrapped, try_catch, bind.
  eval_eqb. unfold loads. rewrite Hj. simpl of_option. unfold ret at 1.
  unfold call, t_hset, server_transport, encoded. rewrite Hk.
  destruct d as [|kv d']; [done|]. rewrite map_cons.
  rewrite map_cons in Hfv. rewrite Hfv.
  rewrite exchange_alive by done.
  destruct Hh as [Hh|[Hh ->]]; rewrite Hh; done.
Qed.
End OnServer2.

(* ===================================================================== *)
(** * [set_value]: validation comes before any command                    *)
(* ===================================================================== *)

Section Validation.
Context `{Float} `{!Transport St}.
Implicit Types (s : St) (e : exn).


Lemma call_no_fuel {A} (op : St → reply A * St) s s' :
  call op s ≠ (OutOfFuel, s').
Proof. unfold call. by destruct (op s) as [[a|te] s0]. Qed.

Lemma wrapped_raises {A} (m : M St A) s s' e :
  wrapped m s = (Raise e, s') →
  ∃ e', e = SimpleRedisClientError e' ∧ m s = (Raise e', s').
Proof.
  unfold wrapped, try_catch, raise.
  destruct (m s) as [[a|e0|] s0]; intros [= <- <-]; eauto.
Qed.

Lemma of_option_pure {A} (o : option A) e s : (of_option o e s).2 = s.
Proof. by destruct o. Qed.

Lemma py_float_pure (v : json) s : (py_float v s).2 = s.
Proof. destruct v; simpl; try done; apply of_option_pure. Qed.

Lemma unpack_pair_pure (item : json) s : (unpack_pair item s).2 = s.
Proof.
  destruct item as [| | | |t|l|d]; simpl; try done.
  - by destruct t as [|? [|? [|? ?]]].
  - by destruct l as [|? [|? [|? ?]]].
  - by destruct d as [|[? ?] [|[? ?] [|? ?]]].
Qed.

Lemma bind_pure {A B} (m : M St A) (k : A → M St B) s :
  (m s).2 = s → (∀ a, (k a s).2 = s) → (bind m k s).2 = s.
Proof.
  intros Hm Hk. unfold bind. destruct (m s) as [[a|e|] s0]; simpl in *;
    subst; auto.
Qed.

Lemma zset_pair_pure (item : json) pairs s : (zset_pair item pairs s).2 = s.
Proof.
  unfold zset_pair. destruct item;
    try (apply bind_pure; [apply unpack_pair_pure|];
         intros [m sc]; apply bind_pure; [apply py_float_pure|done]).
  apply bind_pure; [apply py_float_pure|done].
Qed.

Lemma for_each_pure {A B} (f : A → B → M St B) (l : list A) acc s :
  (∀ x a, (f x a s).2 = s) → (for_each l f acc s).2 = s.
Proof.
  intros Hf. revert acc. induction l as [|x l IH]; intros acc; simpl; [done|].
  apply bind_pure; auto.
Qed.

End Validation.

Section Validation2.
Context `{Float} `{!Transport St}.
Implicit Types (s : St) (e : exn).




(** An unknown kind is refused before anything is sent. *)
Lemma set_value_unknown_kind (key text kind : str) s :
  lower kind ∉ [txt "string"; txt "hash"; txt "list"; txt "set"; txt "zset"] →
  set_value key text kind s
  = (Raise (SimpleRedisClientError (ValueError "Unsupported type")), s).
Proof.
  intros Hk. rewrite !not_elem_of_cons in Hk.
  destruct Hk as (H1 & H2 & H3 & H4 & H5 & _).
  unfold set_value, wrapped, try_catch, str_eqb.
  by rewrite !bool_decide_eq_false_2 by done.
Qed.

(** Text that is not JSON is refused before anything is sent, for every
    kind but [string]. *)
Lemma set_value_not_json (key text kind : str) s :
  lower kind ∈ [txt "hash"; txt "list"; txt "set"; txt "zset"] →
  json_loads text = None →
  set_value key text kind s = (Raise (SimpleRedisClientError JSONDecodeError), s).
Proof.
  intros Hk Hj. unfold set_value, wrapped, try_catch, bind, loads.
  rewrite Hj. simpl.
  repeat (apply elem_of_cons in Hk as [->|Hk]; [by eval_eqb|]).
  by apply elem_of_nil in Hk.
Qed.
(** Each item of a sorted-set array contributes one pair. *)
Lemma for_each_zset_pair_length (l : list json) acc pairs s s' :
  for_each l zset_pair acc s = (Ok pairs, s') →
  length pairs = (length acc + length l)%nat.
Proof.
  revert acc s. induction l as [|item l IH]; intros acc s; simpl.
  - intros [= <- _]. lia.
  - unfold bind at 1.
    destruct (zset_pair item acc s) as [[acc'| |] s0] eqn:Hp; [|done..].
    intros ->%IH. enough (length acc' = S (length acc)) by lia.
    clear IH. unfold zset_pair in Hp.
    assert (∀ (m : M St float) (mb : str) r s1 s2,
              bind m (λ sc, ret (acc ++ [(mb, sc)])) s1 = (Ok r, s2) →
              length r = S (length acc)) as Hlast.
    { intros m mb r s1 s2. unfold bind, ret.
      destruct (m s1) as [[sc| |] s3]; [|done..]. intros [= <- _].
      rewrite length_app. simpl. lia. }
    destruct item; try exact (Hlast _ _ _ _ _ Hp);
      unfold bind at 1 in Hp;
      destruct (unpack_pair _ s) as [[[m sc]| |] ?]; try done;
      exact (Hlast _ _ _ _ _ Hp).
Qed.
End Validation2.

Section Codec.
Context `{Float}.
Implicit Types (s : server) (key : str) (kb : bytes).

(** C9. For a key holding a string, [get_value] fetches the raw text (one
    [TYPE], one [GET]) and tries to parse it as JSON: the payload is the
    parsed value when the text parses, the raw text itself otherwise. *)
Theorem get_value_string_json s key kb v max_items :
  alive s = true → utf8_encode key = Some kb →
  dict_get kb (table s) = Some (RString v) →
  get_value key max_items s
  = (Ok {| vr_type := PyStr (txt "string"); vr_key := key;
           vr_value := match json_loads (decode_bytes v) with
                       | Some parsed => py_of_json parsed
                       | None => PyStr (decode_bytes v)
                       end |},
     received (GET kb) (table s) (received (TYPE kb) (table s) s)).
Proof. apply get_value_string. Qed.

(** C7 (as amended). For a key holding a set, [get_value] returns the
    decoded members sorted by code point, and the same list whatever order
    the members are held in; the strings are pairwise distinct when the
    members are valid UTF-8. *)
Theorem get_value_set_sorted s key kb m max_items :
  alive s = true → utf8_encode key = Some kb →
  dict_get kb (table s) = Some (RSet m) →
  ∃ l,
    (get_value key max_items s).1
    = Ok {| vr_type := PyStr (txt "set"); vr_key := key;
            vr_value := PyList (map PyStr l) |}
    ∧ StronglySorted str_le l
    ∧ l ≡ₚ map decode_bytes m
    ∧ (∀ s' m', alive s' = true → dict_get kb (table s') = Some (RSet m') →
                m' ≡ₚ m →
                (get_value key max_items s').1 = (get_value key max_items s).1)
    ∧ (Forall valid_utf8 m → NoDup m → NoDup l).
Proof.
  intros Ha Hk Hm. exists (sorted (map decode_bytes m)). split_and!.
  - by apply get_value_set with kb.
  - apply sorted_Sorted.
  - apply sorted_Permutation.
  - intros s' m' Ha' Hm' Hp.
    rewrite (get_value_set s' key kb m'), (get_value_set s key kb m) by done.
    do 4 f_equal. apply sorted_order_irrelevant. by rewrite Hp.
  - intros Hv Hnd. rewrite sorted_Permutation.
    apply NoDup_fmap_2_strong; [|done].
    intros x y Hx Hy. rewrite Forall_forall in Hv.
    apply decode_bytes_inj; auto.
Qed.

(** C5. For a key absent from the store, storing the text
    [{"a":1,"b":[1,2]}] as a hash and reading the key back gives the mapping
    of [a] to [1] and of [b] to [[1, 2]]: the nested array is stored as its
    JSON text, the number as its string form. *)
Theorem hash_round_trip s max_items :
  alive s = true → dict_get (raw "h1") (table s) = None →
  ∃ s',
    set_value (txt "h1") (quoted "{'a':1,'b':[1,2]}") (txt "hash") s
    = (Ok {| acknowledged := true; operation := txt "HSET";
             sr_key := txt "h1"; sr_fields := Some 2; sr_length := None |}, s')
    ∧ (get_value (txt "h1") max_items s').1
      = Ok {| vr_type := PyStr (txt "hash"); vr_key := txt "h1";
              vr_value := PyDict [(KeyStr (txt "a"), PyStr (txt "1"));
                                  (KeyStr (txt "b"), PyStr (txt "[1, 2]"))] |}.
Proof.
  intros Ha Hm.
  set (d := [(txt "a", JInt 1); (txt "b", JArr [JInt 1; JInt 2])]).
  set (fv := [(raw "a", raw "1"); (raw "b", raw "[1, 2]")]).
  exists (received (HSET (raw "h1") fv)
            (dict_set (raw "h1") (RHash (hash_update [] fv)) (table s)) s).
  split.
  - apply (set_value_hash_on_server s (txt "h1") (raw "h1") _ d fv []);
      try done; by right.
  - rewrite (get_value_hash _ (txt "h1") (raw "h1") (hash_update [] fv));
      [by vm_compute|done|done|].
    rewrite received_table. apply dict_get_set_eq.
Qed.
End Codec.

(* ===================================================================== *)
(** * [set_value]: a hash is updated in place, the other kinds replaced    *)
(* ===================================================================== *)

Section Replace.
Context `{Float}.
Implicit Types (s : server) (key : str) (kb : bytes).

Lemma dict_get_pop_eq {K V} `{EqDecision K} (k : K) (d : list (K * V)) :
  dict_get k (dict_pop k d) = None.
Proof.
  unfold dict_pop. induction d as [|[k' v'] d IH]; [done|].
  rewrite filter_cons. simpl. destruct (decide (k' ≠ k)) as [Hne|Heq]; [|done].
  simpl. by rewrite decide_False.
Qed.

Lemma mapM_encode_field_keys (mapping : list (str * str)) fv f :
  mapM encode_field mapping = Some fv → f ∈ map fst fv →
  ∃ k, k ∈ map fst mapping ∧ utf8_encode k = Some f.
Proof.
  rewrite mapM_Some. intros Hall. induction Hall as [|[k v] [f' v'] m' fv' Hx _ IH];
    simpl; [by intros ?%elem_of_nil|].
  intros [->|Hin]%elem_of_cons.
  - exists k. split; [left|]. unfold encode_field in Hx. simpl in Hx.
    destruct (utf8_encode k); [|done]. simpl in Hx.
    destruct (utf8_encode v); [|done]. by injection Hx as -> _.
  - destruct (IH Hin) as (k' & ? & ?). exists k'. split; [by right|done].
Qed.

(** Every state [set_value] can leave behind for the kind [hash]. *)
Lemma set_value_hash_states s key kb text :
  alive s = true → utf8_encode key = Some kb →
  (set_value key text (txt "hash") s).2 = s
  ∨ ∃ d fv, json_loads text = Some (JObj d)
            ∧ mapM encode_field (map (λ kv, (kv.1, to_text kv.2)) d) = Some fv
            ∧ (set_value key text (txt "hash") s).2
              = received (HSET kb fv)
                  (match dict_get kb (table s) with
                   | Some (RHash h) =>
                       dict_set kb (RHash (hash_update h fv)) (table s)
                   | Some _ => table s
                   | None => dict_set kb (RHash (hash_update [] fv)) (table s)
                   end) s.
Proof.
  intros Ha Hk. unfold set_value, wrapped, try_catch, bind. eval_eqb.
  unfold loads. destruct (json_loads text) as [v|]; simpl; [|by left].
  destruct v; simpl; try by left.
  unfold call, t_hset, server_transport, encoded. rewrite Hk.
  destruct (mapM encode_field _) as [fv|] eqn:Hfv.
  2:{ left. by destruct d. }
  destruct d as [|kv d']; [by left|].
  right. exists (kv :: d'), fv. split_and!; [done..|].
  rewrite map_cons. rewrite exchange_alive by done.
  destruct (dict_get kb (table s)) as [[]|]; done.
Qed.

(** What the replace-then-add of the other kinds sends first. *)
Lemma delete_first {A} s key kb (add : server → reply A * server) :
  alive s = true → utf8_encode key = Some kb →
  (∀ s0, ∃ rest, log (add s0).2 = log s0 ++ rest) →
  ∃ rest,
    log ((let* _ := call (t_delete key) in call add) s).2
    = log s ++ DEL kb :: rest.
Proof.
  intros Ha Hk Hadd. unfold bind, call at 1, t_delete, server_transport, encoded.
  rewrite Hk, exchange_alive by done. simpl.
  destruct (Hadd (received (DEL kb) (dict_pop kb (table s)) s)) as [rest Hr].
  exists rest. unfold call.
  destruct (add _) as [[a|e] s1]; simpl in *; rewrite Hr, <- app_assoc; done.
Qed.

Lemma exchange_log {A} c (f : list (bytes * rvalue) → reply A * _) s :
  ∃ rest, log (exchange c f s).2 = log s ++ rest.
Proof.
  unfold exchange. destruct (alive s); simpl; [by eexists|].
  exists []. by rewrite app_nil_r.
Qed.

Lemma add_log s0 key (add : list str → server → reply Z * server) values :
  add = t_rpush key ∨ add = t_sadd key →
  ∃ rest, log (add values s0).2 = log s0 ++ rest.
Proof.
  intros [-> | ->]; unfold t_rpush, t_sadd, server_transport, encoded,
    encoded_list;
    (destruct (utf8_encode key); [|exists []; by rewrite app_nil_r]);
    (destruct (mapM utf8_encode values); [|exists []; by rewrite app_nil_r]);
    apply exchange_log.
Qed.

Lemma zadd_log s0 key (mapping : list (str * float)) :
  ∃ rest, log (t_zadd key mapping s0).2 = log s0 ++ rest.
Proof.
  unfold t_zadd, server_transport, encoded.
  destruct (utf8_encode key); [|exists []; by rewrite app_nil_r].
  destruct mapping; [exists []; by rewrite app_nil_r|].
  destruct (mapM encode_pair _); [|exists []; by rewrite app_nil_r].
  apply exchange_log.
Qed.

(** C10. For the kind [hash], [set_value] sends at most one command, an
    [HSET] of the parsed fields, and never deletes the key: a field of an
    existing hash that the caller's JSON object does not name is still there
    with its value after the call. The kinds [list], [set] and [zset], on a
    non-empty input, send [DEL] for the key first. *)
Theorem set_value_hash_keeps_fields s key kb text :
  alive s = true → utf8_encode key = Some kb →
  let s' := (set_value key text (txt "hash") s).2 in
  (s' = s ∨ ∃ fv t', s' = received (HSET kb fv) t' s)
  ∧ (∀ h f v,
       dict_get kb (table s) = Some (RHash h) → dict_get f h = Some v →
       (∀ d k, json_loads text = Some (JObj d) → k ∈ map fst d →
               utf8_encode k ≠ Some f) →
       ∃ h', dict_get kb (table s') = Some (RHash h') ∧ dict_get f h' = Some v)
  ∧ (∀ l kind,
       json_loads text = Some (JArr l) → l ≠ [] →
       kind ∈ [txt "list"; txt "set"] →
       ∃ rest, log (set_value key text kind s).2 = log s ++ DEL kb :: rest)
  ∧ (∀ l pairs,
       json_loads text = Some (JArr l) → l ≠ [] →
       (for_each l zset_pair [] s).1 = Ok pairs →
       ∃ rest,
         log (set_value key text (txt "zset") s).2 = log s ++ DEL kb :: rest).
Proof.
  intros Ha Hk s'. split_and!.
  - destruct (set_value_hash_states s key kb text Ha Hk)
      as [Hs|(d & fv & _ & _ & Hs)]; [by left|right]. eauto.
  - intros h f v Hh Hf Hnew.
    destruct (set_value_hash_states s key kb text Ha Hk)
      as [Hs|(d & fv & Hj & Hfv & Hs)]; subst s'; rewrite Hs.
    { eauto. }
    rewrite Hh, received_table, dict_get_set_eq. eexists. split; [done|].
    unfold hash_update. rewrite dict_get_update_other; [done|].
    intros (k & Hin & Henc)%(mapM_encode_field_keys _ _ _ Hfv).
    apply (Hnew d k); [done| |done].
    by rewrite map_map in Hin.
  - intros l kind Hj Hl Hkind.
    unfold set_value, wrapped, try_catch, bind at 1, loads. rewrite Hj.
    simpl of_option. unfold ret at 1.
    destruct l as [|x l]; [done|].
    assert (∀ (op : string) (add : list str → server → reply Z * server),
              add = t_rpush key ∨ add = t_sadd key →
              ∃ rest,
                log (let '(r0, s0) :=
                       bind (bind (call (t_delete key))
                               (λ _, call (add (map to_text (x :: l)))))
                         (λ _, ret {| acknowledged := true; operation := txt op;
                                      sr_key := key; sr_fields := None;
                                      sr_length := Some (len (x :: l)) |}) s in
                     match r0 with
                     | Ok a => (Ok a, s0)
                     | Raise e => raise (SimpleRedisClientError e) s0
                     | OutOfFuel => (OutOfFuel, s0)
                     end).2 = log s ++ DEL kb :: rest) as Hgen.
    { intros op add Hadd.
      destruct (delete_first s key kb (add (map to_text (x :: l))) Ha Hk)
        as [rest Hrest]; [intros s0; by apply (add_log s0 key)|].
      exists rest. rewrite <- Hrest. unfold bind at 1.
      by destruct (bind _ _ s) as [[?| |] ?]. }
    apply elem_of_cons in Hkind as [->|Hkind].
    { eval_eqb. apply (Hgen "RPUSH"%string). by left. }
    apply elem_of_cons in Hkind as [->|Hkind]; [|by apply elem_of_nil in Hkind].
    eval_eqb. apply (Hgen "SADD"%string). by right.
  - intros l pairs Hj Hl Hpairs.
    unfold set_value, wrapped, try_catch. eval_eqb.
    unfold bind at 1, loads. rewrite Hj.
    simpl of_option. unfold ret at 1. unfold bind at 1.
    pose proof (for_each_pure zset_pair l [] s
                  (λ x a, zset_pair_pure x a s)) as Hpure.
    destruct (for_each l zset_pair [] s) as [r s0] eqn:Hrun.
    simpl in Hpure, Hpairs. subst r s0.
    apply for_each_zset_pair_length in Hrun.
    destruct pairs as [|p pairs]; [destruct l; [done|simpl in Hrun; lia]|].
    destruct (delete_first s key kb (t_zadd key (dict_of_pairs (p :: pairs)))
                Ha Hk) as [rest Hrest]; [intros s0; apply zadd_log|].
    exists rest. rewrite <- Hrest. unfold bind at 1.
    by destruct (bind _ _ s) as [[?| |] ?].
Qed.
End Replace.

(* ===================================================================== *)
(** * The connection factory                                               *)
(* ===================================================================== *)

Section Factory.
Context `{Float}.
Implicit Types (redis : redis_module) (p : Profile) (kw : kwargs).

(** The attempts are tried in order and the first accepted one wins; when
    all are refused the last refusal is raised. *)
Lemma first_accepted_find redis (l : list kwargs) (last_err : option exn) :
  Forall (unsupported redis) l →
  first_accepted redis l last_err
  = match find (accepted redis) l with
    | Some k => Ok k
    | None =>
        match last (omap (ConnectionPool redis) l), last_err with
        | Some e, _ | None, Some e => Raise e
        | None, None =>
            Raise (TypeError "exceptions must derive from BaseException")
        end
    end.
Proof.
  intros Hall. revert last_err.
  induction Hall as [|a l Ha Hl IH]; intros last_err; simpl.
  { by destruct last_err. }
  unfold accepted at 1. destruct (ConnectionPool redis a) as [e|] eqn:Hp; [|done].
  rewrite (Ha e Hp), IH. destruct (find _ l); [done|].
  change (list_omap _ _ (ConnectionPool redis) l)
    with (omap (ConnectionPool redis) l).
  destruct (omap (ConnectionPool redis) l) as [|e' l']; [done|].
  change (last (e :: e' :: l')) with (last (e' :: l')).
  by destruct (proj2 (last_is_Some (e' :: l'))) as [x ->].
Qed.

Lemma attempts_modern kw :
  attempts kw false
  = [kw; dict_pop "username"%string kw; dict_pop "ssl_context"%string kw;
     dict_pop "ssl_cert_reqs"%string kw; dict_pop "ssl"%string kw].
Proof. done. Qed.

Lemma attempts_legacy kw :
  attempts kw true
  = let kc := dict_set "connection_class"%string KSSLConnection kw in
    [kc; dict_pop "username"%string kc; dict_pop "ssl_context"%string kc;
     dict_pop "ssl_cert_reqs"%string kc].
Proof. done. Qed.

Lemma find_none_last redis (l : list kwargs) a :
  find (accepted redis) (l ++ [a]) = None →
  ∃ te, ConnectionPool redis a = Some te
        ∧ last (omap (ConnectionPool redis) (l ++ [a])) = Some te.
Proof.
  intros Hf. destruct (ConnectionPool redis a) as [te|] eqn:Ha.
  - exists te. split; [done|]. rewrite omap_app. simpl. rewrite Ha. simpl.
    by rewrite last_snoc.
  - apply find_none with (x := a) in Hf; [|apply in_app_iff; right; by left].
    unfold accepted in Hf. by rewrite Ha in Hf.
Qed.
End Factory.

Section Factory2.
Context `{Float}.
Implicit Types (redis : redis_module) (p : Profile) (kw : kwargs).

(** A boolean test for [unsupported], to run on examples. *)
Lemma forallb_unsupported redis (l : list kwargs) :
  forallb (λ a, match ConnectionPool redis a with
                | Some e => is_TypeError e
                | None => true
                end) l = true →
  Forall (unsupported redis) l.
Proof.
  induction l as [|a l IH]; simpl; [constructor|].
  intros [Ha Hl]%andb_true_iff. constructor; [|by apply IH].
  intros e He. by rewrite He in Ha.
Qed.

Lemma try_pool_find redis kw (use_ssl_conn : bool) :
  Forall (unsupported redis) (attempts kw use_ssl_conn) →
  _try_pool redis kw use_ssl_conn
  = if use_ssl_conn && negb (SSLConnection redis) then
      Raise (SimpleRedisClientError
               (Message "This redis-py version does not support SSLConnection."))
    else
      match find (accepted redis) (attempts kw use_ssl_conn) with
      | Some k => Ok k
      | None =>
          match last (omap (ConnectionPool redis) (attempts kw use_ssl_conn)) with
          | Some e => Raise e
          | None => Raise (TypeError "exceptions must derive from BaseException")
          end
      end.
Proof.
  intros Hall. unfold _try_pool. destruct (use_ssl_conn && _); [done|].
  rewrite first_accepted_find by done. by repeat case_match.
Qed.

(** The attempts as the code makes them. The factory tries the full
    parameter set, then the full
    set without the user name, without the TLS context, without the
    certificate requirement, without the TLS flag, each drop applied to the
    full set alone, and builds the pool from the first set the transport
    accepts. When all five are refused, TLS is requested and the last
    refusal mentions ssl, it tries the same sets (but for the last) with the
    legacy TLS connection class added. When every attempt is refused as an
    unsupported parameter, the constructor raises [SimpleRedisClientError]. *)
Theorem init_attempt_order redis p :
  let kw := base_kwargs p in
  let kc := dict_set "connection_class"%string KSSLConnection kw in
  let modern :=
    [kw; dict_pop "username"%string kw; dict_pop "ssl_context"%string kw;
     dict_pop "ssl_cert_reqs"%string kw; dict_pop "ssl"%string kw] in
  let legacy :=
    [kc; dict_pop "username"%string kc; dict_pop "ssl_context"%string kc;
     dict_pop "ssl_cert_reqs"%string kc] in
  Forall (unsupported redis) (modern ++ legacy) →
  match find (accepted redis) modern with
  | Some k => __init__ (Some redis) p = Ok {| pool := k |}
  | None =>
      ∃ te, ConnectionPool redis (dict_pop "ssl"%string kw) = Some te ∧
        if use_ssl p && (mentions "ssl" te || mentions "ssl_context" te) then
          if SSLConnection redis then
            match find (accepted redis) legacy with
            | Some k => __init__ (Some redis) p = Ok {| pool := k |}
            | None => ∃ e, __init__ (Some redis) p = Raise (SimpleRedisClientError e)
            end
          else ∃ e, __init__ (Some redis) p = Raise (SimpleRedisClientError e)
        else __init__ (Some redis) p = Raise (SimpleRedisClientError te)
  end.
Proof.
  intros kw kc modern legacy [Hm Hl]%Forall_app.
  unfold __init__. fold kw.
  rewrite !(try_pool_find redis kw false), (try_pool_find redis kw true)
    by done.
  simpl andb. cbv iota.
  change (attempts kw false) with modern. change (attempts kw true) with legacy.
  destruct (find (accepted redis) modern) as [k|] eqn:Hfind; [done|].
  destruct (find_none_last redis
              [kw; dict_pop "username"%string kw; dict_pop "ssl_context"%string kw;
               dict_pop "ssl_cert_reqs"%string kw]
              (dict_pop "ssl"%string kw) Hfind) as (te & Hte & Hlast).
  exists te. split; [done|].
  change (last (omap (ConnectionPool redis) modern) = Some te) in Hlast.
  rewrite Hlast.
  assert (is_TypeError te = true) as ->.
  { rewrite Forall_forall in Hm. apply (Hm (dict_pop "ssl"%string kw)); [|done].
    unfold modern. rewrite !elem_of_cons. tauto. }
  destruct (use_ssl p && _); [|done].
  destruct (SSLConnection redis); cbn [andb negb]; cbv iota; [|by eexists].
  destruct (find (accepted redis) legacy); [done|].
  destruct (last (omap (ConnectionPool redis) legacy)); eexists; reflexivity.
Qed.
End Factory2.

Section Liveness.
Context `{Float} `{!Transport St}.
Implicit Types (s : St).

Lemma first_accepted_fuel redis l last_err :
  first_accepted redis l last_err ≠ OutOfFuel.
Proof.
  revert last_err. induction l as [|a l IH]; intros last_err; simpl.
  - by destruct last_err.
  - destruct (ConnectionPool redis a) as [e|]; [|done].
    by destruct (is_TypeError e).
Qed.

Lemma init_fuel redis p : __init__ redis p ≠ OutOfFuel.
Proof.
  destruct redis as [redis|]; [|done]. unfold __init__.
  assert (∀ kw c, _try_pool redis kw c ≠ OutOfFuel) as Hno.
  { intros kw c. unfold _try_pool. destruct (c && _); [done|].
    apply first_accepted_fuel. }
  destruct (_try_pool redis (base_kwargs p) false) as [k|te|] eqn:H1;
    [done| |by apply Hno in H1].
  destruct (is_TypeError te); [|done].
  destruct (use_ssl p && _); [|done].
  destruct (_try_pool redis (base_kwargs p) true) as [k|te'|] eqn:H2;
    [done|done|by apply Hno in H2].
Qed.

Lemma init_raises redis p e :
  __init__ redis p = Raise e → ∃ e', e = SimpleRedisClientError e'.
Proof.
  destruct redis as [redis|]; simpl; [|intros [= <-]; eauto].
  destruct (match _try_pool redis (base_kwargs p) false with
            | Raise te => _ | r => r end); intros [= <-]; eauto.
Qed.

(** C2 (as amended). The constructor builds the pool without a round trip;
    liveness is checked by the ping the caller sends right after
    construction: [ping] raises [SimpleRedisClientError] when the round trip
    fails, and [_get_client] hands out no client unless the ping answered
    true. *)
Theorem get_client_checks_liveness redis p s :
  (∀ s', t_ping s ≠ (Reply true, s')) →
  (_get_client redis p s).1 = Ok None
  ∧ (∀ te s', t_ping s = (Fail te, s') →
              ping s = (Raise (SimpleRedisClientError (FromTransport te)), s')).
Proof.
  intros Hping. split.
  - unfold _get_client, try_catch, bind, ping, wrapped, try_catch, call.
    pose proof (init_fuel redis p) as Hfuel.
    destruct (__init__ redis p) as [c|e|] eqn:Hinit; [| |done].
    + destruct (t_ping s) as [[[]|te] s'] eqn:Hp; simpl; try done.
      by destruct (Hping s').
    + by apply init_raises in Hinit as [e' ->].
  - intros te s' Hp. unfold ping, wrapped, try_catch, call. by rewrite Hp.
Qed.
End Liveness.

(* ===================================================================== *)
(** * Key scanning on the reference store                                  *)
(* ===================================================================== *)

Section Scanning.
Context `{Float}.
Implicit Types (s : server) (pb : bytes) (ty : option bytes) (c : Z).

Lemma scanned_nil pb count ty s : scanned pb count ty [] s = s.
Proof. destruct s. unfold scanned. simpl. by rewrite app_nil_r. Qed.

Lemma scanned_cons pb count ty c cs s :
  scanned pb count ty (c :: cs) s
  = scanned pb count ty cs (received (SCAN c pb count ty) (table s) s).
Proof. unfold scanned, received. simpl. by rewrite <- app_assoc. Qed.

Lemma scan_call_on_server s pattern pb type_filter ty count c :
  alive s = true → utf8_encode pattern = Some pb →
  native_type s type_filter ty → 0 < count → 0 ≤ c →
  scan_call c pattern type_filter count s
  = (Ok (store_reply (table s) pb count ty c),
     received (SCAN c pb count ty) (table s) s).
Proof.
  intros Ha Hp Hty Hcount Hc.
  unfold scan_call, call, t_scan, server_transport, native_type in *.
  assert (scan_reply c pb count ty (table s)
          = Reply (store_reply (table s) pb count ty c)) as Hrep.
  { unfold store_reply, scan_reply.
    destruct (Z.ltb_spec count 1), (Z.ltb_spec c 0); try lia. done. }
  destruct (filtering type_filter).
  - destruct Hty as (Hkw & tb & Htb & ->).
    destruct type_filter as [tf|]; [|done]. simpl in Htb.
    rewrite Hkw. unfold encoded. rewrite Hp, Htb.
    rewrite exchange_alive by done. simpl. by rewrite Hrep.
  - subst ty. unfold encoded. rewrite Hp.
    rewrite exchange_alive by done. simpl. by rewrite Hrep.
Qed.

Lemma store_reply_cursor t pb count ty c :
  0 < count → 0 ≤ c →
  (store_reply t pb count ty c).1
  = if c + count <? Z.of_nat (length t) then c + count else 0.
Proof.
  intros Hcount Hc. unfold store_reply, scan_reply.
  by destruct (Z.ltb_spec count 1), (Z.ltb_spec c 0); try lia.
Qed.

(** The loop of [scan_with_cursor] performs a page walk and stops within
    one call per table slot left. *)
Lemma cursor_loop_on_server s pattern pb type_filter ty count :
  alive s = true → utf8_encode pattern = Some pb →
  native_type s type_filter ty → 0 < count →
  ∀ (n : nat) pre c keys,
    0 ≤ c → (Z.of_nat (length (table s)) - c ≤ Z.of_nat n) →
    ∃ cs keys' nc,
      page_run (store_reply (table s) pb count ty) count c keys cs keys' nc
      ∧ (length cs ≤ S n)%nat
      ∧ ∀ fuel, (n < fuel)%nat →
          cursor_loop pattern type_filter count fuel c keys
            (scanned pb count ty pre s)
          = (Ok (keys', nc), scanned pb count ty (pre ++ cs) s).
Proof.
  intros Ha Hp Hty Hcount n.
  assert (∀ (pre : list Z) c keys fuel P,
            len keys < count → 0 ≤ c →
            (let r := store_reply (table s) pb count ty c in
             (if r.1 =? 0 then ret (keys ++ map decode_bytes r.2, r.1)
              else cursor_loop pattern type_filter count fuel r.1
                     (keys ++ map decode_bytes r.2))
               (scanned pb count ty (pre ++ [c]) s) = P) →
            cursor_loop pattern type_filter count (S fuel) c keys
              (scanned pb count ty pre s) = P) as Hstep.
  { intros pre c keys fuel P Hlt Hc HP. simpl.
    destruct (Z.ltb_spec (len keys) count); [|lia].
    unfold bind. rewrite (scan_call_on_server _ _ pb _ ty) by done.
    destruct (store_reply _ _ _ _ c) as [c' batch] eqn:Hr. simpl in HP.
    replace (received _ _ _) with (scanned pb count ty (pre ++ [c]) s); [done|].
    unfold scanned, received. simpl. by rewrite map_app, app_assoc. }
  assert (∀ pre c keys fuel, count ≤ len keys →
            cursor_loop pattern type_filter count fuel c keys
              (scanned pb count ty pre s)
            = (Ok (keys, c), scanned pb count ty (pre ++ []) s)) as Hstop.
  { intros pre c keys fuel Hge. rewrite app_nil_r.
    destruct fuel; simpl; destruct (Z.ltb_spec (len keys) count); try lia; done. }
  induction n as [|n IH]; intros pre c keys Hc Hn;
    (destruct (Z.ltb_spec (len keys) count) as [Hlt|Hge];
     [|exists [], keys, c; split_and!;
       [by apply run_enough|simpl; lia|intros; by apply Hstop]]);
    destruct (store_reply (table s) pb count ty c) as [c' batch] eqn:Hr;
    pose proof (store_reply_cursor (table s) pb count ty c Hcount Hc) as Hc';
    rewrite Hr in Hc'; simpl in Hc'.
  - assert (c' = 0) as ->.
    { destruct (Z.ltb_spec (c + count) (Z.of_nat (length (table s)))); lia. }
    exists [c], (keys ++ map decode_bytes batch), 0. split_and!.
    + by apply run_last.
    + simpl. lia.
    + intros [|fuel] Hf; [lia|]. apply Hstep; [done..|]. by rewrite Hr.
  - destruct (Z.eq_dec c' 0) as [->|Hne].
    + exists [c], (keys ++ map decode_bytes batch), 0. split_and!.
      * by apply run_last.
      * simpl. lia.
      * intros [|fuel] Hf; [lia|]. apply Hstep; [done..|]. by rewrite Hr.
    + destruct (IH (pre ++ [c]) c' (keys ++ map decode_bytes batch))
        as (cs & keys' & nc & Hrun & Hlen & Hloop).
      { destruct (Z.ltb_spec (c + count) (Z.of_nat (length (table s)))); lia. }
      { destruct (Z.ltb_spec (c + count) (Z.of_nat (length (table s)))); lia. }
      exists (c :: cs), keys', nc. split_and!.
      * by eapply run_next.
      * simpl. lia.
      * intros [|fuel] Hf; [lia|]. apply Hstep; [done..|].
        rewrite Hr. simpl. destruct (Z.eqb_spec c' 0); [done|].
        rewrite Hloop by lia. by rewrite <- app_assoc.
Qed.

(** A walk that leaves a cursor other than [0] has gathered [count] keys. *)
Lemma page_run_full reply_at count c keys cs keys' nc :
  page_run reply_at count c keys cs keys' nc → nc ≠ 0 ∨ cs = [] →
  count ≤ len keys'.
Proof.
  induction 1 as [c keys Hge|c keys batch Hlt Hr|c keys c' batch cs keys' nc
                    Hlt Hr Hne Hrun IH]; intros [Hnc|Hcs]; try done.
  - by apply IH; left.
Qed.

(** The keys gathered are those of the batches, in the order of the calls,
    and the calls start at the given cursor. *)
Lemma page_run_keys reply_at count c keys cs keys' nc :
  page_run reply_at count c keys cs keys' nc →
  keys' = keys ++ concat (map (λ c, map decode_bytes (reply_at c).2) cs)
  ∧ (len keys < count → head cs = Some c).
Proof.
  induction 1 as [c keys Hge|c keys batch Hlt Hr|c keys c' batch cs keys' nc
                    Hlt Hr Hne Hrun [IH _]]; simpl.
  - rewrite app_nil_r. split; [done|lia].
  - by rewrite Hr, app_nil_r.
  - rewrite Hr. simpl. by rewrite IH, <- app_assoc.
Qed.

(** On the reference store, whose cursors are positions in the table: for
    a positive [count] and a starting cursor, [scan_with_cursor] issues scan
    calls from that cursor on, each resumed at the cursor the store
    returned, and gathers the keys until [count] of them are there or the
    store answers cursor [0]; the walk ends within one call per table
    slot. *)
Theorem scan_with_cursor_page s pattern pb type_filter ty count cursor :
  alive s = true → utf8_encode pattern = Some pb →
  native_type s type_filter ty → 0 < count → 0 ≤ cursor →
  ∃ cs keys nc,
    page_run (store_reply (table s) pb count ty) count cursor [] cs keys nc
    ∧ head cs = Some cursor
    ∧ (∀ fuel, (length (table s) < fuel)%nat →
         scan_with_cursor pattern type_filter count fuel cursor s
         = (Ok (take (Z.to_nat count) keys, nc),
            scanned pb count ty cs s))
    ∧ len (take (Z.to_nat count) keys) ≤ count
    ∧ (nc ≠ 0 → len (take (Z.to_nat count) keys) = count)
    ∧ (nc = 0 ∨ count ≤ len keys).
Proof.
  intros Ha Hp Hty Hcount Hc.
  destruct (cursor_loop_on_server s pattern pb type_filter ty count Ha Hp Hty
              Hcount (length (table s)) [] cursor [] Hc)
    as (cs & keys & nc & Hrun & Hlen & Hloop); [lia|].
  exists cs, keys, nc. split_and!; [done|..].
  - apply (page_run_keys _ _ _ _ _ _ _ Hrun). unfold len. simpl. lia.
  - intros fuel Hf. unfold scan_with_cursor, try_catch, bind.
    rewrite <- (scanned_nil pb count ty s) at 1.
    rewrite Hloop by done. simpl. unfold ret, slice_to.
    by destruct (Z.leb_spec 0 count); [|lia].
  - unfold len. rewrite length_take. lia.
  - intros Hnc. pose proof (page_run_full _ _ _ _ _ _ _ Hrun (or_introl Hnc)).
    unfold len in *. rewrite length_take. lia.
  - destruct (Z.eq_dec nc 0); [by left|right].
    by apply (page_run_full _ _ _ _ _ _ _ Hrun); left.
Qed.
End Scanning.

(* ===================================================================== *)
(** * Key scanning on a store with opaque cursors                          *)
(* ===================================================================== *)

Section Walk.
Context `{Float}.
Implicit Types (st : pager) (cs : list Z) (c : Z).

Lemma asked_more_nil st : asked_more [] st = st.
Proof. destruct st. unfold asked_more. simpl. by rewrite app_nil_r. Qed.

Lemma asked_more_app calls calls' st :
  asked_more calls' (asked_more calls st) = asked_more (calls ++ calls') st.
Proof. unfold asked_more. simpl. by rewrite app_assoc. Qed.

(** The loop of [scan_with_cursor] on a store with opaque cursors: it
    makes the calls of the page walk, one after the other, each at the
    cursor the store returned. *)
Lemma cursor_loop_walk st pattern type_filter count c keys cs keys' nc :
  page_run (page_at st pattern count (passed_type type_filter)) count
    c keys cs keys' nc →
  ∀ fuel, (length cs ≤ fuel)%nat →
    cursor_loop pattern type_filter count fuel c keys st
    = (Ok (keys', nc),
       asked_more (scan_calls pattern count (passed_type type_filter) cs) st).
Proof.
  intros Hrun.
  remember (page_at st pattern count (passed_type type_filter)) as reply_at
    eqn:Hreply.
  revert st Hreply.
  induction Hrun as [c keys Hge|c keys batch Hlt Hr|c keys c' batch cs keys' nc
                       Hlt Hr Hne Hrun IH]; intros st Hreply fuel Hfuel.
  - rewrite asked_more_nil.
    destruct fuel; simpl; destruct (Z.ltb_spec (len keys) count); try lia; done.
  - destruct fuel as [|fuel]; [simpl in Hfuel; lia|]. simpl.
    destruct (Z.ltb_spec (len keys) count); [|lia].
    unfold bind, scan_call, call. simpl. fold (passed_type type_filter).
    rewrite <- Hreply, Hr. done.
  - destruct fuel as [|fuel]; [simpl in Hfuel; lia|]. simpl.
    destruct (Z.ltb_spec (len keys) count); [|lia].
    unfold bind, scan_call, call. simpl. fold (passed_type type_filter).
    rewrite <- Hreply, Hr. destruct (Z.eqb_spec c' 0); [done|].
    rewrite IH; [|done|simpl in Hfuel; lia].
    by rewrite asked_more_app.
Qed.

(** C8. On a store with opaque cursors, for a positive [count] and any
    starting cursor, [scan_with_cursor] issues scan calls from that cursor
    on, each at the cursor the store returned for the one before, with the
    pattern, the count and the type it was given, and gathers the keys
    until [count] of them are there or the store answers cursor [0]. It
    returns at most [count] keys with the cursor of the last answer, and
    nothing but these calls reaches the store; a page is short only when
    that cursor is [0], so exhaustion shows in [next_cursor == 0] alone. *)
Theorem scan_with_cursor_walk st pattern type_filter count cursor cs keys nc :
  0 < count →
  page_run (page_at st pattern count (passed_type type_filter)) count
    cursor [] cs keys nc →
  head cs = Some cursor
  ∧ (∀ fuel, (length cs ≤ fuel)%nat →
       scan_with_cursor pattern type_filter count fuel cursor st
       = (Ok (take (Z.to_nat count) keys, nc),
          asked_more (scan_calls pattern count (passed_type type_filter) cs)
            st))
  ∧ len (take (Z.to_nat count) keys) ≤ count
  ∧ (nc ≠ 0 → len (take (Z.to_nat count) keys) = count)
  ∧ (nc = 0 ∨ count ≤ len keys).
Proof.
  intros Hcount Hrun. split_and!.
  - apply (page_run_keys _ _ _ _ _ _ _ Hrun). unfold len. simpl. lia.
  - intros fuel Hfuel. unfold scan_with_cursor, try_catch, bind.
    rewrite (cursor_loop_walk _ _ _ _ _ _ _ _ _ Hrun) by done.
    simpl. unfold ret, slice_to.
    by destruct (Z.leb_spec 0 count); [|lia].
  - unfold len. rewrite length_take. lia.
  - intros Hnc. pose proof (page_run_full _ _ _ _ _ _ _ Hrun (or_introl Hnc)).
    unfold len in *. rewrite length_take. lia.
  - destruct (Z.eq_dec nc 0); [by left|right].
    by apply (page_run_full _ _ _ _ _ _ _ Hrun); left.
Qed.
End Walk.

(* ===================================================================== *)
(** * The fallback of [scan_with_cursor] agrees with its native path       *)
(* ===================================================================== *)

Section Fallback.
Context `{Float}.
Implicit Types (s : server) (pb : bytes) (ty : option bytes) (c : Z).

Lemma page_run_det reply_at count c keys cs1 k1 n1 cs2 k2 n2 :
  page_run reply_at count c keys cs1 k1 n1 →
  page_run reply_at count c keys cs2 k2 n2 →
  k1 = k2 ∧ n1 = n2.
Proof.
  intros Hrun. revert cs2 k2 n2.
  induction Hrun as [c keys Hge|c keys batch Hlt Hr|c keys c' batch cs keys' nc
                       Hlt Hr Hne Hrun IH]; intros cs2 k2 n2 Hrun2.
  - inversion Hrun2; subst; [done|lia..].
  - inversion Hrun2 as [|? ? batch2 Hlt2 Hr2|? ? c2 batch2 ? ? ? Hlt2 Hr2 Hne2 Hrun'];
      subst; [lia| |]; rewrite Hr in Hr2.
    + by injection Hr2 as <-.
    + by injection Hr2 as <- <-.
  - inversion Hrun2 as [|? ? batch2 Hlt2 Hr2|? ? c2 batch2 ? ? ? Hlt2 Hr2 Hne2 Hrun'];
      subst; [lia| |]; rewrite Hr in Hr2.
    + by injection Hr2 as -> <-.
    + injection Hr2 as <- <-. by apply IH in Hrun'.
Qed.

Lemma type_check_on_server s (tf k : str) kb keys :
  alive s = true → utf8_encode k = Some kb →
  type_check tf k keys s
  = (Ok (if str_eqb (stored_type (table s) kb) tf then keys ++ [k] else keys),
     received (TYPE kb) (table s) s).
Proof.
  intros Ha Hk. unfold type_check, try_catch, bind.
  by rewrite (type_on_server s k kb).
Qed.

(** The per-key check of the fallback keeps the keys whose stored type is
    the filter. *)
Lemma type_checks_on_server s (tf : str) (batch : list bytes) keys :
  alive s = true → Forall valid_utf8 batch →
  ∃ s',
    for_each (map decode_bytes batch) (type_check tf) keys s
    = (Ok (keys ++ map decode_bytes
                     (filter (λ k, stored_type (table s) k = tf) batch)), s')
    ∧ same_store s s'.
Proof.
  intros Ha Hv. revert keys s Ha.
  induction Hv as [|k batch Hk Hv IH]; intros keys s Ha; simpl.
  { exists s. by rewrite app_nil_r. }
  unfold bind.
  rewrite (type_check_on_server s tf _ k) by auto using encode_decode_bytes.
  destruct (IH (if str_eqb (stored_type (table s) k) tf
                then keys ++ [decode_bytes k] else keys)
              (received (TYPE k) (table s) s) Ha) as (s' & Hrun & Hsame).
  exists s'. split; [|done]. rewrite Hrun. rewrite filter_cons. simpl table.
  unfold str_eqb. destruct (decide (stored_type (table s) k = tf)) as [Heq|Hne].
  - rewrite bool_decide_eq_true_2 by done. simpl. by rewrite <- app_assoc.
  - by rewrite bool_decide_eq_false_2 by done.
Qed.

Lemma dict_get_NoDup {V} (t : list (bytes * V)) k v :
  NoDup (map fst t) → (k, v) ∈ t → dict_get k t = Some v.
Proof.
  induction t as [|[k' v'] t IH]; simpl; [by intros _ ?%elem_of_nil|].
  intros [Hnotin Hnd]%NoDup_cons [[= -> ->]|Hin]%elem_of_cons.
  - by rewrite decide_True.
  - rewrite decide_False; [by apply IH|].
    intros ->. apply Hnotin. apply list_elem_of_fmap. by exists (k', v).
Qed.

(** On a key space with distinct keys, checking the stored type of the keys
    of an unfiltered batch selects what the store's own filter selects. *)
Lemma fallback_batch t pb (tf : str) (w : list (bytes * rvalue)) :
  NoDup (map fst t) → w ⊆ t → lower tf = tf →
  filter (λ k, stored_type t k = tf)
    (map fst (filter (λ kv, glob pb kv.1 && type_matches None kv.2) w))
  = map fst (filter (λ kv, glob pb kv.1 && type_matches (Some tf) kv.2) w).
Proof.
  intros Hnd Hsub Hlow. cbn [type_matches]. rewrite Hlow.
  induction w as [|[k v] w IH]; [done|].
  assert (stored_type t k = type_name v) as Hty.
  { unfold stored_type. rewrite (dict_get_NoDup t k v); [done..|].
    apply Hsub. by left. }
  assert (w ⊆ t) as Hw by (intros x Hx; apply Hsub; by right).
  specialize (IH Hw). rewrite !filter_cons. cbn [fst snd].
  destruct (glob pb k); cbn [andb];
    destruct (decide (tf = type_name v)) as [Heq|Hne];
    rewrite ?(bool_decide_eq_true_2 _ Heq), ?(bool_decide_eq_false_2 _ Hne);
    repeat case_decide; try done; cbn [map fst]; rewrite ?filter_cons, ?Hty;
    repeat case_decide; try done; try congruence; by rewrite IH.
Qed.

Lemma store_reply_eq t pb count ty c :
  0 < count → 0 ≤ c →
  store_reply t pb count ty c
  = (if c + count <? Z.of_nat (length t) then c + count else 0,
     map fst (filter (λ kv, glob pb kv.1 && type_matches ty kv.2)
                (take (Z.to_nat count) (drop (Z.to_nat c) t)))).
Proof.
  intros Hcount Hc. unfold store_reply, scan_reply.
  by destruct (Z.ltb_spec count 1), (Z.ltb_spec c 0); try lia.
Qed.

Lemma fallback_loop_S `{!Transport St} pattern type_filter count fuel c keys :
  fallback_loop (St := St) pattern type_filter count (S fuel) c keys
  = if len keys <? count then
      let* '(next_cursor', batch) := scan_call c pattern None count in
      let batch_keys := map decode_bytes batch in
      let* keys' := (if filtering type_filter
                     then for_each batch_keys
                            (type_check (default [] type_filter)) keys
                     else ret (keys ++ batch_keys)) in
      if next_cursor' =? 0 then ret (keys', next_cursor')
      else fallback_loop pattern type_filter count fuel next_cursor' keys'
    else ret (keys, c).
Proof. done. Qed.

(** The loop of the fallback performs the page walk of the native path. *)
Lemma fallback_loop_on_server s pattern pb (tf : str) count :
  alive s = true → utf8_encode pattern = Some pb →
  filtering (Some tf) = true → lower tf = tf →
  NoDup (map fst (table s)) → Forall valid_utf8 (map fst (table s)) →
  0 < count →
  ∀ (n : nat) s0 c keys,
    same_store s s0 → 0 ≤ c →
    (Z.of_nat (length (table s)) - c ≤ Z.of_nat n) →
    ∃ cs keys' nc,
      page_run (store_reply (table s) pb count (Some tf)) count c keys cs keys' nc
      ∧ ∀ fuel, (n < fuel)%nat →
          ∃ s1, fallback_loop pattern (Some tf) count fuel c keys s0
                = (Ok (keys', nc), s1)
                ∧ same_store s s1.
Proof.
  intros Ha Hp Hf Hlow Hnd Hv Hcount.
  assert (∀ s0 c keys fuel,
            same_store s s0 → len keys < count → 0 ≤ c →
            ∃ s1, same_store s s1 ∧
              fallback_loop pattern (Some tf) count (S fuel) c keys s0
              = (let r := store_reply (table s) pb count (Some tf) c in
                 if r.1 =? 0 then ret (keys ++ map decode_bytes r.2, r.1)
                 else fallback_loop pattern (Some tf) count fuel r.1
                        (keys ++ map decode_bytes r.2)) s1) as Hstep.
  { intros s0 c keys fuel (Ha0 & Ht0) Hlt Hc. rewrite fallback_loop_S.
    destruct (Z.ltb_spec (len keys) count); [|lia].
    unfold bind at 1.
    rewrite (scan_call_on_server s0 pattern pb None None) by (done || congruence).
    rewrite Ht0, store_reply_eq by done. cbn [fst snd]. rewrite Hf.
    unfold bind at 1.
    set (w := take (Z.to_nat count) (drop (Z.to_nat c) (table s))).
    assert (w ⊆ table s) as Hw.
    { unfold w. etrans; [apply subseteq_take|apply subseteq_drop]. }
    destruct (type_checks_on_server
                (received (SCAN c pb count None) (table s) s0) tf
                (map fst (filter (λ kv, glob pb kv.1 && type_matches None kv.2) w))
                keys) as (s1 & Hrun & Ha1 & Ht1).
    { simpl. congruence. }
    { rewrite Forall_forall in Hv |- *. intros k Hk. apply Hv.
      apply list_elem_of_fmap in Hk as ([k' v] & -> & Hin).
      apply list_elem_of_filter in Hin as [_ Hin].
      apply list_elem_of_fmap. exists (k', v). split; [done|]. by apply Hw. }
    simpl default. rewrite Hrun.
    change (table (received (SCAN c pb count None) (table s) s0))
      with (table s).
    rewrite (fallback_batch (table s) pb tf w) by done.
    exists s1. split.
    { split_and!; simpl in *; congruence. }
    rewrite store_reply_eq by done. done. }
  intros n. induction n as [|n IH]; intros s0 c keys Hs0 Hc Hn;
    (destruct (Z.ltb_spec (len keys) count) as [Hlt|Hge];
     [|exists [], keys, c; split; [by apply run_enough|];
       intros fuel _; exists s0; split; [|done];
       destruct fuel; simpl; destruct (Z.ltb_spec (len keys) count);
       try lia; done]);
    destruct (store_reply (table s) pb count (Some tf) c) as [c' batch] eqn:Hr;
    pose proof (store_reply_cursor (table s) pb count (Some tf) c Hcount Hc)
      as Hc'; rewrite Hr in Hc'; simpl in Hc'.
  - assert (c' = 0) as ->.
    { destruct (Z.ltb_spec (c + count) (Z.of_nat (length (table s)))); lia. }
    exists [c], (keys ++ map decode_bytes batch), 0. split; [by apply run_last|].
    intros [|fuel] Hfuel; [lia|].
    destruct (Hstep s0 c keys fuel Hs0 Hlt Hc) as (s1 & Hs1 & ->).
    rewrite Hr. by exists s1.
  - destruct (Z.eq_dec c' 0) as [->|Hne].
    + exists [c], (keys ++ map decode_bytes batch), 0.
      split; [by apply run_last|].
      intros [|fuel] Hfuel; [lia|].
      destruct (Hstep s0 c keys fuel Hs0 Hlt Hc) as (s1 & Hs1 & ->).
      rewrite Hr. by exists s1.
    + assert (0 ≤ c' ∧ Z.of_nat (length (table s)) - c' ≤ Z.of_nat n) as [? ?].
      { destruct (Z.ltb_spec (c + count) (Z.of_nat (length (table s)))); lia. }
      assert (∀ s1, same_store s s1 →
                ∃ cs keys' nc,
                  page_run (store_reply (table s) pb count (Some tf)) count c'
                    (keys ++ map decode_bytes batch) cs keys' nc
                  ∧ ∀ fuel, (n < fuel)%nat →
                      ∃ s2, fallback_loop pattern (Some tf) count fuel c'
                              (keys ++ map decode_bytes batch) s1
                            = (Ok (keys', nc), s2) ∧ same_store s s2) as IH'.
      { intros s1 Hs1. by apply IH. }
      destruct (IH' s (conj eq_refl eq_refl))
        as (cs & keys' & nc & Hrun & _).
      exists (c :: cs), keys', nc. split; [by eapply run_next|].
      intros [|fuel] Hfuel; [lia|].
      destruct (Hstep s0 c keys fuel Hs0 Hlt Hc) as (s1 & Hs1 & ->).
      rewrite Hr. simpl. destruct (Z.eqb_spec c' 0); [done|].
      destruct (IH' s1 Hs1) as (cs2 & k2 & n2 & Hrun2 & Hloop).
      destruct (page_run_det _ _ _ _ _ _ _ _ _ _ Hrun Hrun2) as [-> ->].
      apply Hloop. lia.
Qed.

(** The first call of the native path fails on a redis-py that does not know
    the [_type] keyword, and nothing is sent. *)
Lemma cursor_loop_unsupported s pattern (tf : str) count fuel c :
  scan_type_kw s = false → filtering (Some tf) = true → 0 < count →
  cursor_loop pattern (Some tf) count (S fuel) c [] s
  = (Raise (FromTransport
              (T_TypeError "scan() got an unexpected keyword argument '_type'")),
     s).
Proof.
  intros Hkw Hf Hcount.
  change (cursor_loop pattern (Some tf) count (S fuel) c [] s)
    with ((if len (@nil str) <? count then
             let* '(next_cursor', batch) :=
               scan_call c pattern (Some tf) count in
             let keys' := [] ++ map decode_bytes batch in
             if next_cursor' =? 0 then ret (keys', next_cursor')
             else cursor_loop pattern (Some tf) count fuel next_cursor' keys'
           else ret ([], c)) s).
  destruct (Z.ltb_spec (len (@nil str)) count) as [_|Hge].
  2:{ unfold len in Hge. simpl in Hge. lia. }
  unfold bind, scan_call, call, t_scan, server_transport. by rewrite Hf, Hkw.
Qed.

(** On a key space of distinct, valid UTF-8 keys and for a lower-case type
    name, [scan_with_cursor] returns the same page and cursor whether the
    type filter is applied by the store or by the fallback. *)
Theorem scan_with_cursor_fallback_agrees s s' pattern pb (tf : str) count cursor :
  alive s = true → scan_type_kw s = true →
  alive s' = true → scan_type_kw s' = false → table s' = table s →
  utf8_encode pattern = Some pb →
  filtering (Some tf) = true → lower tf = tf → utf8_encode tf = Some tf →
  NoDup (map fst (table s)) → Forall valid_utf8 (map fst (table s)) →
  0 < count → 0 ≤ cursor →
  ∀ fuel, (length (table s) < fuel)%nat →
    (scan_with_cursor pattern (Some tf) count fuel cursor s').1
    = (scan_with_cursor pattern (Some tf) count fuel cursor s).1.
Proof.
  intros Ha Hkw Ha' Hkw' Ht Hp Hf Hlow Henc Hnd Hv Hcount Hc fuel Hfuel.
  destruct (cursor_loop_on_server s pattern pb (Some tf) (Some tf) count Ha Hp)
    with (n := length (table s)) (pre := @nil Z) (c := cursor) (keys := @nil str)
    as (cs & keys & nc & Hrun & _ & Hloop); [|done|done|lia|].
  { unfold native_type. rewrite Hf. split; [done|]. exists tf. by split. }
  destruct (fallback_loop_on_server s pattern pb tf count Ha Hp Hf Hlow Hnd Hv
              Hcount (length (table s)) s' cursor [])
    as (cs2 & k2 & n2 & Hrun2 & Hloop2); [split; congruence|done|lia|].
  destruct (page_run_det _ _ _ _ _ _ _ _ _ _ Hrun Hrun2) as [<- <-].
  destruct (Hloop2 fuel Hfuel) as (s1 & Hfb & _).
  assert ((scan_with_cursor pattern (Some tf) count fuel cursor s).1
          = Ok (slice_to count keys, nc)) as ->.
  { unfold scan_with_cursor, try_catch, bind.
    rewrite <- (scanned_nil pb count (Some tf) s) at 1.
    by rewrite Hloop. }
  unfold scan_with_cursor, try_catch, bind.
  destruct fuel as [|fuel]; [lia|].
  rewrite cursor_loop_unsupported by done.
  cbn [is_TypeError]. unfold wrapped, try_catch, bind. by rewrite Hfb.
Qed.
End Fallback.
(* ===================================================================== *)
(** * [_b2s]: what is left of the bytes                                    *)
(* ===================================================================== *)

Section B2s.
Context `{Float}.

(** Induction on values, through the lists and dictionaries they hold. *)
Lemma pyval_nested_ind (P : pyval → Prop) :
  P PyNone → (∀ v, P (PyBool v)) → (∀ z, P (PyInt z)) →
  (∀ x, P (PyFloat x)) → (∀ s, P (PyStr s)) → (∀ v, P (PyBytes v)) →
  (∀ l, Forall P l → P (PyList l)) →
  (∀ l, Forall P l → P (PyTuple l)) →
  (∀ d, Forall (λ kv, P kv.2) d → P (PyDict d)) →
  (∀ l, Forall P l → P (PySet l)) →
  ∀ v, P v.
Proof.
  intros HN HB HI HF HS HY HL HT HD HE.
  fix IH 1.
  intros [| | | | | |l|l|d|l];
    [exact HN|apply HB|apply HI|apply HF|apply HS|apply HY|..].
  - apply HL. induction l as [|x l IHl]; constructor; [apply IH|exact IHl].
  - apply HT. induction l as [|x l IHl]; constructor; [apply IH|exact IHl].
  - apply HD. induction d as [|[k x] d IHd]; constructor; [apply IH|exact IHd].
  - apply HE. induction l as [|x l IHl]; constructor; [apply IH|exact IHl].
Qed.

Lemma dict_set_elem {K V} `{EqDecision K} (k : K) (v : V) d kv :
  kv ∈ dict_set k v d → kv = (k, v) ∨ kv ∈ d.
Proof.
  induction d as [|[k' v'] d IH]; simpl.
  - rewrite list_elem_of_singleton. by left.
  - destruct (decide (k = k')); rewrite !elem_of_cons.
    + intros [->|Hd]; [by left|right; by right].
    + intros [->|Hd]; [right; by left|].
      destruct (IH Hd) as [->|Hd']; [by left|right; by right].
Qed.

Lemma dict_of_pairs_elem {K V} `{EqDecision K} (l : list (K * V)) kv :
  kv ∈ dict_of_pairs l → kv ∈ l.
Proof.
  unfold dict_of_pairs.
  assert (∀ acc, kv ∈ foldl (λ d p, dict_set p.1 p.2 d) acc l →
                 kv ∈ acc ∨ kv ∈ l) as Hgen.
  { induction l as [|[k v] l IH]; intros acc; simpl; [by left|].
    intros [Hacc|Hl]%IH; [|right; by right].
    apply dict_set_elem in Hacc as [->|Hacc]; [right; by left|by left]. }
  intros [Hnil|Hl]%Hgen; [|done]. by apply elem_of_nil in Hnil.
Qed.

(** What [_b2s] leaves of the [bytes]: none, but for those held in sets. *)
Lemma b2s_bytes_left (val : pyval) :
  sets_bytes_free val = true → bytes_free (_b2s val) = true.
Proof.
  induction val as [| | | | | |l IH|l IH|d IH|l _] using pyval_nested_ind;
    simpl; try done; intros Hsets.
  - apply forallb_forall. intros x (y & <- & Hy)%in_map_iff.
    rewrite Forall_forall in IH. apply IH; [by apply list_elem_of_In|].
    by apply (proj1 (forallb_forall _ _) Hsets).
  - apply forallb_forall. intros x (y & <- & Hy)%in_map_iff.
    rewrite Forall_forall in IH. apply IH; [by apply list_elem_of_In|].
    by apply (proj1 (forallb_forall _ _) Hsets).
  - apply forallb_forall. intros kv Hkv%list_elem_of_In%dict_of_pairs_elem.
    apply list_elem_of_fmap in Hkv as ([k v] & -> & Hd).
    rewrite Forall_forall in IH.
    assert (bytes_free (_b2s v) = true) as Hv.
    { apply (IH _ Hd).
      by apply (proj1 (forallb_forall _ _) Hsets (k, v)), list_elem_of_In. }
    simpl. rewrite Hv. by destruct k.
Qed.

Lemma set_free_sets_bytes_free (val : pyval) :
  set_free val = true → sets_bytes_free val = true.
Proof.
  induction val as [| | | | | |l IH|l IH|d IH|l _] using pyval_nested_ind;
    simpl; try done; intros Hfree; apply forallb_forall; intros x Hx;
    rewrite Forall_forall in IH.
  - apply IH; [by apply list_elem_of_In|].
    by apply (proj1 (forallb_forall _ _) Hfree).
  - apply IH; [by apply list_elem_of_In|].
    by apply (proj1 (forallb_forall _ _) Hfree).
  - apply IH; [by apply list_elem_of_In|].
    by apply (proj1 (forallb_forall _ _) Hfree x).
Qed.

Lemma b2s_bytes_free (val : pyval) :
  set_free val = true → bytes_free (_b2s val) = true.
Proof. intros Hfree. by apply b2s_bytes_left, set_free_sets_bytes_free. Qed.

(** [_b2s] makes no set. *)
Lemma b2s_set_free (val : pyval) :
  set_free val = true → set_free (_b2s val) = true.
Proof.
  induction val as [| | | | | |l IH|l IH|d IH|l _] using pyval_nested_ind;
    simpl; try done; intros Hfree; apply forallb_forall.
  - intros x (y & <- & Hy)%in_map_iff.
    rewrite Forall_forall in IH. apply IH; [by apply list_elem_of_In|].
    by apply (proj1 (forallb_forall _ _) Hfree).
  - intros x (y & <- & Hy)%in_map_iff.
    rewrite Forall_forall in IH. apply IH; [by apply list_elem_of_In|].
    by apply (proj1 (forallb_forall _ _) Hfree).
  - intros kv Hkv%list_elem_of_In%dict_of_pairs_elem.
    apply list_elem_of_fmap in Hkv as ([k v] & -> & Hd).
    rewrite Forall_forall in IH. simpl. apply (IH _ Hd).
    by apply (proj1 (forallb_forall _ _) Hfree (k, v)), list_elem_of_In.
Qed.

(** X1. Outside sets, [_b2s] leaves no [bytes]: when the sets a reply holds
    are free of [bytes], the result holds none, not in a list or tuple, not
    among the keys or the values of a dictionary, at any depth. A set is
    returned as it is, with the [bytes] it holds. *)
Theorem b2s_leaves_no_bytes (val : pyval) :
  (sets_bytes_free val = true → bytes_free (_b2s val) = true)
  ∧ (∀ l, val = PySet l →
          _b2s val = val ∧ bytes_free (_b2s val) = forallb bytes_free l).
Proof.
  split; [apply b2s_bytes_left|]. by intros l ->.
Qed.
End B2s.
(* ===================================================================== *)
(** * UTF-8: decoding what was encoded, and decoding anything              *)
(* ===================================================================== *)

Lemma cp2_split (c : N) :
  ∃ x0 x1 : N, (x1 < 64 ∧ c = x0 * 64 + x1 ∧ c / 64 = x0 ∧ c mod 64 = x1)%N.
Proof.
  exists (c / 64)%N, (c mod 64)%N.
  pose proof (N.div_mod c 64 ltac:(lia)).
  pose proof (N.mod_upper_bound c 64 ltac:(lia)).
  split_and!; lia.
Qed.

Lemma cp3_split (c : N) :
  ∃ x0 x1 x2 : N,
    (x1 < 64 ∧ x2 < 64 ∧ c = x0 * 4096 + x1 * 64 + x2
     ∧ c / 4096 = x0 ∧ (c / 64) mod 64 = x1 ∧ c mod 64 = x2)%N.
Proof.
  exists (c / 4096)%N, ((c / 64) mod 64)%N, (c mod 64)%N.
  pose proof (N.div_mod c 64 ltac:(lia)).
  pose proof (N.div_mod (c / 64) 64 ltac:(lia)).
  pose proof (N.mod_upper_bound c 64 ltac:(lia)).
  pose proof (N.mod_upper_bound (c / 64) 64 ltac:(lia)).
  assert (c / 64 / 64 = c / 4096)%N by (by rewrite N.Div0.div_div).
  split_and!; lia.
Qed.

Lemma cp4_split (c : N) :
  ∃ x0 x1 x2 x3 : N,
    (x1 < 64 ∧ x2 < 64 ∧ x3 < 64
     ∧ c = x0 * 262144 + x1 * 4096 + x2 * 64 + x3
     ∧ c / 262144 = x0 ∧ (c / 4096) mod 64 = x1 ∧ (c / 64) mod 64 = x2
     ∧ c mod 64 = x3)%N.
Proof.
  exists (c / 262144)%N, ((c / 4096) mod 64)%N, ((c / 64) mod 64)%N,
    (c mod 64)%N.
  pose proof (N.div_mod c 64 ltac:(lia)).
  pose proof (N.div_mod (c / 64) 64 ltac:(lia)).
  pose proof (N.div_mod (c / 4096) 64 ltac:(lia)).
  pose proof (N.mod_upper_bound c 64 ltac:(lia)).
  pose proof (N.mod_upper_bound (c / 64) 64 ltac:(lia)).
  pose proof (N.mod_upper_bound (c / 4096) 64 ltac:(lia)).
  assert (c / 64 / 64 = c / 4096)%N by (by rewrite N.Div0.div_div).
  assert (c / 4096 / 64 = c / 262144)%N by (by rewrite N.Div0.div_div).
  split_and!; lia.
Qed.

Ltac decide_bool b v :=
  let Hb := fresh "Hb" in
  assert (b = v) as Hb
    by (repeat match goal with x := _ |- _ => subst x end;
        unfold second_ok, is_cont, between;
        repeat match goal with
               | |- context [(?x =? ?y)%N] => destruct (N.eqb_spec x y)
               end;
        first [ apply andb_true_iff; split; apply N.leb_le; lia
              | apply N.ltb_lt; lia | apply N.ltb_ge; lia
              | apply andb_false_iff; first [left; apply N.leb_gt; lia
                                            |right; apply N.leb_gt; lia] ]);
  rewrite Hb; clear Hb.

(** The strict decoder reads the encoding of a code point back. *)
Lemma decode_encoded_cp (c : N) (x y : bytes) :
  utf8_encode_cp c = Some x →
  utf8_decode false (x ++ y) = cons c <$> utf8_decode false y.
Proof.
  unfold utf8_encode_cp.
  destruct (N.ltb_spec c 128) as [H1|H1].
  { intros [= <-]. simpl. by decide_bool (c <? 128)%N true. }
  destruct (N.ltb_spec c 2048) as [H2|H2].
  { intros [= <-].
    destruct (cp2_split c) as (x0 & x1 & ? & Hc & -> & ->).
    set (b0 := (192 + x0)%N). set (b1 := (128 + x1)%N).
    simpl. decide_bool (b0 <? 128)%N false.
    decide_bool (between 194 223 b0) true.
    decide_bool (is_cont b1) true.
    replace ((b0 - 192) * 64 + (b1 - 128))%N with c by (subst b0 b1; lia).
    done. }
  destruct (N.ltb_spec c 65536) as [H3|H3].
  { destruct (is_surrogate c) eqn:Hs; [done|]. intros [= <-].
    destruct (cp3_split c) as (x0 & x1 & x2 & ? & ? & Hc & -> & -> & ->).
    assert (¬ (55296 ≤ c ∧ c ≤ 57343))%N as Hns.
    { intros [? ?]. unfold is_surrogate in Hs.
      apply andb_false_iff in Hs as [Hs|Hs]; apply N.leb_gt in Hs; lia. }
    set (b0 := (224 + x0)%N). set (b1 := (128 + x1)%N).
    set (b2 := (128 + x2)%N).
    simpl. decide_bool (b0 <? 128)%N false.
    decide_bool (between 194 223 b0) false.
    decide_bool (between 224 239 b0) true.
    decide_bool (second_ok b0 b1) true.
    decide_bool (is_cont b2) true.
    replace ((b0 - 224) * 4096 + (b1 - 128) * 64 + (b2 - 128))%N with c
      by (subst b0 b1 b2; lia).
    done. }
  destruct (N.ltb_spec c 1114112) as [H4|H4]; [|done].
  intros [= <-].
  destruct (cp4_split c)
    as (x0 & x1 & x2 & x3 & ? & ? & ? & Hc & -> & -> & -> & ->).
  set (b0 := (240 + x0)%N). set (b1 := (128 + x1)%N).
  set (b2 := (128 + x2)%N). set (b3 := (128 + x3)%N).
  simpl. decide_bool (b0 <? 128)%N false.
  decide_bool (between 194 223 b0) false.
  decide_bool (between 224 239 b0) false.
  decide_bool (between 240 244 b0) true.
  decide_bool (second_ok b0 b1) true.
  decide_bool (is_cont b2) true.
  decide_bool (is_cont b3) true.
  replace ((b0 - 240) * 262144 + (b1 - 128) * 4096 + (b2 - 128) * 64
           + (b3 - 128))%N with c by (subst b0 b1 b2 b3; lia).
  done.
Qed.

Lemma utf8_encode_decode (s : str) (v : bytes) :
  utf8_encode s = Some v → utf8_decode false v = Some s.
Proof.
  revert v. induction s as [|c s IH]; intros v; simpl.
  - by intros [= <-].
  - destruct (utf8_encode_cp c) as [x|] eqn:Hc; [|done].
    destruct (utf8_encode s) as [y|]; [|done]. intros [= <-].
    rewrite (decode_encoded_cp c x y Hc). by rewrite (IH y).
Qed.

Lemma decode_bytes_encoded (s : str) (v : bytes) :
  utf8_encode s = Some v → decode_bytes v = s.
Proof. intros Hv%utf8_encode_decode. unfold decode_bytes. by rewrite Hv. Qed.

Lemma decode_bytes_encoded_list (l : list str) (vs : list bytes) :
  mapM utf8_encode l = Some vs → map decode_bytes vs = l.
Proof.
  intros Hl%mapM_Some. induction Hl as [|x v l vs Hx _ IH]; simpl; [done|].
  by rewrite (decode_bytes_encoded x v), IH.
Qed.

Section Decoding.
Context `{Float}.

(** X2. Text written as UTF-8 comes back as the same text: on the encoding
    of [s], [_b2s] gives [s]. *)
Theorem b2s_inverts_encode (s : str) (v : bytes) :
  utf8_encode s = Some v → _b2s (PyBytes v) = PyStr s.
Proof. intros Hv. simpl. by rewrite (decode_bytes_encoded s v). Qed.
End Decoding.

(** Decoding with replacement always gives a text, of at most one character
    per octet, and the text of the strict decoder when that one succeeds. *)
Lemma utf8_decode_replace (v : bytes) :
  ∃ s, utf8_decode true v = Some s ∧ (length s ≤ length v)%nat
       ∧ ∀ t, utf8_decode false v = Some t → t = s.
Proof.
  remember (length v) as n eqn:Hn. revert v Hn.
  induction n as [n IH] using lt_wf_ind. intros v ->.
  assert (∀ (c : N) (r : bytes), (length r < length v)%nat →
            ∃ s, cons c <$> utf8_decode true r = Some s
                 ∧ (length s ≤ length v)%nat
                 ∧ ∀ t, cons c <$> utf8_decode false r = Some t → t = s)
    as Hgood.
  { intros c r Hr.
    destruct (IH (length r) Hr r eq_refl) as (s & -> & Hlen & Hstrict).
    exists (c :: s). split_and!; [done|simpl; lia|].
    intros t (t' & -> & Ht)%fmap_cons_Some. by rewrite (Hstrict t' Ht). }
  assert (∀ (r : bytes), (length r < length v)%nat →
            ∃ s, cons REPLACEMENT <$> utf8_decode true r = Some s
                 ∧ (length s ≤ length v)%nat
                 ∧ ∀ t, @None str = Some t → t = s)
    as Hbad.
  { intros r Hr.
    destruct (IH (length r) Hr r eq_refl) as (s & -> & Hlen & _).
    exists (REPLACEMENT :: s). split_and!; [done|simpl; lia|done]. }
  destruct v as [|b0 r0]; simpl.
  { exists []. split_and!; [done|done|]. by intros t [= <-]. }
  destruct (b0 <? 128)%N; [apply Hgood; simpl; lia|].
  destruct (between 194 223 b0).
  { destruct r0 as [|b1 r1]; [by exists [REPLACEMENT]; split_and!; [done|simpl; lia|done]|].
    destruct (is_cont b1); [apply Hgood|apply Hbad]; simpl; lia. }
  destruct (between 224 239 b0).
  { destruct r0 as [|b1 r1]; [by exists [REPLACEMENT]; split_and!; [done|simpl; lia|done]|].
    destruct (second_ok b0 b1); [|apply Hbad; simpl; lia].
    destruct r1 as [|b2 r2]; [by exists [REPLACEMENT]; split_and!; [done|simpl; lia|done]|].
    destruct (is_cont b2); [apply Hgood|apply Hbad]; simpl; lia. }
  destruct (between 240 244 b0); [|apply Hbad; simpl; lia].
  destruct r0 as [|b1 r1]; [by exists [REPLACEMENT]; split_and!; [done|simpl; lia|done]|].
  destruct (second_ok b0 b1); [|apply Hbad; simpl; lia].
  destruct r1 as [|b2 r2]; [by exists [REPLACEMENT]; split_and!; [done|simpl; lia|done]|].
  destruct (is_cont b2); [|apply Hbad; simpl; lia].
  destruct r2 as [|b3 r3]; [by exists [REPLACEMENT]; split_and!; [done|simpl; lia|done]|].
  destruct (is_cont b3); [apply Hgood|apply Hbad]; simpl; lia.
Qed.

Section DecodingTotal.
Context `{Float}.

(** X3. [_b2s] never fails on [bytes]: when the strict decoding raises,
    decoding with [errors="replace"] returns a text, so the result is always
    the text of one of the two; it has at most one character per octet. *)
Theorem b2s_bytes_total (v : bytes) :
  ∃ s, _b2s (PyBytes v) = PyStr s
       ∧ (utf8_decode false v = Some s
          ∨ utf8_decode false v = None ∧ utf8_decode true v = Some s)
       ∧ (length s ≤ length v)%nat.
Proof.
  destruct (utf8_decode_replace v) as (s & Hr & Hlen & Hstrict).
  exists s. simpl. unfold decode_bytes.
  destruct (utf8_decode false v) as [t|] eqn:Hv.
  - rewrite (Hstrict t eq_refl). split_and!; [done|by left|done].
  - rewrite Hr. split_and!; [done|by right|done].
Qed.
End DecodingTotal.
(* ===================================================================== *)
(** * [get_value]: the other kinds of value                                *)
(* ===================================================================== *)

Lemma range_window {A} (n : Z) (l : list A) :
  0 ≤ n →
  range 0 (n - 1) l = if n =? 0 then l else take (Z.to_nat n) l.
Proof.
  intros Hn. unfold range. cbv zeta.
  change (0 <? 0) with false. cbv iota.
  destruct (Z.eqb_spec n 0) as [->|Hn0].
  - change (0 - 1 <? 0) with true. cbv iota.
    destruct (Z.ltb_spec (Z.of_nat (length l) + (0 - 1)) 0) as [Hl|Hl].
    + destruct l; [done|simpl in Hl; lia].
    + rewrite drop_0, take_ge; [done|lia].
  - destruct (Z.ltb_spec (n - 1) 0) as [?|_]; [lia|].
    destruct (Z.ltb_spec (Z.min (n - 1) (Z.of_nat (length l) - 1)) 0) as [Hl|Hl].
    + destruct l; [by rewrite take_nil|simpl in Hl; lia].
    + rewrite drop_0.
      destruct (Z.le_ge_cases n (Z.of_nat (length l))) as [Hle|Hge].
      * f_equal. lia.
      * rewrite !take_ge; [done|lia..].
Qed.

Section OtherKinds.
Context `{Float}.
Implicit Types (s : server) (key : str) (kb : bytes).

(** X4. For a key the store does not hold, [get_value] asks for the type
    and nothing else, and returns the type [none] with the value [None]. *)
Theorem get_value_missing_key s key kb max_items :
  alive s = true → utf8_encode key = Some kb →
  dict_get kb (table s) = None →
  get_value key max_items s
  = (Ok {| vr_type := PyStr (txt "none"); vr_key := key; vr_value := PyNone |},
     received (TYPE kb) (table s) s).
Proof.
  intros Ha Hk Hm. unfold get_value.
  rewrite (get_value_type s key kb) by done.
  unfold stored_type. rewrite Hm.
  change (raw "none") with (txt "none"). cbn [py_eq]. eval_eqb. done.
Qed.

Lemma get_value_list s key kb l max_items :
  alive s = true → utf8_encode key = Some kb →
  dict_get kb (table s) = Some (RList l) → 0 ≤ max_items →
  (get_value key max_items s).1
  = Ok {| vr_type := PyStr (txt "list"); vr_key := key;
          vr_value :=
            PyList (map PyStr
                      (map decode_bytes
                         (if max_items =? 0 then l
                          else take (Z.to_nat max_items) l))) |}.
Proof.
  intros Ha Hk Hm Hn. unfold get_value.
  rewrite (get_value_type s key kb) by done.
  unfold stored_type. rewrite Hm.
  change (type_name (RList l)) with (txt "list"). cbn [py_eq]. eval_eqb.
  unfold wrapped, try_catch, bind, call, t_lrange, server_transport, encoded.
  rewrite Hk. rewrite exchange_alive by done. cbv beta iota. simpl table.
  rewrite Hm. cbn -[_b2s py_bytes_list range Z.sub].
  by rewrite b2s_bytes_list, range_window.
Qed.

(** X5. For a key holding a list, [get_value] returns its first
    [max_items] elements, decoded and in the order of the list; with
    [max_items = 0] the range ends at [-1] and the whole list comes back. *)
Theorem get_value_list_window s key kb l max_items :
  alive s = true → utf8_encode key = Some kb →
  dict_get kb (table s) = Some (RList l) → 0 ≤ max_items →
  (get_value key max_items s).1
  = Ok {| vr_type := PyStr (txt "list"); vr_key := key;
          vr_value :=
            PyList (map PyStr
                      (map decode_bytes
                         (if max_items =? 0 then l
                          else take (Z.to_nat max_items) l))) |}.
Proof. apply get_value_list. Qed.

(** X6. For a key holding a sorted set, [get_value] returns its first
    [max_items] entries in the order of the store, each as the pair of the
    decoded member and its score. *)
Theorem get_value_zset_window s key kb z max_items :
  alive s = true → utf8_encode key = Some kb →
  dict_get kb (table s) = Some (RZSet z) → 0 < max_items →
  (get_value key max_items s).1
  = Ok {| vr_type := PyStr (txt "zset"); vr_key := key;
          vr_value :=
            PyList (map (λ ms, PyList [PyStr (decode_bytes ms.1); PyFloat ms.2])
                      (take (Z.to_nat max_items) z)) |}.
Proof.
  intros Ha Hk Hm Hn. unfold get_value.
  rewrite (get_value_type s key kb) by done.
  unfold stored_type. rewrite Hm.
  change (type_name (RZSet z)) with (txt "zset"). cbn [py_eq]. eval_eqb.
  unfold wrapped, try_catch, bind, call, t_zrange_withscores,
    server_transport, encoded.
  rewrite Hk. rewrite exchange_alive by done. cbv beta iota. simpl table.
  rewrite Hm. cbn -[_b2s range Z.sub].
  rewrite range_window by lia.
  by destruct (Z.eqb_spec max_items 0); [lia|].
Qed.
End OtherKinds.

Section Failures.
Context `{Float} `{!Transport St}.
Implicit Types (s : St).

(** X7. When the transport fails on the [TYPE] call, [get_value] raises a
    [SimpleRedisClientError] that carries the transport's message, although
    the failure is wrapped twice on its way ([type], then [get_value]); no
    further command is sent. *)
Theorem get_value_type_failure (key : str) max_items s s' te :
  t_type key s = (Fail te, s') →
  ∃ e, get_value key max_items s = (Raise (SimpleRedisClientError e), s')
       ∧ exn_str (SimpleRedisClientError e) = exn_str (FromTransport te).
Proof.
  intros Ht. exists (SimpleRedisClientError (FromTransport te)).
  unfold get_value, type, wrapped, try_catch, bind, call. by rewrite Ht.
Qed.
End Failures.
(* ===================================================================== *)
(** * [set_value] then [get_value]                                         *)
(* ===================================================================== *)

Section RoundTrips.
Context `{Float}.
Implicit Types (s : server) (key : str) (kb : bytes).

Lemma mapM_length {A B} (f : A → option B) (l : list A) (k : list B) :
  mapM f l = Some k → length k = length l.
Proof. intros Hl%mapM_Some. by apply Forall2_length in Hl. Qed.

(** X8. Storing a text as a string and reading the key back: [set_value]
    sends one [SET] of the UTF-8 text, whatever the key held, and
    [get_value] then returns the parsed JSON when the text is JSON and the
    very text otherwise. *)
Theorem set_value_string_round_trip s key kb text v max_items :
  alive s = true → utf8_encode key = Some kb → utf8_encode text = Some v →
  ∃ s',
    set_value key text (txt "string") s
    = (Ok {| acknowledged := true; operation := txt "SET"; sr_key := key;
             sr_fields := None; sr_length := None |}, s')
    ∧ log s' = log s ++ [SET kb v]
    ∧ (get_value key max_items s').1
      = Ok {| vr_type := PyStr (txt "string"); vr_key := key;
              vr_value := match json_loads text with
                          | Some parsed => py_of_json parsed
                          | None => PyStr text
                          end |}.
Proof.
  intros Ha Hk Hv.
  exists (received (SET kb v) (dict_set kb (RString v) (table s)) s).
  split_and!; [|done|].
  - unfold set_value, wrapped, try_catch, bind. eval_eqb.
    rewrite Hv. simpl of_option. unfold ret at 1.
    unfold call, t_set, server_transport, encoded. rewrite Hk.
    by rewrite exchange_alive by done.
  - rewrite (get_value_string _ key kb v); [|done|done|].
    + by rewrite (decode_bytes_encoded text v).
    + rewrite received_table. apply dict_get_set_eq.
Qed.

(** The state after the delete-then-push of a non-empty array. *)
Lemma set_value_list_on_server s key kb text l vs :
  alive s = true → utf8_encode key = Some kb →
  json_loads text = Some (JArr l) → l ≠ [] →
  mapM utf8_encode (map to_text l) = Some vs →
  set_value key text (txt "list") s
  = (Ok {| acknowledged := true; operation := txt "RPUSH"; sr_key := key;
           sr_fields := None; sr_length := Some (len l) |},
     received (RPUSH kb vs) (dict_set kb (RList vs) (dict_pop kb (table s)))
       (received (DEL kb) (dict_pop kb (table s)) s)).
Proof.
  intros Ha Hk Hj Hl Hvs.
  pose proof (mapM_length _ _ _ Hvs) as Hlen. rewrite length_map in Hlen.
  unfold set_value, wrapped, try_catch, bind. eval_eqb.
  unfold loads. rewrite Hj. simpl of_option. unfold ret at 1.
  destruct l as [|x l']; [done|].
  unfold call at 1, t_delete, server_transport, encoded. rewrite Hk.
  rewrite exchange_alive by done. cbv beta iota. cbn [fst snd].
  unfold call, t_rpush, server_transport, encoded, encoded_list.
  rewrite Hk, Hvs. rewrite exchange_alive by done.
  rewrite received_table, dict_get_pop_eq.
  destruct vs as [|v vs']; [done|]. done.
Qed.

(** X9. Storing a non-empty JSON array as a list and reading the key back:
    the key is deleted and the element texts pushed, whatever the key held,
    and [get_value] returns these texts in the order of the array (as long
    as [max_items] covers them). *)
Theorem set_value_list_round_trip s key kb text l vs max_items :
  alive s = true → utf8_encode key = Some kb →
  json_loads text = Some (JArr l) → l ≠ [] →
  mapM utf8_encode (map to_text l) = Some vs →
  len l ≤ max_items →
  ∃ s',
    set_value key text (txt "list") s
    = (Ok {| acknowledged := true; operation := txt "RPUSH"; sr_key := key;
             sr_fields := None; sr_length := Some (len l) |}, s')
    ∧ log s' = log s ++ [DEL kb; RPUSH kb vs]
    ∧ (get_value key max_items s').1
      = Ok {| vr_type := PyStr (txt "list"); vr_key := key;
              vr_value := PyList (map PyStr (map to_text l)) |}.
Proof.
  intros Ha Hk Hj Hl Hvs Hmax.
  pose proof (mapM_length _ _ _ Hvs) as Hlen. rewrite length_map in Hlen.
  eexists. split_and!;
    [by apply (set_value_list_on_server s key kb text l vs)|..].
  - rewrite !received_log, <- app_assoc. done.
  - assert (0 < len l) by (destruct l; [done|unfold len; simpl; lia]).
    rewrite (get_value_list _ key kb vs); [|done|done| |lia].
    + destruct (Z.eqb_spec max_items 0); [lia|].
      rewrite take_ge by (unfold len in *; lia).
      by rewrite (decode_bytes_encoded_list _ _ Hvs).
    + rewrite received_table. apply dict_get_set_eq.
Qed.

Lemma set_add_elem (m ms : list bytes) (x : bytes) :
  x ∈ set_add m ms ↔ x ∈ m ∨ x ∈ ms.
Proof.
  unfold set_add. revert m. induction ms as [|y ms IH]; intros m; simpl.
  - rewrite elem_of_nil. tauto.
  - rewrite IH, elem_of_cons. destruct (decide (y ∈ m)) as [Hy|Hy].
    + split; [tauto|]. intros [?|[->|?]]; tauto.
    + rewrite elem_of_app, list_elem_of_singleton. tauto.
Qed.

Lemma set_add_NoDup (m ms : list bytes) : NoDup m → NoDup (set_add m ms).
Proof.
  unfold set_add. revert m. induction ms as [|y ms IH]; intros m Hm; simpl;
    [done|].
  apply IH. destruct (decide (y ∈ m)) as [Hy|Hy]; [done|].
  apply NoDup_app. split_and!; [done| |apply NoDup_singleton].
  intros x Hx ->%list_elem_of_singleton. done.
Qed.

Lemma mapM_encode_valid (l : list str) (vs : list bytes) :
  mapM utf8_encode l = Some vs → Forall valid_utf8 vs.
Proof.
  intros Hl%mapM_Some. induction Hl as [|x v l vs Hx _ IH]; constructor;
    [|done].
  exists x. by apply utf8_encode_decode.
Qed.

(** The state after the delete-then-add of a non-empty array. *)
Lemma set_value_set_on_server s key kb text l vs :
  alive s = true → utf8_encode key = Some kb →
  json_loads text = Some (JArr l) → l ≠ [] →
  mapM utf8_encode (map to_text l) = Some vs →
  set_value key text (txt "set") s
  = (Ok {| acknowledged := true; operation := txt "SADD"; sr_key := key;
           sr_fields := None; sr_length := Some (len l) |},
     received (SADD kb vs)
       (dict_set kb (RSet (set_add [] vs)) (dict_pop kb (table s)))
       (received (DEL kb) (dict_pop kb (table s)) s)).
Proof.
  intros Ha Hk Hj Hl Hvs.
  pose proof (mapM_length _ _ _ Hvs) as Hlen. rewrite length_map in Hlen.
  unfold set_value, wrapped, try_catch, bind. eval_eqb.
  unfold loads. rewrite Hj. simpl of_option. unfold ret at 1.
  destruct l as [|x l']; [done|].
  unfold call at 1, t_delete, server_transport, encoded. rewrite Hk.
  rewrite exchange_alive by done. cbv beta iota. cbn [fst snd].
  unfold call, t_sadd, server_transport, encoded, encoded_list.
  rewrite Hk, Hvs. rewrite exchange_alive by done.
  rewrite received_table, dict_get_pop_eq.
  destruct vs as [|v vs']; [done|]. done.
Qed.

(** X10. Storing a non-empty JSON array as a set and reading the key back:
    [get_value] returns the distinct element texts, each once, sorted by
    code point, although the reported length counts the array's elements
    with their repetitions. *)
Theorem set_value_set_round_trip s key kb text l vs max_items :
  alive s = true → utf8_encode key = Some kb →
  json_loads text = Some (JArr l) → l ≠ [] →
  mapM utf8_encode (map to_text l) = Some vs →
  ∃ s' m,
    set_value key text (txt "set") s
    = (Ok {| acknowledged := true; operation := txt "SADD"; sr_key := key;
             sr_fields := None; sr_length := Some (len l) |}, s')
    ∧ (get_value key max_items s').1
      = Ok {| vr_type := PyStr (txt "set"); vr_key := key;
              vr_value := PyList (map PyStr m) |}
    ∧ StronglySorted str_le m ∧ NoDup m
    ∧ ∀ x, x ∈ m ↔ x ∈ map to_text l.
Proof.
  intros Ha Hk Hj Hl Hvs.
  eexists. exists (sorted (map decode_bytes (set_add [] vs))). split_and!;
    [by apply (set_value_set_on_server s key kb text l vs)|..].
  - apply (get_value_set _ key kb); [done|done|].
    rewrite received_table. apply dict_get_set_eq.
  - apply sorted_Sorted.
  - rewrite sorted_Permutation. apply NoDup_fmap_2_strong.
    + intros x y Hx Hy. pose proof (mapM_encode_valid _ _ Hvs) as Hv.
      rewrite Forall_forall in Hv.
      apply set_add_elem in Hx as [Hx|Hx]; [by apply elem_of_nil in Hx|].
      apply set_add_elem in Hy as [Hy|Hy]; [by apply elem_of_nil in Hy|].
      apply decode_bytes_inj; auto.
    + apply set_add_NoDup, NoDup_nil_2.
  - intros x. rewrite sorted_Permutation.
    rewrite <- (decode_bytes_encoded_list _ _ Hvs).
    rewrite !list_elem_of_fmap. split; intros (y & -> & Hy); exists y;
      (split; [done|]).
    + apply set_add_elem in Hy as [Hy|Hy]; [by apply elem_of_nil in Hy|done].
    + apply set_add_elem. by right.
Qed.

(** X11. An element without a UTF-8 encoding (a lone surrogate, written as
    an escape in the JSON text) is found only when the push or add is
    packed, after the delete has gone out: [set_value] raises, the store has
    received the [DEL] alone, and the key no longer exists. *)
Theorem set_value_replace_loses_key s key kb text kind l :
  alive s = true → utf8_encode key = Some kb →
  kind = txt "list" ∨ kind = txt "set" →
  json_loads text = Some (JArr l) → l ≠ [] →
  mapM utf8_encode (map to_text l) = None →
  ∃ s',
    set_value key text kind s
    = (Raise (SimpleRedisClientError (FromTransport T_UnicodeEncodeError)), s')
    ∧ log s' = log s ++ [DEL kb]
    ∧ dict_get kb (table s') = None.
Proof.
  intros Ha Hk Hkind Hj Hl Hvs.
  exists (received (DEL kb) (dict_pop kb (table s)) s).
  split_and!; [|done|by rewrite received_table, dict_get_pop_eq].
  destruct Hkind as [-> | ->];
    unfold set_value, wrapped, try_catch, bind; eval_eqb;
    unfold loads; rewrite Hj; simpl of_option; unfold ret at 1;
    (destruct l as [|x l']; [done|]);
    unfold call at 1, t_delete, server_transport, encoded; rewrite Hk;
    rewrite exchange_alive by done; cbv beta iota; cbn [fst snd];
    unfold call, t_rpush, t_sadd, server_transport, encoded, encoded_list;
    by rewrite Hk, Hvs.
Qed.
End RoundTrips.

Section EmptyArray.
Context `{Float} `{!Transport St}.

(** X12. For the kinds [list], [set] and [zset] an empty JSON array sends
    nothing at all: [set_value] reports success with length [0] and the
    state behind the transport is untouched, so a key that exists keeps its
    content. *)
Theorem set_value_empty_array (key text kind : str) (s : St) :
  json_loads text = Some (JArr []) →
  lower kind = txt "list" ∨ lower kind = txt "set" ∨ lower kind = txt "zset" →
  ∃ op,
    set_value key text kind s
    = (Ok {| acknowledged := true; operation := op; sr_key := key;
             sr_fields := None; sr_length := Some 0 |}, s).
Proof.
  intros Hj Hkind. unfold set_value, wrapped, try_catch, bind.
  destruct Hkind as [-> | [-> | ->]]; eval_eqb; unfold loads; rewrite Hj;
    by eexists.
Qed.
End EmptyArray.
(* ===================================================================== *)
(** * [scan] and [scan_with_cursor] on any transport                       *)
(* ===================================================================== *)

Section Outcomes.
Context {St : Type}.
Implicit Types (s : St).

Lemma bind_ok {A B} (m : M St A) (k : A → M St B) s s' (b : B) :
  bind m k s = (Ok b, s') →
  ∃ a s0, m s = (Ok a, s0) ∧ k a s0 = (Ok b, s').
Proof. unfold bind. destruct (m s) as [[a|e|] s0]; [eauto|done..]. Qed.

Lemma try_catch_ok {A} (m : M St A) (h : exn → M St A) s s' (a : A) :
  try_catch m h s = (Ok a, s') →
  m s = (Ok a, s') ∨ ∃ e s0, m s = (Raise e, s0) ∧ h e s0 = (Ok a, s').
Proof.
  unfold try_catch. destruct (m s) as [[a0|e|] s0]; [by left|eauto|done].
Qed.

Lemma try_catch_raises {A} (m : M St A) (h : exn → M St A) s s' e :
  try_catch m h s = (Raise e, s') →
  ∃ e0 s0, m s = (Raise e0, s0) ∧ h e0 s0 = (Raise e, s').
Proof.
  unfold try_catch. destruct (m s) as [[a0|e0|] s0]; [done|eauto|done].
Qed.

Lemma wrapped_ok {A} (m : M St A) s s' (a : A) :
  wrapped m s = (Ok a, s') → m s = (Ok a, s').
Proof.
  unfold wrapped, try_catch, raise. by destruct (m s) as [[a0|e|] s0].
Qed.

Lemma slice_to_length {A} (n : Z) (l : list A) : 0 ≤ n → len (slice_to n l) ≤ n.
Proof.
  intros Hn. unfold slice_to, len. destruct (Z.leb_spec 0 n); [|lia].
  rewrite length_take. lia.
Qed.
End Outcomes.

Section AnyTransport.
Context `{Float} `{!Transport St}.
Implicit Types (s : St) (pattern : str) (type_filter : option str).

(** The handler both scanners share: a [TypeError] of the first pass starts
    the fallback, anything else is wrapped. *)
Lemma scan_handler_raises {A} (fallback : M St A) e0 s0 s' e :
  (if is_TypeError e0 then wrapped fallback
   else raise (SimpleRedisClientError e0)) s0 = (Raise e, s') →
  ∃ c, e = SimpleRedisClientError c.
Proof.
  destruct (is_TypeError e0).
  - intros (c & -> & _)%wrapped_raises. eauto.
  - intros [= <- _]. eauto.
Qed.

(** X13. Every method of the client raises [SimpleRedisClientError] and
    nothing else, the one exception the handlers of the window catch:
    whatever the transport does, no other exception leaves [ping], [type],
    [delete], [get_value], [set_value], [scan] or [scan_with_cursor]. *)
Theorem client_raises_client_errors s s' e :
  (ping s = (Raise e, s')
   ∨ (∃ key, type key s = (Raise e, s'))
   ∨ (∃ key, delete key s = (Raise e, s'))
   ∨ (∃ key max_items, get_value key max_items s = (Raise e, s'))
   ∨ (∃ key text kind, set_value key text kind s = (Raise e, s'))
   ∨ (∃ pattern type_filter count fuel,
        scan pattern type_filter count fuel s = (Raise e, s'))
   ∨ (∃ pattern type_filter count fuel cursor,
        scan_with_cursor pattern type_filter count fuel cursor s
        = (Raise e, s'))) →
  ∃ cause, e = SimpleRedisClientError cause.
Proof.
  intros [Hr|[[key Hr]|[[key Hr]|[(key & n & Hr)|[(key & text & kind & Hr)|
            [(p & tf & count & fuel & Hr)|(p & tf & count & fuel & c & Hr)]]]]]].
  - apply wrapped_raises in Hr as (c & -> & _). eauto.
  - apply wrapped_raises in Hr as (c & -> & _). eauto.
  - apply wrapped_raises in Hr as (c & -> & _). eauto.
  - apply wrapped_raises in Hr as (c & -> & _). eauto.
  - apply wrapped_raises in Hr as (c & -> & _). eauto.
  - apply try_catch_raises in Hr as (e0 & s0 & _ & Hh).
    by apply scan_handler_raises in Hh.
  - apply try_catch_raises in Hr as (e0 & s0 & _ & Hh).
    by apply scan_handler_raises in Hh.
Qed.

(** X14. With a [count] of zero or less [scan_with_cursor] sends nothing:
    the loop is not entered, and the empty page comes back with the cursor
    that was passed in. *)
Theorem scan_with_cursor_no_count pattern type_filter count fuel cursor s :
  count ≤ 0 →
  scan_with_cursor pattern type_filter count fuel cursor s
  = (Ok ([], cursor), s).
Proof.
  intros Hc. unfold scan_with_cursor, try_catch, bind.
  assert (cursor_loop pattern type_filter count fuel cursor [] s
          = (Ok ([], cursor), s)) as ->.
  { destruct fuel; simpl; by destruct (Z.ltb_spec (len (@nil str)) count);
      [unfold len in *; simpl in *; lia|]. }
  unfold ret, slice_to. simpl.
  by destruct (0 <=? count); rewrite take_nil.
Qed.

(** X15. For a [count] that is not negative, neither scanner returns more
    than [count] keys, on the first pass or on the fallback, whatever the
    transport answers. *)
Theorem scan_at_most_count pattern type_filter count fuel s :
  0 ≤ count →
  (∀ keys s', scan pattern type_filter count fuel s = (Ok keys, s') →
              len keys ≤ count)
  ∧ (∀ cursor keys nc s',
       scan_with_cursor pattern type_filter count fuel cursor s
       = (Ok (keys, nc), s') →
       len keys ≤ count).
Proof.
  intros Hc. split.
  - intros keys s' [Hr|(e & s0 & _ & Hr)]%try_catch_ok.
    + apply bind_ok in Hr as (k & s1 & _ & [= <- _]).
      by apply slice_to_length.
    + destruct (is_TypeError e); [|done].
      apply wrapped_ok, bind_ok in Hr as (k & s1 & _ & Hr).
      destruct (filtering type_filter).
      * apply bind_ok in Hr as (f & s2 & _ & [= <- _]).
        by apply slice_to_length.
      * injection Hr as <- _. by apply slice_to_length.
  - intros cursor keys nc s' [Hr|(e & s0 & _ & Hr)]%try_catch_ok.
    + apply bind_ok in Hr as ([k c] & s1 & _ & [= <- _ _]).
      by apply slice_to_length.
    + destruct (is_TypeError e); [|done].
      apply wrapped_ok, bind_ok in Hr as ([k c] & s1 & _ & [= <- _ _]).
      by apply slice_to_length.
Qed.
End AnyTransport.

Section FirstPage.
Context `{Float} `{!Transport St}.
Implicit Types (s : St) (pattern : str) (type_filter : option str).

Lemma scan_call_unfiltered c pattern type_filter count :
  filtering type_filter = false →
  scan_call c pattern type_filter count = scan_call c pattern None count.
Proof. intros Hf. unfold scan_call. by rewrite Hf. Qed.

Lemma cursor_loop_enough pattern type_filter count fuel c keys s :
  count ≤ len keys →
  cursor_loop pattern type_filter count fuel c keys s = (Ok (keys, c), s).
Proof.
  intros Hge. by destruct fuel; simpl; destruct (Z.ltb_spec (len keys) count);
    [lia| |lia|].
Qed.

Lemma fallback_loop_enough pattern type_filter count fuel c keys s :
  count ≤ len keys →
  fallback_loop pattern type_filter count fuel c keys s = (Ok (keys, c), s).
Proof.
  intros Hge. by destruct fuel; simpl; destruct (Z.ltb_spec (len keys) count);
    [lia| |lia|].
Qed.

(** The do-while loop of [scan] and the while loop of [scan_with_cursor]
    gather the same keys once some are asked for. *)
Lemma scan_loop_cursor_loop pattern type_filter count fuel :
  ∀ c keys s, len keys < count →
    scan_loop pattern count fuel type_filter c keys s
    = (let* '(k, _) := cursor_loop pattern type_filter count fuel c keys in
       ret k) s.
Proof.
  induction fuel as [|fuel IH]; intros c keys s Hlt; simpl;
    destruct (Z.ltb_spec (len keys) count); try lia; [done|].
  unfold bind.
  destruct (scan_call c pattern type_filter count s) as [[[c' batch]|e|] s1];
    [|done..].
  destruct (Z.eqb_spec c' 0) as [->|Hne]; simpl; [done|].
  destruct (Z.leb_spec count (len (keys ++ map decode_bytes batch)))
    as [Hge|Hlt'].
  - unfold bind. by rewrite cursor_loop_enough.
  - by apply IH.
Qed.

Lemma scan_loop_fallback_loop pattern type_filter count fuel :
  filtering type_filter = false →
  ∀ c keys s, len keys < count →
    scan_loop pattern count fuel None c keys s
    = (let* '(k, _) := fallback_loop pattern type_filter count fuel c keys in
       ret k) s.
Proof.
  intros Hf. induction fuel as [|fuel IH]; intros c keys s Hlt; simpl;
    destruct (Z.ltb_spec (len keys) count); try lia; [done|].
  rewrite Hf. unfold bind, ret.
  destruct (scan_call c pattern None count s) as [[[c' batch]|e|] s1];
    [|done..].
  destruct (Z.eqb_spec c' 0) as [->|Hne]; simpl; [done|].
  destruct (Z.leb_spec count (len (keys ++ map decode_bytes batch)))
    as [Hge|Hlt'].
  - unfold bind. by rewrite fallback_loop_enough.
  - by apply IH.
Qed.

(** X16. [scan] returns the first page of [scan_with_cursor]: for a positive
    [count], on any transport, both send the same calls and gather the same
    keys, as long as no type filter is set or the first pass does not end in
    a [TypeError] (the two fallbacks filter differently). *)
Theorem scan_is_first_page pattern type_filter count fuel s :
  0 < count →
  filtering type_filter = false
  ∨ (∀ e s0, scan_loop pattern count fuel type_filter 0 [] s = (Raise e, s0) →
             is_TypeError e = false) →
  scan pattern type_filter count fuel s
  = (let* '(keys, _) :=
       scan_with_cursor pattern type_filter count fuel 0 in
     ret keys) s.
Proof.
  intros Hc Hcase.
  assert (len (@nil str) < count) as Hnil by (unfold len; simpl; lia).
  pose proof (scan_loop_cursor_loop pattern type_filter count fuel 0 [] s Hnil)
    as Hfirst.
  unfold scan, scan_with_cursor, wrapped, try_catch, bind in *.
  rewrite Hfirst.
  destruct (cursor_loop pattern type_filter count fuel 0 [] s)
    as [[[k nc]|e|] s1] eqn:Hloop; [done| |done].
  destruct (is_TypeError e) eqn:He; [|done].
  destruct Hcase as [Hf|Hno]; [|by rewrite (Hno e s1 Hfirst) in He].
  rewrite Hf.
  pose proof (scan_loop_fallback_loop pattern type_filter count fuel Hf 0 []
                s1 Hnil) as Hfb.
  unfold bind in Hfb. rewrite Hfb.
  by destruct (fallback_loop pattern type_filter count fuel 0 [] s1)
    as [[[k nc]|e'|] s2].
Qed.
End FirstPage.
(* ===================================================================== *)
(** * What a computation returns                                           *)
(* ===================================================================== *)

Section Returns.
Context {St : Type}.

Lemma returns_ret {A} (P : A → Prop) (a : A) : P a → returns (St := St) P (ret a).
Proof. intros Ha s a' s' [= <- _]. done. Qed.

Lemma returns_raise {A} (P : A → Prop) e : returns (St := St) P (raise e).
Proof. by intros s a s'. Qed.

Lemma returns_bind {A B} (Q : A → Prop) (P : B → Prop) (m : M St A)
    (k : A → M St B) :
  returns Q m → (∀ a, Q a → returns P (k a)) → returns P (bind m k).
Proof.
  intros Hm Hk s b s' (a & s0 & Ha & Hb)%bind_ok.
  by apply (Hk a (Hm _ _ _ Ha) _ _ _ Hb).
Qed.

Lemma returns_try_catch {A} (P : A → Prop) (m : M St A) (h : exn → M St A) :
  returns P m → (∀ e, returns P (h e)) → returns P (try_catch m h).
Proof.
  intros Hm Hh s a s' [Ha|(e & s0 & _ & Ha)]%try_catch_ok.
  - by apply (Hm _ _ _ Ha).
  - by apply (Hh e _ _ _ Ha).
Qed.

Lemma returns_wrapped {A} (P : A → Prop) (m : M St A) :
  returns P m → returns P (wrapped m).
Proof. intros Hm s a s' Ha%wrapped_ok. by apply (Hm _ _ _ Ha). Qed.

Lemma returns_of_option {A} (P : A → Prop) (o : option A) e :
  (∀ a, o = Some a → P a) → returns (St := St) P (of_option o e).
Proof. intros Ho. destruct o; [apply returns_ret; auto|apply returns_raise]. Qed.

Lemma returns_any {A} (m : M St A) : returns (λ _, True) m.
Proof. by intros s a s'. Qed.

Lemma returns_for_each {A B} (I : B → Prop) (l : list A) (f : A → B → M St B)
    (acc : B) :
  (∀ x acc, x ∈ l → I acc → returns I (f x acc)) → I acc →
  returns I (for_each l f acc).
Proof.
  revert acc. induction l as [|x l IH]; intros acc Hf Hacc; simpl.
  - by apply returns_ret.
  - apply (returns_bind I).
    + apply Hf; [by left|done].
    + intros acc' Hacc'. apply IH; [|done].
      intros y acc'' Hy. apply Hf. by right.
Qed.

Lemma call_ok {A} (op : St → reply A * St) (s s' : St) (a : A) :
  call op s = (Ok a, s') → op s = (Reply a, s').
Proof. unfold call. destruct (op s) as [[r|e] s0]; by intros [= <- <-]. Qed.
End Returns.

(* ===================================================================== *)
(** * [scan_with_cursor] invents nothing                                   *)
(* ===================================================================== *)

Section Sound.
Context `{Float} `{!Transport St}.
Variables (pattern : str) (type_filter : option str) (count : Z).
Implicit Types (s : St) (c : Z) (k : str) (kb : bytes).

Lemma Forall_slice_to {A} (P : A → Prop) (n : Z) (l : list A) :
  Forall P l → Forall P (slice_to n l).
Proof. intros Hl. unfold slice_to. destruct (0 <=? n); by apply Forall_take. Qed.

(** The first loop hands on what the scan calls answer. *)
Lemma cursor_loop_returns (Good : str → Prop) (GoodC : Z → Prop) :
  (∀ c s next batch s',
     scan_call c pattern type_filter count s = (Ok (next, batch), s') →
     Forall (λ kb, Good (decode_bytes kb)) batch ∧ GoodC next) →
  ∀ fuel c keys, Forall Good keys → GoodC c →
    returns (λ r, Forall Good r.1 ∧ GoodC r.2)
      (cursor_loop pattern type_filter count fuel c keys).
Proof.
  intros Hscan fuel.
  induction fuel as [|fuel IH]; intros c keys Hkeys Hc; simpl;
    (destruct (len keys <? count); [|by apply returns_ret]).
  - by intros s a s'.
  - apply (returns_bind (λ r, Forall (λ kb, Good (decode_bytes kb)) r.2
                              ∧ GoodC r.1)).
    + intros s [next batch] s' Hcall. by apply Hscan in Hcall as [? ?].
    + intros [next batch] [Hbatch Hnext]. simpl in *.
      assert (Forall Good (keys ++ map decode_bytes batch)) as Hall.
      { apply Forall_app. split; [done|]. by apply Forall_fmap. }
      destruct (next =? 0); [by apply returns_ret|by apply IH].
Qed.

(** [type] answers the decoded reply of the transport. *)
Lemma type_returns k :
  returns (λ t, ∃ s tb s', t_type k s = (Reply tb, s')
                           ∧ t = PyStr (decode_bytes tb)) (type k).
Proof.
  intros s t s' Ht%wrapped_ok.
  apply bind_ok in Ht as (tb & s0 & Hcall%call_ok & [= <- <-]).
  by exists s, tb, s0.
Qed.

(** The post-filter keeps a key only when [type] answered the filter. *)
Lemma type_check_returns (Good : str → Prop) (tf : str) k keys :
  Forall Good keys →
  ((∃ s tb s', t_type k s = (Reply tb, s') ∧ decode_bytes tb = tf) → Good k) →
  returns (Forall Good) (type_check tf k keys).
Proof.
  intros Hkeys Hk. apply returns_try_catch; [|intros e; by apply returns_ret].
  apply (returns_bind _ _ _ _ (type_returns k)).
  intros t (s & tb & s' & Htype & ->). apply returns_ret. simpl.
  unfold str_eqb. case_bool_decide as Heq; [|done].
  apply Forall_app. split; [done|]. apply Forall_singleton, Hk.
  by exists s, tb, s'.
Qed.

(** The loop of the fallback hands on what the unfiltered scan calls
    answer, and under a type filter only what passed the check. *)
Lemma fallback_loop_returns (Good : str → Prop) (GoodC : Z → Prop) :
  (∀ c s next batch s',
     scan_call c pattern None count s = (Ok (next, batch), s') →
     Forall (λ kb,
               (filtering type_filter = true →
                ∃ s tb s', t_type (decode_bytes kb) s = (Reply tb, s')
                           ∧ decode_bytes tb = default [] type_filter) →
               Good (decode_bytes kb)) batch
     ∧ GoodC next) →
  ∀ fuel c keys, Forall Good keys → GoodC c →
    returns (λ r, Forall Good r.1 ∧ GoodC r.2)
      (fallback_loop pattern type_filter count fuel c keys).
Proof.
  intros Hscan fuel.
  induction fuel as [|fuel IH]; intros c keys Hkeys Hc; simpl;
    (destruct (len keys <? count); [|by apply returns_ret]).
  - by intros s a s'.
  - apply (returns_bind
             (λ r, Forall (λ kb,
                     (filtering type_filter = true →
                      ∃ s tb s', t_type (decode_bytes kb) s = (Reply tb, s')
                                 ∧ decode_bytes tb = default [] type_filter) →
                     Good (decode_bytes kb)) r.2 ∧ GoodC r.1)).
    + intros s [next batch] s' Hcall. by apply Hscan in Hcall as [? ?].
    + intros [next batch] [Hbatch Hnext]. simpl in *.
      apply (returns_bind (Forall Good)).
      * destruct (filtering type_filter) eqn:Hf.
        -- apply returns_for_each; [|done].
           intros k acc (kb & -> & Hkb)%list_elem_of_fmap Hacc.
           apply type_check_returns; [done|].
           intros Htype. rewrite Forall_forall in Hbatch.
           by apply (Hbatch kb Hkb).
        -- apply returns_ret, Forall_app. split; [done|].
           apply Forall_fmap. eapply Forall_impl; [exact Hbatch|].
           intros kb Hkb. by apply Hkb.
      * intros keys' Hkeys'.
        destruct (next =? 0); [by apply returns_ret|by apply IH].
Qed.

(** X17. [scan_with_cursor] invents nothing, on any transport. Every key
    of the page it returns is the decoded name of a key that the transport
    answered to a scan call with the given pattern and count: a call with
    the type the client passes on its first path, or (on the fallback) a
    call without a type, and then, under a type filter, a key for which
    [type] answered the filter. The cursor it returns is the one it was
    given or one the transport answered. *)
Theorem scan_with_cursor_sound fuel cursor s s' page nc :
  scan_with_cursor pattern type_filter count fuel cursor s
  = (Ok (page, nc), s') →
  (∀ k, k ∈ page →
     ∃ kb c ty s0 next batch s1,
       k = decode_bytes kb
       ∧ t_scan c pattern count ty s0 = (Reply (next, batch), s1)
       ∧ kb ∈ batch
       ∧ (ty = passed_type type_filter
          ∨ ty = None
            ∧ (filtering type_filter = true →
               ∃ s2 tb s3, t_type k s2 = (Reply tb, s3)
                           ∧ decode_bytes tb = default [] type_filter)))
  ∧ (nc = cursor
     ∨ ∃ c ty s0 batch s1,
         t_scan c pattern count ty s0 = (Reply (nc, batch), s1)).
Proof.
  set (Good := λ k,
         ∃ kb c ty s0 next batch s1,
           k = decode_bytes kb
           ∧ t_scan c pattern count ty s0 = (Reply (next, batch), s1)
           ∧ kb ∈ batch
           ∧ (ty = passed_type type_filter
              ∨ ty = None
                ∧ (filtering type_filter = true →
                   ∃ s2 tb s3, t_type k s2 = (Reply tb, s3)
                               ∧ decode_bytes tb = default [] type_filter))).
  set (GoodC := λ n,
         n = cursor
         ∨ ∃ c ty s0 batch s1,
             t_scan c pattern count ty s0 = (Reply (n, batch), s1)).
  assert (returns (λ r, Forall Good r.1 ∧ GoodC r.2)
            (scan_with_cursor pattern type_filter count fuel cursor)) as Hret.
  { apply returns_try_catch.
    - apply (returns_bind (λ r, Forall Good r.1 ∧ GoodC r.2)).
      + apply cursor_loop_returns; [|done|by left].
        intros c s0 next batch s1 Hcall%call_ok. split.
        * apply Forall_forall. intros kb Hkb.
          exists kb, c, (passed_type type_filter), s0, next, batch, s1.
          split_and!; [done|done|done|by left].
        * right. by exists c, (passed_type type_filter), s0, batch, s1.
      + intros [keys n] [Hkeys Hn]. apply returns_ret. simpl in *.
        split; [by apply Forall_slice_to|done].
    - intros e. destruct (is_TypeError e); [|apply returns_raise].
      apply returns_wrapped.
      apply (returns_bind (λ r, Forall Good r.1 ∧ GoodC r.2)).
      + apply fallback_loop_returns; [|done|by left].
        intros c s0 next batch s1 Hcall%call_ok. split.
        * apply Forall_forall. intros kb Hkb Htype.
          exists kb, c, None, s0, next, batch, s1.
          split_and!; [done|done|done|right; by split].
        * right. by exists c, None, s0, batch, s1.
      + intros [keys n] [Hkeys Hn]. apply returns_ret. simpl in *.
        split; [by apply Forall_slice_to|done]. }
  intros Hrun. destruct (Hret _ _ _ Hrun) as [Hpage Hnc]. simpl in *.
  split; [|done]. intros k Hk. rewrite Forall_forall in Hpage.
  by apply Hpage.
Qed.
End Sound.
(* ===================================================================== *)
(** * [__init__]: what every pool carries                                  *)
(* ===================================================================== *)

Lemma dict_get_pop {K V} `{EqDecision K} (name d : K) (k : list (K * V)) :
  dict_get name (dict_pop d k)
  = if decide (name = d) then None else dict_get name k.
Proof.
  unfold dict_pop. induction k as [|[k' v'] k IH]; simpl; [by case_decide|].
  rewrite filter_cons. simpl. destruct (decide (k' ≠ d)) as [Hne|Heq].
  - simpl. rewrite IH. repeat case_decide; congruence.
  - rewrite IH. apply dec_stable in Heq. repeat case_decide; congruence.
Qed.

Section Pools.
Context `{Float}.
Implicit Types (redis : redis_module) (p : Profile) (kw : kwargs).

Lemma first_accepted_elem redis (l : list kwargs) last_err k :
  first_accepted redis l last_err = Ok k → k ∈ l.
Proof.
  revert last_err. induction l as [|a l IH]; intros last_err; simpl.
  - by destruct last_err.
  - destruct (ConnectionPool redis a) as [e|]; [|intros [= ->]; by left].
    destruct (is_TypeError e); [|done]. intros Hk%IH. by right.
Qed.

Lemma try_pool_elem redis kw (use_ssl_conn : bool) k :
  _try_pool redis kw use_ssl_conn = Ok k → k ∈ attempts kw use_ssl_conn.
Proof.
  unfold _try_pool. destruct (use_ssl_conn && _); [done|].
  apply first_accepted_elem.
Qed.

(** The pool of a client is one of the attempts: a modern one, or a legacy
    one when TLS was asked for. *)
Lemma init_elem redis p c :
  __init__ (Some redis) p = Ok c →
  pool c ∈ attempts (base_kwargs p) false
  ∨ use_ssl p = true ∧ pool c ∈ attempts (base_kwargs p) true.
Proof.
  unfold __init__.
  destruct (_try_pool redis (base_kwargs p) false) as [k|te|] eqn:Hm.
  - intros [= <-]. left. by apply try_pool_elem in Hm.
  - destruct (is_TypeError te); [|done].
    destruct (use_ssl p); [|done]. simpl.
    destruct (mentions "ssl" te || mentions "ssl_context" te); [|done].
    destruct (_try_pool redis (base_kwargs p) true) as [k| |] eqn:Hl;
      [|done..].
    intros [= <-]. right. split; [done|]. by apply try_pool_elem in Hl.
  - done.
Qed.

(** An attempt differs from the full set in the droppable names alone. *)
Lemma attempts_keep kw (use_ssl_conn : bool) a (name : string) :
  a ∈ attempts kw use_ssl_conn →
  name ∉ ["username"; "ssl_context"; "ssl_cert_reqs"; "ssl";
          "connection_class"]%string →
  dict_get name a = dict_get name kw.
Proof.
  intros Ha Hname.
  rewrite !not_elem_of_cons in Hname.
  destruct Hname as (Hu & Hc & Hr & Hs & Hk & _).
  assert (dict_get name (dict_set "connection_class"%string KSSLConnection kw)
          = dict_get name kw) as Hset by (by apply dict_get_set_ne).
  destruct use_ssl_conn.
  - rewrite attempts_legacy in Ha. cbv zeta in Ha.
    rewrite !elem_of_cons in Ha.
    destruct Ha as [->|[->|[->|[->|Ha]]]];
      [| | | |by apply elem_of_nil in Ha];
      rewrite ?dict_get_pop, ?decide_False by done; done.
  - rewrite attempts_modern in Ha. rewrite !elem_of_cons in Ha.
    destruct Ha as [->|[->|[->|[->|[->|Ha]]]]];
      [| | | | |by apply elem_of_nil in Ha];
      rewrite ?dict_get_pop, ?decide_False by done; done.
Qed.

(** X18. However many attempts it takes, the pool a client is built on
    carries the host, port, database, time-out and password the constructor
    was given (the password only when it is not empty) and
    [decode_responses=False]: the retries drop nothing but the user name and
    the TLS parameters. *)
Theorem init_keeps_core_parameters redis p c :
  __init__ (Some redis) p = Ok c →
  dict_get "host"%string (pool c) = Some (KStr (host p))
  ∧ dict_get "port"%string (pool c) = Some (KInt (port p))
  ∧ dict_get "db"%string (pool c) = Some (KInt (db p))
  ∧ dict_get "socket_timeout"%string (pool c) = Some (KFloat (timeout p))
  ∧ dict_get "decode_responses"%string (pool c) = Some (KBool false)
  ∧ dict_get "password"%string (pool c) = KStr <$> truthy (password p).
Proof.
  intros Hc.
  assert (∀ name : string,
            name ∉ ["username"; "ssl_context"; "ssl_cert_reqs"; "ssl";
                    "connection_class"]%string →
            dict_get name (pool c) = dict_get name (base_kwargs p)) as Hkeep.
  { intros name Hname.
    destruct (init_elem redis p c Hc) as [Ha|[_ Ha]];
      by apply (attempts_keep _ _ _ name) in Ha. }
  rewrite !Hkeep by (rewrite !not_elem_of_cons; split_and!;
                     [done..|apply not_elem_of_nil]).
  unfold base_kwargs.
  destruct (truthy (password p)), (truthy (username p)), (use_ssl p); done.
Qed.

(** X19. When TLS is not asked for, the pool carries no TLS flag, context or
    certificate requirement and no connection class, whatever the transport
    refuses. *)
Theorem init_plain_never_tls redis p c :
  use_ssl p = false → __init__ (Some redis) p = Ok c →
  dict_get "ssl"%string (pool c) = None
  ∧ dict_get "ssl_context"%string (pool c) = None
  ∧ dict_get "ssl_cert_reqs"%string (pool c) = None
  ∧ dict_get "connection_class"%string (pool c) = None.
Proof.
  intros Hssl Hc.
  destruct (init_elem redis p c Hc) as [Ha|[Hs _]]; [|congruence].
  assert (∀ name : string,
            name ∈ ["ssl"; "ssl_context"; "ssl_cert_reqs";
                    "connection_class"]%string →
            dict_get name (base_kwargs p) = None) as Hbase.
  { intros name Hname. unfold base_kwargs. rewrite Hssl.
    rewrite !elem_of_cons in Hname.
    destruct Hname as [->|[->|[->|[->|Hn]]]]; [..|by apply elem_of_nil in Hn];
      by destruct (truthy (password p)), (truthy (username p)). }
  assert (∀ name : string,
            dict_get name (base_kwargs p) = None →
            dict_get name (pool c) = None) as Hdrop.
  { intros name Hn. rewrite attempts_modern in Ha. rewrite !elem_of_cons in Ha.
    destruct Ha as [->|[->|[->|[->|[->|Ha]]]]];
      [..|by apply elem_of_nil in Ha];
      rewrite ?dict_get_pop; try case_decide; done. }
  split_and!; apply Hdrop, Hbase; rewrite !elem_of_cons; tauto.
Qed.
End Pools.
(* ===================================================================== *)
(** * [info] and [custom]                                                  *)
(* ===================================================================== *)

Section AdminOutcomes.
Context `{Float} `{!AdminTransport St}.
Implicit Types (s : St).

(** X20. What [info] and [custom] hand to the window is [_b2s] of the
    reply: it holds no [bytes] when the sets of the reply hold none, and a
    reply that is a set ([SMEMBERS], [SINTER], ...) is handed on as it is,
    [bytes] included. [custom] on an empty list of parts fails on
    [parts[0]] before anything is sent, with a [SimpleRedisClientError] like
    every other failure. *)
Theorem custom_outcome (parts : list str) s :
  (∀ v s', info s = (Ok v, s') →
     ∃ r, t_info s = (Reply r, s') ∧ v = _b2s r
          ∧ (sets_bytes_free r = true → bytes_free v = true))
  ∧ (∀ v s', custom parts s = (Ok v, s') →
     ∃ cmd args r,
       parts = cmd :: args
       ∧ t_execute_command cmd args s = (Reply r, s')
       ∧ v = _b2s r
       ∧ (sets_bytes_free r = true → bytes_free v = true)
       ∧ (∀ l, r = PySet l → v = PySet l))
  ∧ (∀ e s', custom parts s = (Raise e, s') →
             (∃ cause, e = SimpleRedisClientError cause)
             ∧ (parts = [] → s' = s)).
Proof.
  split_and!.
  - intros v s' Hr%wrapped_ok.
    apply bind_ok in Hr as (r & s0 & Hcall%call_ok & [= <- <-]).
    exists r. split_and!; [done|done|apply b2s_bytes_left].
  - intros v s' Hr%wrapped_ok. destruct parts as [|cmd args]; [done|].
    apply bind_ok in Hr as (r & s0 & Hcall%call_ok & [= <- <-]).
    exists cmd, args, r.
    split_and!; [done|done|done|apply b2s_bytes_left|by intros l ->].
  - intros e s' (c & -> & Hr)%wrapped_raises. split; [eauto|].
    intros ->. by injection Hr as _ ->.
Qed.
End AdminOutcomes.
(* ===================================================================== *)
(** * JSON: reading back what was written                                  *)
(* ===================================================================== *)

Section QuoteRaw.
Context `{Float}.
Implicit Types (s r t : str).

Lemma below_32 (c : N) : (c < 32)%N → c ∈ (N.of_nat <$> seq 0 32).
Proof.
  intros Hc. apply list_elem_of_fmap. exists (N.to_nat c).
  split; [lia|]. apply list_elem_of_In, in_seq. lia.
Qed.

(** The scanner reads one written character back. *)
Lemma escape_cp_raw_scan (c : N) (x : str) :
  scan_string (escape_cp_raw c ++ x)
  = ('(t, r) ← scan_string x; Some (c :: t, r)).
Proof.
  unfold escape_cp_raw.
  destruct (N.eqb_spec c 34) as [->|H34]; [done|].
  destruct (N.eqb_spec c 92) as [->|H92]; [done|].
  destruct (N.eqb_spec c 10) as [->|H10]; [done|].
  destruct (N.eqb_spec c 13) as [->|H13]; [done|].
  destruct (N.eqb_spec c 9) as [->|H9]; [done|].
  destruct (N.eqb_spec c 8) as [->|H8]; [done|].
  destruct (N.eqb_spec c 12) as [->|H12]; [done|].
  destruct (N.ltb_spec c 32) as [Hlt|Hge].
  - apply below_32 in Hlt. simpl in Hlt.
    repeat (apply elem_of_cons in Hlt as [->|Hlt]; [reflexivity|]).
    by apply elem_of_nil in Hlt.
  - simpl.
    rewrite (proj2 (N.eqb_neq c 34)), (proj2 (N.ltb_ge c 32)),
      (proj2 (N.eqb_neq c 92)) by done.
    done.
Qed.

Lemma json_quote_raw_scan s rest :
  scan_string (concat (map escape_cp_raw s) ++ 34%N :: rest) = Some (s, rest).
Proof.
  induction s as [|c s IH]; simpl; [done|].
  rewrite <- app_assoc, escape_cp_raw_scan. by rewrite IH.
Qed.
End QuoteRaw.

Section Numbers.
Context `{Float}.
Implicit Types (d : Decimal.uint) (rest : str).

Lemma txt_string_of_uint d : txt (NilEmpty.string_of_uint d) = uint_codes d.
Proof. unfold txt. induction d; simpl; [done|by rewrite IHd..]. Qed.

Lemma take_digits_codes d rest :
  ends_number rest = true →
  take_digits (uint_codes d ++ rest) = (uint_codes d, rest).
Proof.
  intros Hr. induction d; simpl; try (by rewrite IHd).
  destruct rest as [|c r]; [done|]. simpl in *.
  by destruct (is_digit c).
Qed.

Lemma digits_val_acc d (p : positive) :
  foldl (λ acc c, acc * 10 + Z.of_N (c - 48)) (Z.pos p) (uint_codes d)
  = Z.pos (Pos.of_uint_acc d p).
Proof.
  revert p. induction d; intros p; simpl; [done|rewrite <- IHd; f_equal; lia..].
Qed.

Lemma digits_val_codes d : digits_val (uint_codes d) = Z.of_N (Pos.of_uint d).
Proof.
  unfold digits_val. induction d; simpl; [done|done|..];
    by rewrite <- digits_val_acc.
Qed.

Lemma nzhead_no_zero d l : Decimal.nzhead d ≠ Decimal.D0 l.
Proof. induction d; simpl; congruence. Qed.

(** The numeral of a positive number does not start with a zero. *)
Lemma to_uint_head (p : positive) :
  ∃ c t, uint_codes (Pos.to_uint p) = c :: t ∧ (49 ≤ c ≤ 57)%N.
Proof.
  pose proof (DecimalPos.Unsigned.of_to p) as Hof.
  pose proof (DecimalN.Unsigned.to_of (Pos.to_uint p)) as Hto.
  unfold N.of_uint in Hto. rewrite Hof in Hto. simpl in Hto.
  pose proof (DecimalPos.Unsigned.to_uint_nonnil p) as Hnil.
  pose proof (DecimalPos.Unsigned.to_uint_nonzero p) as Hzero.
  destruct (Pos.to_uint p) as [|l|l|l|l|l|l|l|l|l|l] eqn:Hp; [done| |..];
    try (eexists _, _; split; [reflexivity|lia]).
  exfalso. unfold Decimal.unorm in Hto. simpl in Hto.
  destruct (Decimal.nzhead l) eqn:Hl; try congruence.
  by eapply nzhead_no_zero.
Qed.

Lemma str_of_Z_pos (p : positive) :
  str_of_Z (Z.pos p) = uint_codes (Pos.to_uint p).
Proof.
  unfold str_of_Z. simpl.
  pose proof (DecimalPos.Unsigned.to_uint_nonnil p).
  unfold NilZero.string_of_uint.
  destruct (Pos.to_uint p); [done|apply txt_string_of_uint..].
Qed.

Lemma str_of_Z_neg (p : positive) :
  str_of_Z (Z.neg p) = 45%N :: uint_codes (Pos.to_uint p).
Proof.
  unfold str_of_Z. simpl.
  pose proof (DecimalPos.Unsigned.to_uint_nonnil p).
  unfold NilZero.string_of_uint. unfold txt. simpl. f_equal.
  destruct (Pos.to_uint p); [done|apply txt_string_of_uint..].
Qed.

Lemma digits_val_to_uint (p : positive) :
  digits_val (uint_codes (Pos.to_uint p)) = Z.pos p.
Proof. by rewrite digits_val_codes, DecimalPos.Unsigned.of_to. Qed.

Lemma ends_number_inv (x : N) (r : str) :
  ends_number (x :: r) = true →
  is_digit x = false ∧ (x =? 46)%N = false ∧ (x =? 101)%N = false
  ∧ (x =? 69)%N = false.
Proof.
  simpl. intros Hx%negb_true_iff.
  repeat (apply orb_false_iff in Hx as [Hx ?]). done.
Qed.

(** The number scanner reads a numeral without leading zero back. *)
Lemma scan_number_codes d (c : N) (t : str) rest (neg : bool) :
  uint_codes d = c :: t → (49 ≤ c ≤ 57)%N → ends_number rest = true →
  scan_number ((if neg then [45%N] else []) ++ uint_codes d ++ rest)
  = Some (JInt (if neg then - digits_val (uint_codes d)
                else digits_val (uint_codes d)), rest).
Proof.
  intros Hd Hc Hr. unfold scan_number.
  assert ((c =? 45)%N = false) as H45 by (apply N.eqb_neq; lia).
  assert ((c =? 48)%N = false) as H48 by (apply N.eqb_neq; lia).
  pose proof (take_digits_codes d rest Hr) as Htake.
  rewrite Hd in *. change ((c :: t) ++ rest) with (c :: t ++ rest) in Htake.
  destruct neg; simpl app; cbv beta iota;
    rewrite ?H45; change (45 =? 45)%N with true; cbv beta iota;
    rewrite H48; rewrite Htake; cbv beta iota zeta;
    (destruct rest as [|x r];
     [done|apply ends_number_inv in Hr as (_ & -> & -> & ->); done]).
Qed.

Lemma scan_number_int (z : Z) rest :
  ends_number rest = true →
  scan_number (str_of_Z z ++ rest) = Some (JInt z, rest).
Proof.
  intros Hr. destruct z as [|p|p].
  - change (str_of_Z 0) with [48%N]. unfold scan_number. simpl.
    destruct rest as [|x r];
      [done|apply ends_number_inv in Hr as (_ & -> & -> & ->); done].
  - rewrite str_of_Z_pos. destruct (to_uint_head p) as (c & t & Hd & Hc).
    pose proof (scan_number_codes _ c t rest false Hd Hc Hr) as Hs.
    simpl app in Hs. by rewrite Hs, digits_val_to_uint.
  - rewrite str_of_Z_neg. destruct (to_uint_head p) as (c & t & Hd & Hc).
    pose proof (scan_number_codes _ c t rest true Hd Hc Hr) as Hs.
    simpl app in Hs. simpl app. by rewrite Hs, digits_val_to_uint.
Qed.

(** A numeral starts with a digit or the minus sign, and a digit follows
    the sign. *)
Lemma str_of_Z_head (z : Z) :
  ∃ c t, str_of_Z z = c :: t
         ∧ (is_digit c = true
            ∨ c = 45%N ∧ ∃ c' t', t = c' :: t' ∧ is_digit c' = true).
Proof.
  destruct z as [|p|p].
  - exists 48%N, []. split; [done|by left].
  - rewrite str_of_Z_pos. destruct (to_uint_head p) as (c & t & -> & Hc).
    exists c, t. split; [done|left].
    apply andb_true_iff; split; apply N.leb_le; lia.
  - rewrite str_of_Z_neg. destruct (to_uint_head p) as (c & t & -> & Hc).
    exists 45%N, (c :: t). split; [done|right]. split; [done|].
    exists c, t. split; [done|].
    apply andb_true_iff; split; apply N.leb_le; lia.
Qed.

Lemma scan_constant_int (z : Z) rest :
  ends_number rest = true →
  scan_constant (str_of_Z z ++ rest) = Some (JInt z, rest).
Proof.
  intros Hr. rewrite <- (scan_number_int z rest Hr).
  destruct (str_of_Z_head z) as (c & t & -> & Hc).
  unfold scan_constant, strip_prefix.
  assert (∀ x, is_digit x = true → (110 =? x)%N = false ∧ (116 =? x)%N = false
               ∧ (102 =? x)%N = false ∧ (78 =? x)%N = false
               ∧ (73 =? x)%N = false ∧ (45 =? x)%N = false) as Hdig.
  { intros x Hx. unfold is_digit in Hx. bool_to_prop.
    split_and!; apply N.eqb_neq; lia. }
  repeat match goal with
         | |- context [txt ?w] =>
             let v := eval vm_compute in (txt w) in change (txt w) with v
         end.
  destruct Hc as [Hc|[-> (c' & t' & -> & Hc')]].
  - destruct (Hdig c Hc) as (H1 & H2 & H3 & H4 & H5 & H6).
    cbn [is_prefix app]. by rewrite H1, H2, H3, H4, H5, H6.
  - destruct (Hdig c' Hc') as (H1 & H2 & H3 & H4 & H5 & H6).
    cbn [is_prefix app]. change (45 =? 45)%N with true.
    change (110 =? 45)%N with false. change (116 =? 45)%N with false.
    change (102 =? 45)%N with false. change (78 =? 45)%N with false.
    change (73 =? 45)%N with false. by rewrite H5.
Qed.
End Numbers.

Section RoundTrip.
Context `{Float}.
Arguments newline_indent : simpl never.
Implicit Types (s r t rest : str) (v : json).

(** Induction on JSON values, through arrays and objects. *)
Lemma json_nested_ind (P : json → Prop) :
  P JNull → (∀ b, P (JBool b)) → (∀ z, P (JInt z)) → (∀ x, P (JFloat x)) →
  (∀ s, P (JStr s)) →
  (∀ l, Forall P l → P (JArr l)) →
  (∀ d, Forall (λ kv, P kv.2) d → P (JObj d)) →
  ∀ v, P v.
Proof.
  intros HN HB HI HF HS HA HO.
  fix IH 1.
  intros [| | | | |l|d]; [exact HN|apply HB|apply HI|apply HF|apply HS|..].
  - apply HA. induction l as [|x l IHl]; constructor; [apply IH|exact IHl].
  - apply HO. induction d as [|[k x] d IHd]; constructor; [apply IH|exact IHd].
Qed.

Lemma skip_ws_head (c : N) t : is_ws c = false → skip_ws (c :: t) = c :: t.
Proof. intros Hc. simpl. by rewrite Hc. Qed.

Lemma ends_number_newline_indent (indent level : nat) s :
  ends_number (newline_indent indent level ++ s) = true.
Proof. done. Qed.

Lemma skip_ws_newline_indent (indent level : nat) s :
  skip_ws (newline_indent indent level ++ s) = skip_ws s.
Proof.
  unfold newline_indent. simpl.
  induction (indent * level)%nat as [|n IH]; simpl; done.
Qed.

(** What is written starts with a character of its own: no white space, no
    closing bracket, no byte-order mark. *)
Lemma json_dumps_indent_head (indent level : nat) v :
  float_free v = true →
  ∃ c t, json_dumps_indent indent level v = c :: t
         ∧ is_ws c = false ∧ is_space c = false
         ∧ c ≠ 93%N ∧ c ≠ 125%N ∧ c ≠ 65279%N.
Proof.
  destruct v as [|[]|z|x|s|l|d]; simpl; intros Hf; try done;
    try (eexists _, _; split; [reflexivity|done]).
  - destruct (str_of_Z_head z) as (c & t & -> & Hc). exists c, t.
    split; [done|].
    assert (48 ≤ c ≤ 57 ∨ c = 45)%N as Hr.
    { destruct Hc as [Hc|[-> _]]; [|by right]. left.
      unfold is_digit in Hc. bool_to_prop. lia. }
    split_and!; try lia.
    + unfold is_ws. repeat (apply orb_false_iff; split); apply N.eqb_neq; lia.
    + unfold is_space, between.
      repeat (apply orb_false_iff; split);
        first [apply N.eqb_neq; lia
              |apply andb_false_iff;
               first [left; apply N.leb_gt; lia|right; apply N.leb_gt; lia]].
  - destruct l; eexists _, _; (split; [reflexivity|done]).
  - destruct d; eexists _, _; (split; [reflexivity|done]).
Qed.

Lemma dict_set_fresh {K V} `{EqDecision K} (k : K) (v : V) (d : list (K * V)) :
  k ∉ map fst d → dict_set k v d = d ++ [(k, v)].
Proof.
  induction d as [|[k' v'] d IH]; simpl; [done|].
  intros [Hne Hd]%not_elem_of_cons. rewrite decide_False by done.
  by rewrite IH.
Qed.

Lemma dict_fold_fresh {K V} `{EqDecision K} (d acc : list (K * V)) :
  NoDup (map fst (acc ++ d)) →
  foldl (λ a kv, dict_set kv.1 kv.2 a) acc d = acc ++ d.
Proof.
  revert acc. induction d as [|[k v] d IH]; intros acc Hnd; simpl.
  - by rewrite app_nil_r.
  - rewrite dict_set_fresh.
    + rewrite IH; rewrite <- app_assoc; done.
    + rewrite map_app in Hnd. apply NoDup_app in Hnd as (_ & Hdis & _).
      intros Hk. apply (Hdis k Hk). simpl. by left.
Qed.

Lemma join_cons2 (sep a b : str) (l : list str) :
  join sep (a :: b :: l) = a ++ sep ++ join sep (b :: l).
Proof. done. Qed.

Lemma join_head (sep : str) (c : N) t (l : list str) :
  ∃ t', join sep ((c :: t) :: l) = c :: t'.
Proof. destruct l; simpl; eauto. Qed.

(** The items of a written array are read back. *)
Lemma scan_items_written (indent level : nat) (l : list json) rest :
  Forall (reads_back indent) l → Forall (λ v, float_free v = true) l →
  l ≠ [] →
  ∀ acc fuel,
    (2 * length (join (txt "," ++ newline_indent indent (S level))
                   (map (json_dumps_indent indent (S level)) l)
                 ++ newline_indent indent level ++ 93%N :: rest) + 2
     ≤ fuel)%nat →
    scan_items fuel
      (join (txt "," ++ newline_indent indent (S level))
         (map (json_dumps_indent indent (S level)) l)
       ++ newline_indent indent level ++ 93%N :: rest) acc
    = Some (acc ++ l, rest).
Proof.
  intros Hall Hfree Hl.
  induction l as [|x l IH]; [done|]. clear Hl.
  apply Forall_cons in Hall as [Hx Hall].
  apply Forall_cons in Hfree as [Hfx Hfree].
  destruct l as [|y l'].
  - intros acc [|fuel] Hf; [lia|]. cbn [join map] in *. cbn [scan_items].
    rewrite (Hx (S level) _ fuel);
      [|apply ends_number_newline_indent|lia].
    cbn [mbind option_bind]. rewrite skip_ws_newline_indent.
    by rewrite skip_ws_head.
  - intros acc [|fuel] Hf; [lia|].
    change (map (json_dumps_indent indent (S level)) (x :: y :: l'))
      with (json_dumps_indent indent (S level) x
            :: map (json_dumps_indent indent (S level)) (y :: l')) in *.
    set (sep := txt "," ++ newline_indent indent (S level)) in *.
    set (more := map (json_dumps_indent indent (S level)) (y :: l')) in *.
    set (tail := newline_indent indent level ++ 93%N :: rest) in *.
    assert (join sep (json_dumps_indent indent (S level) x :: more) ++ tail
            = json_dumps_indent indent (S level) x
              ++ 44%N :: newline_indent indent (S level)
                 ++ join sep more ++ tail) as Htext.
    { subst more. rewrite map_cons, join_cons2. subst sep.
      change (txt ",") with [44%N]. by rewrite <- !app_assoc. }
    rewrite Htext in *. cbn [scan_items].
    rewrite (Hx (S level) _ fuel); [|done|lia].
    cbn [mbind option_bind]. rewrite skip_ws_head by done.
    change (44 =? 93)%N with false. change (44 =? 44)%N with true.
    cbv beta iota. rewrite skip_ws_newline_indent.
    apply Forall_cons in Hfree as [Hfy Hfree'].
    destruct (json_dumps_indent_head indent (S level) y Hfy)
      as (c & t & Hy & Hws & _).
    destruct (join_head sep c t (map (json_dumps_indent indent (S level)) l'))
      as [t' Hj].
    assert (join sep more = c :: t') as Hmore by (subst more; simpl; by rewrite Hy).
    assert (skip_ws (join sep more ++ tail) = join sep more ++ tail) as ->
      by (rewrite Hmore; by apply skip_ws_head).
    rewrite (IH Hall); [by rewrite <- app_assoc| |done|].
    + constructor; done.
    + rewrite length_app in Hf. cbn [length] in Hf.
      rewrite length_app in Hf. lia.
Qed.

Lemma skip_ws_space s : skip_ws (32%N :: s) = skip_ws s.
Proof. done. Qed.

Lemma skip_ws_written (indent level : nat) v s :
  float_free v = true →
  skip_ws (json_dumps_indent indent level v ++ s)
  = json_dumps_indent indent level v ++ s.
Proof.
  intros Hf. destruct (json_dumps_indent_head indent level v Hf)
    as (c & t & -> & Hws & _).
  by apply skip_ws_head.
Qed.

(** One written member, up to what follows its value. *)
Lemma member_text (indent level : nat) (k : str) v s :
  (json_quote_raw k ++ txt ": " ++ json_dumps_indent indent level v) ++ s
  = 34%N :: concat (map escape_cp_raw k)
    ++ 34%N :: 58%N :: 32%N :: json_dumps_indent indent level v ++ s.
Proof.
  unfold json_quote_raw. change (txt ": ") with [58%N; 32%N].
  rewrite <- !app_assoc. done.
Qed.

(** The members of a written object are read back, into a dictionary. *)
Lemma scan_members_written (indent level : nat) (d : list (str * json)) rest :
  Forall (λ kv, reads_back indent kv.2) d →
  Forall (λ kv, float_free kv.2 = true) d →
  d ≠ [] →
  ∀ acc fuel,
    (2 * length
           (join (txt "," ++ newline_indent indent (S level))
              (map (λ kv, json_quote_raw kv.1 ++ txt ": "
                          ++ json_dumps_indent indent (S level) kv.2) d)
            ++ newline_indent indent level ++ 125%N :: rest) + 2
     ≤ fuel)%nat →
    scan_members fuel
      (join (txt "," ++ newline_indent indent (S level))
         (map (λ kv, json_quote_raw kv.1 ++ txt ": "
                     ++ json_dumps_indent indent (S level) kv.2) d)
       ++ newline_indent indent level ++ 125%N :: rest) acc
    = Some (foldl (λ a kv, dict_set kv.1 kv.2 a) acc d, rest).
Proof.
  intros Hall Hfree Hd.
  induction d as [|[k x] d IH]; [done|]. clear Hd.
  apply Forall_cons in Hall as [Hx Hall].
  apply Forall_cons in Hfree as [Hfx Hfree]. simpl in Hx, Hfx.
  set (entry := λ kv : str * json,
         json_quote_raw kv.1 ++ txt ": "
         ++ json_dumps_indent indent (S level) kv.2) in *.
  set (sep := txt "," ++ newline_indent indent (S level)) in *.
  set (tail := newline_indent indent level ++ 125%N :: rest) in *.
  destruct d as [|[k' y] d'].
  - intros acc [|fuel] Hf; [lia|]. cbn [join map] in *.
    unfold entry in *. cbn [fst snd] in *. rewrite member_text in *.
    cbn [scan_members]. change (34 =? 34)%N with true. cbv beta iota.
    rewrite json_quote_raw_scan. cbn [mbind option_bind].
    rewrite skip_ws_head by done. change (58 =? 58)%N with true.
    cbv beta iota. rewrite skip_ws_space, skip_ws_written by done.
    rewrite (Hx (S level) _ fuel).
    + cbn [mbind option_bind]. subst tail.
      rewrite skip_ws_newline_indent. by rewrite skip_ws_head.
    + apply ends_number_newline_indent.
    + cbn [length] in Hf. rewrite length_app in Hf. cbn [length] in Hf. lia.
  - intros acc [|fuel] Hf; [lia|].
    change (map entry ((k, x) :: (k', y) :: d'))
      with (entry (k, x) :: map entry ((k', y) :: d')) in *.
    set (more := map entry ((k', y) :: d')) in *.
    assert (join sep (entry (k, x) :: more) ++ tail
            = 34%N :: concat (map escape_cp_raw k)
              ++ 34%N :: 58%N :: 32%N :: json_dumps_indent indent (S level) x
              ++ 44%N :: newline_indent indent (S level)
                 ++ join sep more ++ tail) as Htext.
    { subst more. rewrite map_cons, join_cons2. subst sep.
      change (txt ",") with [44%N]. rewrite <- !app_assoc.
      unfold entry at 1. cbn [fst snd]. by rewrite member_text. }
    rewrite Htext in *. cbn [scan_members].
    change (34 =? 34)%N with true. cbv beta iota.
    rewrite json_quote_raw_scan. cbn [mbind option_bind].
    rewrite skip_ws_head by done. change (58 =? 58)%N with true.
    cbv beta iota. rewrite skip_ws_space, skip_ws_written by done.
    rewrite (Hx (S level) _ fuel); [|done|].
    2:{ cbn [length] in Hf. rewrite length_app in Hf. cbn [length] in Hf.
        lia. }
    cbn [mbind option_bind]. rewrite skip_ws_head by done.
    change (44 =? 125)%N with false. change (44 =? 44)%N with true.
    cbv beta iota. rewrite skip_ws_newline_indent.
    assert (∃ t', join sep more = 34%N :: t') as [t' Hmore].
    { subst more. rewrite map_cons. unfold entry at 1, json_quote_raw.
      apply join_head. }
    assert (skip_ws (join sep more ++ tail) = join sep more ++ tail) as ->
      by (rewrite Hmore; by apply skip_ws_head).
    rewrite (IH Hall); [done|done|done|].
    cbn [length] in Hf. rewrite length_app in Hf. cbn [length] in Hf.
    rewrite length_app in Hf. cbn [length] in Hf. rewrite length_app in Hf.
    lia.
Qed.

(** Every value without floating-point numbers and with distinct keys is
    read back from its indented text. *)
Lemma json_dumps_indent_reads_back (indent : nat) v :
  float_free v = true → distinct_keys v = true → reads_back indent v.
Proof.
  induction v as [|b|z|x|s|l IH|d IH] using json_nested_ind;
    intros Hfree Hkeys level rest [|fuel] Hr Hf; try lia; try done.
  - by destruct b.
  - pose proof (scan_constant_int z rest Hr) as Hc. cbn [json_dumps_indent].
    destruct (str_of_Z_head z) as (c & t & Hz & Hd). rewrite Hz in *.
    assert (48 ≤ c ≤ 57 ∨ c = 45)%N as Hrange.
    { destruct Hd as [Hd|[-> _]]; [|by right]. left.
      unfold is_digit in Hd. bool_to_prop. lia. }
    change ((c :: t) ++ rest) with (c :: t ++ rest) in *.
    cbn [scan_value].
    rewrite (proj2 (N.eqb_neq c 34)), (proj2 (N.eqb_neq c 123)),
      (proj2 (N.eqb_neq c 91)) by lia.
    done.
  - cbn [json_dumps_indent]. unfold json_quote_raw.
    rewrite <- !app_assoc. cbn [app scan_value].
    change (34 =? 34)%N with true. cbv beta iota.
    by rewrite json_quote_raw_scan.
  - destruct l as [|x l]; [done|].
    cbn [float_free distinct_keys] in Hfree, Hkeys.
    set (sep := txt "," ++ newline_indent indent (S level)).
    set (items := join sep (map (json_dumps_indent indent (S level)) (x :: l))).
    set (tail := newline_indent indent level ++ 93%N :: rest).
    assert (json_dumps_indent indent level (JArr (x :: l)) ++ rest
            = 91%N :: newline_indent indent (S level) ++ items ++ tail)
      as Htext.
    { cbn [json_dumps_indent]. change (txt "[") with [91%N].
      change (txt "]") with [93%N]. by rewrite <- !app_assoc. }
    rewrite Htext in *. cbn [scan_value].
    change (91 =? 34)%N with false. change (91 =? 123)%N with false.
    change (91 =? 91)%N with true. cbv beta iota.
    rewrite skip_ws_newline_indent.
    assert (Forall (λ v, float_free v = true) (x :: l)) as Hfl.
    { apply Forall_forall. intros y Hy.
      by apply (proj1 (forallb_forall _ _) Hfree), list_elem_of_In. }
    assert (Forall (reads_back indent) (x :: l)) as Hreads.
    { apply Forall_forall. intros y Hy. rewrite Forall_forall in IH.
      apply IH; [done|..].
      - rewrite forallb_forall in Hfree. by apply Hfree, list_elem_of_In.
      - rewrite forallb_forall in Hkeys. by apply Hkeys, list_elem_of_In. }
    destruct (json_dumps_indent_head indent (S level) x)
      as (c & t & Hx & Hws & _ & H93 & _).
    { by apply Forall_cons in Hfl as [? _]. }
    destruct (join_head sep c t (map (json_dumps_indent indent (S level)) l))
      as [t' Hj].
    assert (items = c :: t') as Hitems
      by (subst items; rewrite map_cons; by rewrite Hx).
    assert (skip_ws (items ++ tail) = c :: t' ++ tail) as ->
      by (rewrite Hitems; by apply skip_ws_head).
    rewrite (proj2 (N.eqb_neq c 93)) by done.
    change (c :: t' ++ tail) with ((c :: t') ++ tail). rewrite <- Hitems.
    subst items tail sep.
    rewrite (scan_items_written indent level (x :: l) rest Hreads Hfl);
      [done|done|].
    cbn [length] in Hf. rewrite length_app in Hf. lia.
  - destruct d as [|[k x] d]; [done|].
    cbn [float_free distinct_keys] in Hfree, Hkeys.
    apply andb_true_iff in Hkeys as [Hnd Hkeys].
    apply bool_decide_eq_true in Hnd.
    set (entry := λ kv : str * json,
           json_quote_raw kv.1 ++ txt ": "
           ++ json_dumps_indent indent (S level) kv.2).
    set (sep := txt "," ++ newline_indent indent (S level)).
    set (items := join sep (map entry ((k, x) :: d))).
    set (tail := newline_indent indent level ++ 125%N :: rest).
    assert (json_dumps_indent indent level (JObj ((k, x) :: d)) ++ rest
            = 123%N :: newline_indent indent (S level) ++ items ++ tail)
      as Htext.
    { cbn [json_dumps_indent]. change (txt "{") with [123%N].
      change (txt "}") with [125%N]. by rewrite <- !app_assoc. }
    rewrite Htext in *. cbn [scan_value].
    change (123 =? 34)%N with false. change (123 =? 123)%N with true.
    cbv beta iota. rewrite skip_ws_newline_indent.
    assert (Forall (λ kv : str * json, float_free kv.2 = true) ((k, x) :: d))
      as Hfl.
    { apply Forall_forall. intros kv Hkv.
      by apply (proj1 (forallb_forall _ _) Hfree), list_elem_of_In. }
    assert (Forall (λ kv : str * json, reads_back indent kv.2) ((k, x) :: d))
      as Hreads.
    { apply Forall_forall. intros kv Hkv. rewrite Forall_forall in IH.
      apply IH; [done|..].
      - rewrite forallb_forall in Hfree.
        by apply (Hfree kv), list_elem_of_In.
      - rewrite forallb_forall in Hkeys.
        by apply (Hkeys kv), list_elem_of_In. }
    assert (∃ t', items = 34%N :: t') as [t' Hitems].
    { subst items. rewrite map_cons. unfold entry at 1, json_quote_raw.
      apply join_head. }
    assert (skip_ws (items ++ tail) = 34%N :: t' ++ tail) as ->
      by (rewrite Hitems; by apply skip_ws_head).
    change (34 =? 125)%N with false. cbv beta iota.
    change (34%N :: t' ++ tail) with ((34%N :: t') ++ tail).
    rewrite <- Hitems. subst items tail sep entry.
    rewrite (scan_members_written indent level ((k, x) :: d) rest Hreads Hfl);
      [|done|].
    + cbn [mbind option_bind]. by rewrite dict_fold_fresh.
    + cbn [length] in Hf. rewrite length_app in Hf. lia.
Qed.
End RoundTrip.

Section Formatting.
Context `{Float}.
Implicit Types (s r t rest : str) (v : json).

(** A text that does not start with a byte-order mark goes to the
    decoder. *)
Lemma json_loads_no_bom (c : N) t :
  c ≠ 65279%N →
  json_loads (c :: t)
  = match scan_value (2 * length (c :: t) + 2) (skip_ws (c :: t)) with
    | Some (v, r) => if skip_ws r is [] then Some v else None
    | None => None
    end.
Proof.
  intros Hc. unfold json_loads. destruct c as [|p]; [done|].
  do 16 (destruct p as [p|p|]; try done).
Qed.

Lemma json_dumps_indent_loads (indent : nat) v :
  float_free v = true → distinct_keys v = true →
  json_loads (json_dumps_indent indent 0 v) = Some v.
Proof.
  intros Hfree Hkeys.
  destruct (json_dumps_indent_head indent 0 v Hfree)
    as (c & t & Htext & Hws & _ & _ & _ & Hbom).
  pose proof (json_dumps_indent_reads_back indent v Hfree Hkeys 0%nat []
                (2 * length (c :: t) + 2)%nat eq_refl) as Hread.
  rewrite app_nil_r, Htext in Hread.
  rewrite Htext, json_loads_no_bom, skip_ws_head by done.
  by rewrite Hread by lia.
Qed.

Lemma dict_set_fst {V} (k : str) (v : V) (d : list (str * V)) :
  map fst (dict_set k v d)
  = if decide (k ∈ map fst d) then map fst d else map fst d ++ [k].
Proof.
  induction d as [|[k' v'] d IH]; simpl.
  { destruct (decide (k ∈ [])) as [Hin|_]; [by apply elem_of_nil in Hin|done]. }
  destruct (decide (k = k')) as [->|Hne]; simpl.
  - by rewrite decide_True by (by left).
  - rewrite IH. destruct (decide (k ∈ map fst d)) as [Hin|Hout].
    + by rewrite decide_True by (by right).
    + rewrite decide_False; [done|].
      by intros [?|?]%elem_of_cons.
Qed.

Lemma dict_set_NoDup {V} (k : str) (v : V) (d : list (str * V)) :
  NoDup (map fst d) → NoDup (map fst (dict_set k v d)).
Proof.
  intros Hd. rewrite dict_set_fst. case_decide; [done|].
  apply NoDup_app. split_and!; [done| |apply NoDup_singleton].
  by intros x Hx ->%list_elem_of_singleton.
Qed.

Lemma dict_set_forallb {V} (P : V → bool) (k : str) (v : V)
    (d : list (str * V)) :
  forallb (λ kv, P kv.2) d = true → P v = true →
  forallb (λ kv, P kv.2) (dict_set k v d) = true.
Proof.
  intros Hd Hv. induction d as [|[k' v'] d IH]; simpl in *;
    [by rewrite Hv|].
  apply andb_true_iff in Hd as [Hv' Hd].
  destruct (decide (k = k')); simpl; [by rewrite Hv, Hd|].
  by rewrite Hv', IH.
Qed.

(** Keyword and number tokens are scalars. *)
Lemma scan_constant_distinct s v r :
  scan_constant s = Some (v, r) → distinct_keys v = true.
Proof.
  unfold scan_constant.
  repeat (destruct (strip_prefix _ s) as [r0|];
          [first [by intros [= <- _]
                 |destruct (float_of_str _); [by intros [= <- _]|done]]|]).
  unfold scan_number.
  destruct (match s with [] => _ | _ => _ end) as [sign s1].
  destruct (match s1 with [] => _ | _ => _ end) as [ip s2].
  destruct ip as [|i0 ip]; [done|].
  destruct (match s2 with [] => _ | _ => _ end) as [frac s3].
  destruct (match s3 with [] => _ | _ => _ end) as [ex s4].
  destruct frac, ex; [by intros [= <- _]|..];
    (destruct (float_of_str _); [by intros [= <- _]|done]).
Qed.

(** What the decoder builds never names a key twice in an object. *)
Lemma scan_distinct (fuel : nat) :
  (∀ s v r, scan_value fuel s = Some (v, r) → distinct_keys v = true)
  ∧ (∀ s acc l r,
       scan_items fuel s acc = Some (l, r) →
       forallb distinct_keys acc = true → forallb distinct_keys l = true)
  ∧ (∀ s acc d r,
       scan_members fuel s acc = Some (d, r) →
       NoDup (map fst acc) →
       forallb (λ kv, distinct_keys kv.2) acc = true →
       NoDup (map fst d) ∧ forallb (λ kv, distinct_keys kv.2) d = true).
Proof.
  induction fuel as [|f (IHv & IHi & IHm)]; [by split_and!|]. split_and!.
  - intros s v r. simpl. destruct s as [|c s0]; [done|].
    destruct (c =? 34)%N.
    { destruct (scan_string s0) as [[t r']|]; [|done]. by intros [= <- _]. }
    destruct (c =? 123)%N.
    { destruct (skip_ws s0) as [|c' r']; [done|].
      destruct (c' =? 125)%N; [by intros [= <- _]|].
      destruct (scan_members f _ _) as [[d r'']|] eqn:Hm; [|done].
      intros [= <- _]. apply IHm in Hm as [Hnd Hd]; [|apply NoDup_nil_2|done].
      cbn [distinct_keys]. apply andb_true_iff. split; [|done].
      by apply bool_decide_eq_true. }
    destruct (c =? 91)%N.
    { destruct (skip_ws s0) as [|c' r']; [done|].
      destruct (c' =? 93)%N; [by intros [= <- _]|].
      destruct (scan_items f _ _) as [[l r'']|] eqn:Hi; [|done].
      intros [= <- _]. by apply IHi in Hi. }
    apply scan_constant_distinct.
  - intros s acc l r. simpl.
    destruct (scan_value f s) as [[v r0]|] eqn:Hv; [|done]. simpl.
    apply IHv in Hv. destruct (skip_ws r0) as [|c r']; [done|].
    intros Hres Hacc.
    assert (forallb distinct_keys (acc ++ [v]) = true) as Hacc'.
    { rewrite forallb_app, Hacc. simpl. by rewrite Hv. }
    destruct (c =? 93)%N; [by injection Hres as <- _|].
    destruct (c =? 44)%N; [|done]. by apply IHi in Hres.
  - intros s acc d r. simpl. destruct s as [|c s0]; [done|].
    destruct (c =? 34)%N; [|done].
    destruct (scan_string s0) as [[k r1]|]; [|done]. simpl.
    destruct (skip_ws r1) as [|c1 r2]; [done|].
    destruct (c1 =? 58)%N; [|done].
    destruct (scan_value f _) as [[v r3]|] eqn:Hv; [|done]. simpl.
    apply IHv in Hv. destruct (skip_ws r3) as [|c2 r4]; [done|].
    intros Hres Hnd Hacc.
    pose proof (dict_set_NoDup k v acc Hnd) as Hnd'.
    pose proof (dict_set_forallb distinct_keys k v acc Hacc Hv) as Hacc'.
    destruct (c2 =? 125)%N; [by injection Hres as <- _|].
    destruct (c2 =? 44)%N; [|done]. by apply IHm in Hres.
Qed.

Lemma json_loads_inv s v :
  json_loads s = Some v →
  ∃ r, scan_value (2 * length s + 2) (skip_ws s) = Some (v, r)
       ∧ skip_ws r = [].
Proof.
  destruct s as [|c t]; [done|].
  destruct (decide (c = 65279%N)) as [->|Hc]; [done|].
  rewrite json_loads_no_bom by done.
  destruct (scan_value _ _) as [[v' r]|]; [|done].
  destruct (skip_ws r) eqn:Hr; [|done]. intros [= ->]. eauto.
Qed.

Lemma json_loads_distinct s v : json_loads s = Some v → distinct_keys v = true.
Proof.
  intros (r & Hv & _)%json_loads_inv.
  by apply (scan_distinct (2 * length s + 2)) in Hv.
Qed.

Lemma visible_not_space (c : N) :
  (33 ≤ c ≤ 126)%N → is_space c = false.
Proof.
  intros Hc. unfold is_space, between.
  repeat (apply orb_false_iff; split);
    first [apply N.eqb_neq; lia
          |apply andb_false_iff;
           first [left; apply N.leb_gt; lia|right; apply N.leb_gt; lia]].
Qed.

Lemma uint_codes_digits (d : Decimal.uint) :
  Forall (λ c, 48 ≤ c ≤ 57)%N (uint_codes d).
Proof. induction d; simpl; constructor; (lia || done). Qed.

Lemma uint_codes_last (d : Decimal.uint) :
  d ≠ Decimal.Nil →
  ∃ t c, uint_codes d = t ++ [c] ∧ (48 ≤ c ≤ 57)%N.
Proof.
  intros Hd. pose proof (uint_codes_digits d) as Hall.
  assert (uint_codes d ≠ []) as Hne by (by destruct d).
  destruct (uint_codes d) as [|c t] using rev_ind; [done|].
  apply Forall_app in Hall as [_ Hc]. apply Forall_cons in Hc as [Hc _].
  by exists t, c.
Qed.

(** What is written ends with a character of its own. *)
Lemma json_dumps_indent_last (indent level : nat) v :
  float_free v = true →
  ∃ t c, json_dumps_indent indent level v = t ++ [c] ∧ is_space c = false.
Proof.
  destruct v as [|[]|z|x|s|l|d]; intros Hf; try done;
    cbn [json_dumps_indent].
  - by exists (txt "nul"), 108%N.
  - by exists (txt "tru"), 101%N.
  - by exists (txt "fals"), 101%N.
  - destruct z as [|p|p].
    + by exists [], 48%N.
    + rewrite str_of_Z_pos.
      destruct (uint_codes_last (Pos.to_uint p)) as (t & c & -> & Hc);
        [apply DecimalPos.Unsigned.to_uint_nonnil|].
      exists t, c. split; [done|]. apply visible_not_space. lia.
    + rewrite str_of_Z_neg.
      destruct (uint_codes_last (Pos.to_uint p)) as (t & c & -> & Hc);
        [apply DecimalPos.Unsigned.to_uint_nonnil|].
      exists (45%N :: t), c. split; [done|]. apply visible_not_space. lia.
  - by exists (34%N :: concat (map escape_cp_raw s)), 34%N.
  - destruct l as [|x l]; [by exists [91%N], 93%N|].
    change (txt "]") with [93%N]. rewrite !app_assoc. by eexists _, 93%N.
  - destruct d as [|kv d]; [by exists [123%N], 125%N|].
    change (txt "}") with [125%N]. rewrite !app_assoc. by eexists _, 125%N.
Qed.

Lemma strip_fixed s (c c' : N) t t' :
  s = c :: t → s = t' ++ [c'] → is_space c = false → is_space c' = false →
  strip s = s.
Proof.
  intros Hhead Hlast Hc Hc'. unfold strip.
  assert (lstrip s = s) as -> by (rewrite Hhead; simpl; by rewrite Hc).
  rewrite Hlast at 1. rewrite reverse_snoc. simpl. rewrite Hc'.
  rewrite <- reverse_snoc, <- Hlast. apply reverse_involutive.
Qed.

Lemma json_dumps_indent_strip (indent level : nat) v :
  float_free v = true →
  strip (json_dumps_indent indent level v) = json_dumps_indent indent level v.
Proof.
  intros Hf.
  destruct (json_dumps_indent_head indent level v Hf)
    as (c & t & Hhead & _ & Hc & _).
  destruct (json_dumps_indent_last indent level v Hf) as (t' & c' & Hlast & Hc').
  by apply (strip_fixed _ c c' t t').
Qed.

(** X22. [format_json_value] keeps the meaning of the text and is
    idempotent: when the stripped text of the editor is JSON (without
    floating-point numbers), the text put in its place parses to the same
    value, and formatting that text again gives the very same text. *)
Theorem format_json_value_stable (value_text : str) v :
  json_loads (strip value_text) = Some v → float_free v = true →
  ∃ text,
    format_json_value value_text = Some text
    ∧ json_loads text = Some v
    ∧ format_json_value text = Some text.
Proof.
  intros Hv Hfree. pose proof (json_loads_distinct _ _ Hv) as Hkeys.
  exists (json_dumps_indent 2 0 v).
  pose proof (json_dumps_indent_loads 2 v Hfree Hkeys) as Hback.
  destruct (json_dumps_indent_head 2 0 v Hfree) as (c & t & Hhead & _).
  split_and!; [|done|].
  - unfold format_json_value. rewrite Hv.
    by destruct (strip value_text); [|].
  - unfold format_json_value. rewrite json_dumps_indent_strip by done.
    rewrite Hback. by rewrite Hhead.
Qed.
End Formatting.
(* ===================================================================== *)
(** * Reading leaves the key space alone                                   *)
(* ===================================================================== *)

Section ReadOnly.
Context `{Float}.
Implicit Types (s : server).

Lemma same_store_refl s : same_store s s.
Proof. done. Qed.

Lemma same_store_trans s s1 s2 :
  same_store s s1 → same_store s1 s2 → same_store s s2.
Proof. intros [? ?] [? ?]. split; congruence. Qed.

Lemma reads_only_ret {A} (a : A) : reads_only (ret a).
Proof. intros s. apply same_store_refl. Qed.

Lemma reads_only_raise {A} e : reads_only (@raise server A e).
Proof. intros s. apply same_store_refl. Qed.

Lemma reads_only_out_of_fuel {A} : reads_only (@out_of_fuel server A).
Proof. intros s. apply same_store_refl. Qed.

Lemma reads_only_bind {A B} (m : M server A) (k : A → M server B) :
  reads_only m → (∀ a, reads_only (k a)) → reads_only (bind m k).
Proof.
  intros Hm Hk s. unfold bind. specialize (Hm s).
  destruct (m s) as [[a|e|] s1]; simpl in *; [|done..].
  by eapply same_store_trans, Hk.
Qed.

Lemma reads_only_try_catch {A} (m : M server A) (h : exn → M server A) :
  reads_only m → (∀ e, reads_only (h e)) → reads_only (try_catch m h).
Proof.
  intros Hm Hh s. unfold try_catch. specialize (Hm s).
  destruct (m s) as [[a|e|] s1]; simpl in *; [done| |done].
  by eapply same_store_trans, Hh.
Qed.

Lemma reads_only_wrapped {A} (m : M server A) :
  reads_only m → reads_only (wrapped m).
Proof.
  intros Hm. apply reads_only_try_catch; [done|].
  intros e. apply reads_only_raise.
Qed.

Lemma reads_only_of_option {A} (o : option A) e :
  reads_only (@of_option server A o e).
Proof. destruct o; [apply reads_only_ret|apply reads_only_raise]. Qed.

Lemma reads_only_call {A} (op : server → reply A * server) :
  (∀ s, same_store s (op s).2) → reads_only (call op).
Proof.
  intros Hop s. unfold call. specialize (Hop s).
  by destruct (op s) as [[a|e] s1].
Qed.

Lemma reads_only_for_each {A B} (f : A → B → M server B) (l : list A) acc :
  (∀ x a, reads_only (f x a)) → reads_only (for_each l f acc).
Proof.
  intros Hf. revert acc. induction l as [|x l IH]; intros acc; simpl.
  - apply reads_only_ret.
  - by apply reads_only_bind.
Qed.

(** A command that does not touch the table. *)
Lemma exchange_reads {A} c (f : list (bytes * rvalue) → reply A * _) s :
  (∀ t, (f t).2 = t) → same_store s (exchange c f s).2.
Proof.
  intros Hf. unfold exchange. destruct (alive s) eqn:Ha; simpl; [|done].
  split; [done|]. by rewrite received_table, Hf.
Qed.

Lemma encoded_reads {A} (x : str) (k : bytes → server → reply A * server) s :
  (∀ v s0, same_store s0 (k v s0).2) → same_store s (encoded x k s).2.
Proof. intros Hk. unfold encoded. by destruct (utf8_encode x). Qed.

Lemma ping_reads s : same_store s (t_ping s).2.
Proof. by apply exchange_reads. Qed.

Lemma type_reads key s : same_store s (t_type key s).2.
Proof. apply encoded_reads. intros v s0. by apply exchange_reads. Qed.

Lemma get_reads key s : same_store s (t_get key s).2.
Proof. apply encoded_reads. intros v s0. by apply exchange_reads. Qed.

Lemma hgetall_reads key s : same_store s (t_hgetall key s).2.
Proof. apply encoded_reads. intros v s0. by apply exchange_reads. Qed.

Lemma lrange_reads key a z s : same_store s (t_lrange key a z s).2.
Proof. apply encoded_reads. intros v s0. by apply exchange_reads. Qed.

Lemma smembers_reads key s : same_store s (t_smembers key s).2.
Proof. apply encoded_reads. intros v s0. by apply exchange_reads. Qed.

Lemma zrange_reads key a z s :
  same_store s (t_zrange_withscores key a z s).2.
Proof. apply encoded_reads. intros v s0. by apply exchange_reads. Qed.

Lemma xrange_reads key count s : same_store s (t_xrange key count s).2.
Proof.
  apply encoded_reads. intros v s0. destruct (count <? 1); [done|].
  by apply exchange_reads.
Qed.

Lemma scan_reads cursor pattern count type s :
  same_store s (t_scan cursor pattern count type s).2.
Proof.
  simpl. destruct type as [ty|].
  - destruct (scan_type_kw s); [|done].
    apply encoded_reads. intros p s0. apply encoded_reads. intros tb s1.
    by apply exchange_reads.
  - apply encoded_reads. intros p s0. by apply exchange_reads.
Qed.

Lemma reads_only_type key : reads_only (type key).
Proof.
  apply reads_only_wrapped, reads_only_bind.
  - apply reads_only_call, type_reads.
  - intros t. apply reads_only_ret.
Qed.

Lemma reads_only_get_value key max_items : reads_only (get_value key max_items).
Proof.
  apply reads_only_wrapped, reads_only_bind; [apply reads_only_type|].
  intros t. apply reads_only_bind.
  { destruct t; try apply reads_only_ret. apply reads_only_of_option. }
  intros t'. cbv zeta.
  repeat match goal with
         | |- reads_only (if ?b then _ else _) => destruct b
         end;
    try apply reads_only_ret;
    (apply reads_only_bind;
     [apply reads_only_call;
      first [apply get_reads|apply hgetall_reads|apply lrange_reads
            |apply smembers_reads|apply zrange_reads|apply xrange_reads]|]);
    intros r; try apply reads_only_ret.
  all: destruct (_b2s (py_bytes_opt r)); try apply reads_only_ret.
  destruct (json_loads s); apply reads_only_ret.
Qed.

Lemma reads_only_scan_call c pattern tf count :
  reads_only (scan_call c pattern tf count).
Proof. apply reads_only_call. intros s. apply scan_reads. Qed.

Lemma reads_only_type_check tf k keys : reads_only (type_check tf k keys).
Proof.
  apply reads_only_try_catch.
  - apply reads_only_bind; [apply reads_only_type|].
    intros t. apply reads_only_ret.
  - intros e. apply reads_only_ret.
Qed.

Lemma reads_only_scan_loop pattern count fuel tf c keys :
  reads_only (scan_loop pattern count fuel tf c keys).
Proof.
  revert c keys. induction fuel as [|fuel IH]; intros c keys; simpl;
    [apply reads_only_out_of_fuel|].
  apply reads_only_bind; [apply reads_only_scan_call|].
  intros [c' batch]. destruct (_ || _); [apply reads_only_ret|apply IH].
Qed.

Lemma reads_only_cursor_loop pattern tf count fuel c keys :
  reads_only (cursor_loop pattern tf count fuel c keys).
Proof.
  revert c keys. induction fuel as [|fuel IH]; intros c keys; simpl;
    (destruct (len keys <? count); [|apply reads_only_ret]);
    [apply reads_only_out_of_fuel|].
  apply reads_only_bind; [apply reads_only_scan_call|].
  intros [c' batch]. destruct (c' =? 0); [apply reads_only_ret|apply IH].
Qed.

Lemma reads_only_fallback_loop pattern tf count fuel c keys :
  reads_only (fallback_loop pattern tf count fuel c keys).
Proof.
  revert c keys. induction fuel as [|fuel IH]; intros c keys; simpl;
    (destruct (len keys <? count); [|apply reads_only_ret]);
    [apply reads_only_out_of_fuel|].
  apply reads_only_bind; [apply reads_only_scan_call|].
  intros [c' batch]. apply reads_only_bind.
  - destruct (filtering tf); [|apply reads_only_ret].
    apply reads_only_for_each. intros x a. apply reads_only_type_check.
  - intros keys'. destruct (c' =? 0); [apply reads_only_ret|apply IH].
Qed.

Lemma reads_only_scan pattern tf count fuel :
  reads_only (scan pattern tf count fuel).
Proof.
  apply reads_only_try_catch.
  - apply reads_only_bind; [apply reads_only_scan_loop|].
    intros keys. apply reads_only_ret.
  - intros e. destruct (is_TypeError e); [|apply reads_only_raise].
    apply reads_only_wrapped, reads_only_bind; [apply reads_only_scan_loop|].
    intros keys. destruct (filtering tf); [|apply reads_only_ret].
    apply reads_only_bind.
    + apply reads_only_for_each. intros x a. apply reads_only_type_check.
    + intros filtered. apply reads_only_ret.
Qed.

Lemma reads_only_scan_with_cursor pattern tf count fuel c :
  reads_only (scan_with_cursor pattern tf count fuel c).
Proof.
  apply reads_only_try_catch.
  - apply reads_only_bind; [apply reads_only_cursor_loop|].
    intros [keys nc]. apply reads_only_ret.
  - intros e. destruct (is_TypeError e); [|apply reads_only_raise].
    apply reads_only_wrapped, reads_only_bind;
      [apply reads_only_fallback_loop|].
    intros [keys nc]. apply reads_only_ret.
Qed.

(** X23. Reading never writes: on the store, [ping], [type], [get_value],
    [scan] and [scan_with_cursor] leave every key with the value it had,
    whatever they return or raise and on whichever path they run. *)
Theorem reading_keeps_store :
  reads_only ping
  ∧ (∀ key, reads_only (type key))
  ∧ (∀ key max_items, reads_only (get_value key max_items))
  ∧ (∀ pattern type_filter count fuel,
       reads_only (scan pattern type_filter count fuel))
  ∧ (∀ pattern type_filter count fuel cursor,
       reads_only (scan_with_cursor pattern type_filter count fuel cursor)).
Proof.
  split_and!.
  - apply reads_only_wrapped, reads_only_call, ping_reads.
  - apply reads_only_type.
  - apply reads_only_get_value.
  - apply reads_only_scan.
  - apply reads_only_scan_with_cursor.
Qed.
End ReadOnly.
(* ===================================================================== *)
(** * The editor: a value shown, then saved back                           *)
(* ===================================================================== *)

Section Editor.
Context `{Float}.
Implicit Types (s : server) (key : str) (kb : bytes).

Lemma dict_set_same {K V} `{EqDecision K} (k : K) (v : V) (d : list (K * V)) :
  dict_get k d = Some v → dict_set k v d = d.
Proof.
  induction d as [|[k' v'] d IH]; simpl; [done|].
  destruct (decide (k = k')) as [->|Hne]; [by intros [= ->]|].
  intros Hd. by rewrite IH.
Qed.

Lemma hash_update_same (h sub : list (bytes * bytes)) :
  NoDup (map fst h) → sub ⊆ h → hash_update h sub = h.
Proof.
  intros Hnd. unfold hash_update.
  induction sub as [|[f v] sub IH]; intros Hsub; simpl; [done|].
  rewrite dict_set_same.
  - apply IH. intros x Hx. apply Hsub. by right.
  - apply dict_get_NoDup; [done|]. apply Hsub. by left.
Qed.

Lemma json_of_py_strings (l : list str) :
  json_of_py (PyList (map PyStr l)) = Some (JArr (map JStr l)).
Proof.
  simpl. assert (mapM json_of_py (map PyStr l) = Some (map JStr l)) as ->;
    [|done].
  apply mapM_Some. induction l as [|x l IH]; simpl; by constructor.
Qed.

Lemma json_of_py_string_dict (d : list (str * str)) :
  json_of_py (PyDict (map (λ fv, (KeyStr fv.1, PyStr fv.2)) d))
  = Some (JObj (map (λ fv, (fv.1, JStr fv.2)) d)).
Proof.
  simpl.
  match goal with
  | |- JObj <$> ?m = _ =>
      assert (m = Some (map (λ fv : str * str, (fv.1, JStr fv.2)) d)) as ->;
        [|done]
  end.
  apply mapM_Some. induction d as [|[f v] d IH]; simpl; by constructor.
Qed.

Lemma float_free_strings (l : list str) :
  forallb float_free (map JStr l) = true.
Proof. by induction l. Qed.

Lemma distinct_keys_strings (l : list str) :
  forallb distinct_keys (map JStr l) = true.
Proof. by induction l. Qed.

Lemma float_free_string_dict (l : list (str * str)) :
  forallb (λ kv : str * json, float_free kv.2)
    (map (λ fv : str * str, (fv.1, JStr fv.2)) l) = true.
Proof. by induction l. Qed.

Lemma distinct_keys_string_dict (l : list (str * str)) :
  forallb (λ kv : str * json, distinct_keys kv.2)
    (map (λ fv : str * str, (fv.1, JStr fv.2)) l) = true.
Proof. by induction l. Qed.

Lemma decode_fields_NoDup (h : list (bytes * bytes)) :
  NoDup (map fst h) → Forall (λ fv, valid_utf8 fv.1 ∧ valid_utf8 fv.2) h →
  NoDup (map (λ fv, decode_bytes fv.1) h).
Proof.
  intros Hnd Hv. rewrite <- (map_map fst decode_bytes).
  apply NoDup_fmap_2_strong; [|done].
  intros x y Hx Hy. rewrite Forall_forall in Hv.
  apply list_elem_of_fmap in Hx as (fx & -> & Hx).
  apply list_elem_of_fmap in Hy as (fy & -> & Hy).
  apply decode_bytes_inj; [by apply (Hv fx)|by apply (Hv fy)].
Qed.

(** The fields of a hash as [get_value] shows them. *)
Lemma b2s_valid_hash (h : list (bytes * bytes)) :
  NoDup (map fst h) → Forall (λ fv, valid_utf8 fv.1 ∧ valid_utf8 fv.2) h →
  _b2s (py_bytes_dict h)
  = PyDict (map (λ fv, (KeyStr fv.1, PyStr fv.2))
              (map (λ fv, (decode_bytes fv.1, decode_bytes fv.2)) h)).
Proof.
  intros Hnd Hv. rewrite b2s_bytes_dict. f_equal. rewrite map_map. simpl.
  unfold dict_of_pairs. rewrite dict_fold_fresh; [done|].
  simpl. rewrite map_map. simpl.
  rewrite <- (map_map (λ fv, decode_bytes fv.1) KeyStr).
  apply NoDup_fmap_2; [by intros x y [= ->]|].
  by apply decode_fields_NoDup.
Qed.

Lemma encode_decoded_fields (h : list (bytes * bytes)) :
  Forall (λ fv, valid_utf8 fv.1 ∧ valid_utf8 fv.2) h →
  mapM encode_field
    (map (λ kv : str * json, (kv.1, to_text kv.2))
       (map (λ fv : str * str, (fv.1, JStr fv.2))
          (map (λ fv, (decode_bytes fv.1, decode_bytes fv.2)) h)))
  = Some h.
Proof.
  intros Hv. apply mapM_Some.
  induction Hv as [|[f v] h [Hf Hv'] _ IH]; simpl; constructor; [|done].
  unfold encode_field. simpl in *.
  by rewrite !encode_decode_bytes.
Qed.

Lemma encode_decoded_list (l : list bytes) :
  Forall valid_utf8 l →
  mapM utf8_encode (map to_text (map JStr (map decode_bytes l))) = Some l.
Proof.
  intros Hv. apply mapM_Some.
  induction Hv as [|x l Hx _ IH]; simpl; constructor; [|done].
  by apply encode_decode_bytes.
Qed.

(** X24. A hash that is shown in the editor and saved back as it stands is
    not changed: [get_value], the text [execute_get_value] puts in the
    editor, then [set_value] of that text as a hash leave the store with the
    key space it had (for a hash with distinct fields whose names and values
    are valid UTF-8). *)
Theorem hash_shown_then_saved s key kb h max_items :
  alive s = true → utf8_encode key = Some kb →
  dict_get kb (table s) = Some (RHash h) → h ≠ [] →
  NoDup (map fst h) → Forall (λ fv, valid_utf8 fv.1 ∧ valid_utf8 fv.2) h →
  ∃ r s1 text res s2,
    get_value key max_items s = (Ok r, s1)
    ∧ editor_text (vr_value r) = Some text
    ∧ set_value key text (txt "hash") s1 = (Ok res, s2)
    ∧ sr_fields res = Some (len h)
    ∧ table s2 = table s.
Proof.
  intros Ha Hk Hm Hne Hnd Hv.
  set (shown := map (λ fv, (decode_bytes fv.1, decode_bytes fv.2)) h).
  set (d := map (λ fv : str * str, (fv.1, JStr fv.2)) shown).
  pose proof (get_value_hash s key kb h max_items Ha Hk Hm) as Hget.
  pose proof (reads_only_get_value key max_items s) as [Halive Htable].
  destruct (get_value key max_items s) as [r0 s1] eqn:Hrun.
  cbn [fst snd] in Hget, Halive, Htable. subst r0.
  rewrite (b2s_valid_hash h Hnd Hv) in Hrun. fold shown in Hrun.
  assert (float_free (JObj d) = true) as Hfree.
  { apply float_free_string_dict. }
  assert (distinct_keys (JObj d) = true) as Hkeys.
  { simpl. apply andb_true_iff. split.
    - apply bool_decide_eq_true. subst d shown. rewrite !map_map. simpl.
      by apply decode_fields_NoDup.
    - apply distinct_keys_string_dict. }
  assert (d ≠ []) as Hd by (subst d shown; by destruct h).
  eexists _, s1, (json_dumps_indent 2 0 (JObj d)), _, _.
  split_and!; [done| | |..].
  - cbn [vr_value]. rewrite (b2s_valid_hash h Hnd Hv). fold shown.
    unfold editor_text. by rewrite (json_of_py_string_dict shown).
  - apply (set_value_hash_on_server s1 key kb _ d h h); [congruence|done| |done| |].
    + by apply json_dumps_indent_loads.
    + apply encode_decoded_fields, Hv.
    + left. by rewrite Htable.
  - simpl. f_equal. subst d shown. unfold len. by rewrite !length_map.
  - rewrite received_table, Htable, hash_update_same by done.
    by apply dict_set_same.
Qed.

(** X25. A list that is shown in the editor and saved back as it stands
    keeps its first [max_items] elements and loses the rest: [get_value]
    asks for that many only, and [set_value] replaces the key with what it
    is given (for a list of valid UTF-8 elements). *)
Theorem list_shown_then_saved s key kb l max_items :
  alive s = true → utf8_encode key = Some kb →
  dict_get kb (table s) = Some (RList l) → l ≠ [] → 0 < max_items →
  Forall valid_utf8 l →
  ∃ r s1 text res s2,
    get_value key max_items s = (Ok r, s1)
    ∧ editor_text (vr_value r) = Some text
    ∧ set_value key text (txt "list") s1 = (Ok res, s2)
    ∧ dict_get kb (table s2) = Some (RList (take (Z.to_nat max_items) l)).
Proof.
  intros Ha Hk Hm Hne Hmax Hv.
  set (kept := take (Z.to_nat max_items) l).
  pose proof (get_value_list s key kb l max_items Ha Hk Hm ltac:(lia)) as Hget.
  destruct (Z.eqb_spec max_items 0) as [?|_]; [lia|]. fold kept in Hget.
  pose proof (reads_only_get_value key max_items s) as [Halive Htable].
  destruct (get_value key max_items s) as [r0 s1] eqn:Hrun.
  cbn [fst snd] in Hget, Halive, Htable. subst r0.
  assert (kept ≠ []) as Hkept.
  { subst kept. destruct l as [|x l']; [done|].
    destruct (Z.to_nat max_items) eqn:Hn; [lia|done]. }
  assert (Forall valid_utf8 kept) as Hvk.
  { apply Forall_forall. intros x Hx. rewrite Forall_forall in Hv.
    by apply Hv, (subseteq_take (Z.to_nat max_items)). }
  set (items := map JStr (map decode_bytes kept)).
  eexists _, s1, (json_dumps_indent 2 0 (JArr items)), _, _.
  split_and!; [done| | |].
  - cbn [vr_value]. unfold editor_text. by rewrite json_of_py_strings.
  - apply (set_value_list_on_server s1 key kb _ items kept);
      [congruence|done| | |].
    + apply json_dumps_indent_loads; simpl;
        [apply float_free_strings|apply distinct_keys_strings].
    + subst items. by destruct kept.
    + by apply encode_decoded_list.
  - rewrite received_table. apply dict_get_set_eq.
Qed.
End Editor.

(* ===================================================================== *)
(** * The connection form                                                  *)
(* ===================================================================== *)

Lemma lstrip_blank (s : str) : forallb is_space s = true → lstrip s = [].
Proof.
  induction s as [|c s IH]; simpl; [done|].
  intros [Hc Hs]%andb_true_iff. rewrite Hc. by apply IH.
Qed.

(** Text made of white space alone is blank once stripped. *)
Lemma strip_blank (s : str) : forallb is_space s = true → strip s = [].
Proof. intros Hs. unfold strip. by rewrite (lstrip_blank s Hs). Qed.

Section FormFacts.
Context `{Float} `{!Transport St}.
Variables (int : str → option Z) (default_timeout : float).
Implicit Types (f : Form) (s : St) (c : Client).

(** A client comes out of [_get_client] only when the constructor returned
    it and the ping that followed answered [True]. *)
Lemma get_client_inv (redis : option redis_module) (p : Profile) s c s' :
  _get_client redis p s = (Ok (Some c), s') →
  ∃ r, redis = Some r ∧ __init__ (Some r) p = Ok c ∧ ping s = (Ok true, s').
Proof.
  unfold _get_client, try_catch, bind.
  destruct redis as [r|]; [|done].
  destruct (__init__ (Some r) p) as [c0|e|] eqn:Hinit; [| |done].
  - destruct (ping s) as [[[|]|e|] s1] eqn:Hping; simpl.
    + intros [= -> ->]. by exists r.
    + done.
    + by destruct e.
    + done.
  - by destruct e.
Qed.

(** What the retries leave in the pool of a client. *)
Lemma init_pool_keeps (redis : redis_module) (p : Profile) c (name : string) :
  __init__ (Some redis) p = Ok c →
  name ∉ ["username"; "ssl_context"; "ssl_cert_reqs"; "ssl";
          "connection_class"]%string →
  dict_get name (pool c) = dict_get name (base_kwargs p).
Proof.
  intros Hc Hname.
  destruct (init_elem redis p c Hc) as [Ha|[_ Ha]];
    by apply (attempts_keep _ _ _ name) in Ha.
Qed.

(** The user name of a pool is the one of the full parameter set, when the
    pool has one. *)
Lemma init_pool_username (redis : redis_module) (p : Profile) c v :
  __init__ (Some redis) p = Ok c →
  dict_get "username"%string (pool c) = Some v →
  dict_get "username"%string (base_kwargs p) = Some v.
Proof.
  intros Hc Hv.
  assert (∀ (kw a : kwargs) (b : bool),
            a ∈ attempts kw b → dict_get "username"%string a = Some v →
            dict_get "username"%string kw = Some v) as Hdrop.
  { intros kw a b Ha Hu. destruct b.
    - rewrite attempts_legacy in Ha. cbv zeta in Ha.
      rewrite !elem_of_cons in Ha.
      destruct Ha as [->|[->|[->|[->|Ha]]]];
        [| | | |by apply elem_of_nil in Ha];
        rewrite ?dict_get_pop in Hu; try case_decide; try done;
        by rewrite dict_get_set_ne in Hu.
    - rewrite attempts_modern in Ha. rewrite !elem_of_cons in Ha.
      destruct Ha as [->|[->|[->|[->|[->|Ha]]]]];
        [| | | | |by apply elem_of_nil in Ha];
        rewrite ?dict_get_pop in Hu; try case_decide; done. }
  destruct (init_elem redis p c Hc) as [Ha|[_ Ha]]; by eapply Hdrop.
Qed.

(** The user name of the full parameter set is the profile's. *)
Lemma base_kwargs_username (p : Profile) v :
  dict_get "username"%string (base_kwargs p) = Some v →
  KStr <$> truthy (username p) = Some v.
Proof.
  unfold base_kwargs.
  destruct (truthy (password p)), (truthy (username p)), (use_ssl p);
    simpl; try done.
Qed.

(** X26. A client that [_get_client] hands to a handler has answered a
    ping, and its pool is built on the form: the host stripped, the port
    and the database as [int] reads them (the database [0] when the field
    is blank), the password as typed and only when the authentication box
    is checked, and no user name other than the stripped one of a checked
    form. *)
Theorem get_client_form_pool (redis : option redis_module) f s c s' :
  _get_client_form int default_timeout redis f s = (Ok (Some c), s') →
  ping s = (Ok true, s')
  ∧ dict_get "host"%string (pool c) = Some (KStr (strip (host_input f)))
  ∧ dict_get "port"%string (pool c) = KInt <$> int (strip (port_input f))
  ∧ dict_get "db"%string (pool c)
    = KInt <$> int (or_zero (strip (db_input f)))
  ∧ dict_get "socket_timeout"%string (pool c) = Some (KFloat default_timeout)
  ∧ dict_get "password"%string (pool c)
    = (if auth_checkbox f then KStr <$> truthy (Some (pass_input f))
       else None)
  ∧ (∀ u, dict_get "username"%string (pool c) = Some u →
          auth_checkbox f = true ∧ u = KStr (strip (user_input f))
          ∧ strip (user_input f) ≠ []).
Proof.
  unfold _get_client_form.
  destruct (strip (host_input f)) as [|h0 h] eqn:Hhost; [done|].
  destruct (strip (port_input f)) as [|p0 p'] eqn:Hport; [done|].
  destruct (int (or_zero (strip (db_input f)))) as [db|] eqn:Hdb; [|done].
  destruct (int (p0 :: p')) as [port|] eqn:Hp; [|done].
  intros (r & -> & Hinit & Hping)%get_client_inv.
  split; [done|].
  rewrite !(init_pool_keeps r _ c _ Hinit)
    by (rewrite !not_elem_of_cons; split_and!;
        [done..|apply not_elem_of_nil]).
  split_and!;
    try (unfold base_kwargs, truthy; simpl;
         by destruct (auth_checkbox f), (https_checkbox f), (pass_input f),
              (strip (user_input f))).
  intros u Hu%(init_pool_username r _ c u Hinit)%base_kwargs_username.
  simpl in Hu. destruct (auth_checkbox f); [|done].
  destruct (strip (user_input f)) as [|u0 u']; [done|].
  simpl in Hu. injection Hu as <-. done.
Qed.

(** X27. What [_get_client] refuses without sending anything: a host or a
    port of white space alone and a database that [int] rejects give no
    client; a port that [int] rejects raises the [ValueError] of [int],
    which the method does not catch. *)
Theorem get_client_form_refusals (redis : option redis_module) f s :
  (forallb is_space (host_input f) = true
   ∨ forallb is_space (port_input f) = true →
   _get_client_form int default_timeout redis f s = (Ok None, s))
  ∧ (int (or_zero (strip (db_input f))) = None →
     _get_client_form int default_timeout redis f s = (Ok None, s))
  ∧ (strip (host_input f) ≠ [] → strip (port_input f) ≠ [] →
     is_Some (int (or_zero (strip (db_input f)))) →
     int (strip (port_input f)) = None →
     _get_client_form int default_timeout redis f s
     = (Raise (ValueError "invalid literal for int() with base 10"), s)).
Proof.
  unfold _get_client_form. split_and!.
  - intros [Hb%strip_blank|Hb%strip_blank]; rewrite Hb; [done|].
    by destruct (strip (host_input f)).
  - intros ->. by destruct (strip (host_input f)), (strip (port_input f)).
  - intros Hh Hp [db ->] Hport.
    destruct (strip (host_input f)); [done|].
    destruct (strip (port_input f)) eqn:Hpt; [done|]. by rewrite Hport.
Qed.
End FormFacts.

(* ===================================================================== *)
(** * The saved connections                                                *)
(* ===================================================================== *)

Section Saved.
Context `{Float}.
Implicit Types (cs rest : list json) (n : str) (f : Form) (conn : json).

Lemma is_name_true n v : is_name n v = true ↔ v = JStr n.
Proof.
  destruct v; simpl; try (split; [done|by intros [=]]).
  unfold str_eqb. rewrite bool_decide_eq_true. split; [by intros ->|by intros [=]].
Qed.

Lemma is_name_false n v : is_name n v = false ↔ v ≠ JStr n.
Proof.
  rewrite <- not_true_iff_false, is_name_true. done.
Qed.

Lemma conn_name_of_new n f : conn_name_of (new_connection n f) = Ok (JStr n).
Proof. done. Qed.

Lemma connection_names_cons conn cs v :
  conn_name_of conn = Ok v →
  connection_names (conn :: cs) = v :: connection_names cs.
Proof. intros Hv. unfold connection_names. simpl. by rewrite Hv. Qed.

Lemma connection_names_app cs cs' :
  connection_names (cs ++ cs') = connection_names cs ++ connection_names cs'.
Proof. apply omap_app. Qed.

(** The comprehension of [save_connection] succeeds exactly on lists whose
    entries all have a name. *)
Lemma existing_indices_named n i cs :
  all_named cs ↔ ∃ l, existing_indices n i cs = Ok l.
Proof.
  unfold all_named. revert i. induction cs as [|conn cs IH]; intros i; simpl.
  - split; [by eexists|constructor].
  - split.
    + intros [[v Hv] Hcs]%Forall_cons. rewrite Hv.
      apply (IH (S i)) in Hcs as [l ->]. by eexists.
    + intros [l Hl]. destruct (conn_name_of conn) as [v|e|] eqn:Hv; [|done..].
      destruct (existing_indices n (S i) cs) as [l'|e|] eqn:Hcs; [|done..].
      constructor; [by eexists|]. apply (IH (S i)). by eexists.
Qed.

(** No index: no entry has the name. *)
Lemma existing_indices_nil n i cs :
  existing_indices n i cs = Ok [] → JStr n ∉ connection_names cs.
Proof.
  revert i. induction cs as [|conn cs IH]; intros i; cbn [existing_indices].
  - intros _. apply not_elem_of_nil.
  - destruct (conn_name_of conn) as [v|e|] eqn:Hv; [|done..].
    destruct (existing_indices n (S i) cs) as [l'|e|] eqn:Hcs; [|done..].
    destruct (is_name n v) eqn:Hn; [done|]. intros [= ->].
    rewrite (connection_names_cons _ _ v Hv). apply not_elem_of_cons.
    split; [|by apply (IH (S i))].
    apply is_name_false in Hn. congruence.
Qed.

(** The first index is the place of the first entry of that name. *)
Lemma existing_indices_first n i cs j l :
  existing_indices n i cs = Ok (j :: l) →
  ∃ k conn, j = (i + k)%nat ∧ cs !! k = Some conn
            ∧ conn_name_of conn = Ok (JStr n)
            ∧ ∀ k' conn', (k' < k)%nat → cs !! k' = Some conn' →
                          conn_name_of conn' ≠ Ok (JStr n).
Proof.
  revert i. induction cs as [|conn cs IH]; intros i; simpl; [done|].
  destruct (conn_name_of conn) as [v|e|] eqn:Hv; [|done..].
  destruct (existing_indices n (S i) cs) as [l'|e|] eqn:Hcs; [|done..].
  destruct (is_name n v) eqn:Hn.
  - intros [= <- <-]. apply is_name_true in Hn as ->.
    exists 0%nat, conn. split_and!; [lia|done|done|]. intros k' ? Hk'. lia.
  - intros [= ->]. destruct (IH (S i) Hcs) as (k & c & -> & Hk & Hc & Hfirst).
    exists (S k), c. split_and!; [lia|done|done|].
    intros [|k'] conn' Hlt; simpl.
    + intros [= <-]. rewrite Hv. apply is_name_false in Hn. congruence.
    + apply Hfirst. lia.
Qed.

(** Replacing an entry by one of the same name changes no name. *)
Lemma connection_names_insert cs k conn new :
  cs !! k = Some conn → conn_name_of new = conn_name_of conn →
  connection_names (<[k := new]> cs) = connection_names cs.
Proof.
  revert k. induction cs as [|c cs IH]; intros [|k]; simpl; try done.
  - intros [= ->] Hn. unfold connection_names. simpl. by rewrite Hn.
  - intros Hk Hn. unfold connection_names in *. simpl.
    by rewrite (IH k Hk Hn).
Qed.

Lemma all_named_names cs conn :
  all_named cs → conn ∈ cs → ∃ v, conn_name_of conn = Ok v
                                  ∧ v ∈ connection_names cs.
Proof.
  unfold all_named. induction 1 as [|c cs [v Hv] Hcs IH]; [by intros ?%elem_of_nil|].
  rewrite (connection_names_cons _ _ v Hv).
  intros [->|Hin]%elem_of_cons.
  - exists v. split; [done|by left].
  - destruct (IH Hin) as (v' & ? & ?). exists v'. split; [done|by right].
Qed.

(** The comprehension of [delete_connection], where that of
    [save_connection] succeeds. *)
Lemma without_name_ok n m i cs l :
  existing_indices m i cs = Ok l →
  ∃ rest, without_name n cs = Ok rest
          ∧ (JStr n ∉ connection_names rest)
          ∧ (JStr n ∉ connection_names cs → rest = cs).
Proof.
  revert i l. induction cs as [|conn cs IH]; intros i l;
    cbn [existing_indices without_name].
  - intros _. exists []. split_and!; [done|apply not_elem_of_nil|done].
  - destruct (conn_name_of conn) as [v|e|] eqn:Hv; [|done..].
    destruct (existing_indices m (S i) cs) as [l'|e|] eqn:Hcs; [|done..].
    intros _. destruct (IH (S i) l' Hcs) as (rest & -> & Hnot & Hsame).
    rewrite (connection_names_cons _ _ v Hv).
    destruct (is_name n v) eqn:Hn.
    + exists rest. split_and!; [done|done|].
      apply is_name_true in Hn as ->. intros []. by left.
    + exists (conn :: rest). split_and!; [done| |].
      * rewrite (connection_names_cons _ _ v Hv). apply not_elem_of_cons.
        apply is_name_false in Hn. split; [congruence|done].
      * intros [_ Hcs']%not_elem_of_cons. by rewrite Hsame.
Qed.

Lemma without_name_app n cs rest conn v :
  without_name n cs = Ok rest → conn_name_of conn = Ok v →
  without_name n (cs ++ [conn])
  = Ok (rest ++ (if is_name n v then [] else [conn])).
Proof.
  intros Hcs Hv. revert rest Hcs.
  induction cs as [|c cs IH]; intros rest; simpl.
  - intros [= <-]. by rewrite Hv.
  - destruct (conn_name_of c) as [v'|e|]; [|done..].
    destruct (without_name n cs) as [r|e|]; [|done..].
    intros [= <-]. rewrite (IH r eq_refl). by destruct (is_name n v').
Qed.

Lemma without_name_insert n cs k conn new :
  cs !! k = Some conn → conn_name_of conn = Ok (JStr n) →
  conn_name_of new = Ok (JStr n) →
  without_name n (<[k := new]> cs) = without_name n cs.
Proof.
  intros Hk Hc Hnew. revert k Hk.
  induction cs as [|c cs IH]; intros [|k]; simpl; try done.
  - intros [= ->]. rewrite Hc, Hnew.
    destruct (without_name n cs); [|done..].
    by rewrite (proj2 (is_name_true n (JStr n)) eq_refl).
  - intros Hk. by rewrite (IH k Hk).
Qed.

(** What [save_connection] returns on a list of named entries. *)
Lemma save_connection_cases typed f cs :
  all_named cs → strip typed ≠ [] →
  (∃ k conn,
     save_connection typed f cs
     = Ok (SaveUpdated (<[k := new_connection (strip typed) f]> cs))
     ∧ cs !! k = Some conn ∧ conn_name_of conn = Ok (JStr (strip typed))
     ∧ ∀ k' conn', (k' < k)%nat → cs !! k' = Some conn' →
                   conn_name_of conn' ≠ Ok (JStr (strip typed)))
  ∨ save_connection typed f cs
    = Ok (SaveAdded (cs ++ [new_connection (strip typed) f]))
    ∧ JStr (strip typed) ∉ connection_names cs.
Proof.
  intros Hcs Hn. unfold save_connection.
  destruct (strip typed) as [|c0 n] eqn:Hname; [done|].
  destruct (proj1 (existing_indices_named (c0 :: n) 0 cs) Hcs) as [[|j l] Hl];
    rewrite Hl.
  - right. split; [done|]. by apply (existing_indices_nil _ 0).
  - left. destruct (existing_indices_first _ _ _ _ _ Hl)
      as (k & conn & Hj & Hk & Hc & Hfirst).
    simpl in Hj. subst j. by exists k, conn.
Qed.

(** X28. [save_connection] on a list of named entries, under a name that is
    not blank: it never fails; it writes the form over the first entry of
    the stripped name, or appends it when no entry has that name; every
    other entry stays in its place, and the names stay distinct when they
    were. *)
Theorem save_connection_upsert typed f cs :
  all_named cs → strip typed ≠ [] →
  ∃ cs',
    (save_connection typed f cs = Ok (SaveUpdated cs')
     ∧ (JStr (strip typed) ∈ connection_names cs)
     ∧ connection_names cs' = connection_names cs
     ∨ save_connection typed f cs = Ok (SaveAdded cs')
       ∧ (JStr (strip typed) ∉ connection_names cs)
       ∧ connection_names cs' = connection_names cs ++ [JStr (strip typed)])
    ∧ new_connection (strip typed) f ∈ cs'
    ∧ (NoDup (connection_names cs) → NoDup (connection_names cs'))
    ∧ (∀ k conn, cs !! k = Some conn →
                 conn_name_of conn ≠ Ok (JStr (strip typed)) →
                 cs' !! k = Some conn).
Proof.
  intros Hcs Hn.
  destruct (save_connection_cases typed f cs Hcs Hn)
    as [(k & conn & Hsave & Hk & Hc & _)|[Hsave Hnot]].
  - exists (<[k := new_connection (strip typed) f]> cs).
    assert (connection_names (<[k := new_connection (strip typed) f]> cs)
            = connection_names cs) as Hnames.
    { apply (connection_names_insert cs k conn); [done|].
      by rewrite conn_name_of_new. }
    split_and!.
    + left. split_and!; [done| |done].
      destruct (all_named_names cs conn Hcs) as (v & Hv & Hin).
      { by apply list_elem_of_lookup_2 in Hk. }
      congruence.
    + apply list_elem_of_lookup. exists k.
      apply list_lookup_insert_eq. by apply lookup_lt_Some in Hk.
    + by rewrite Hnames.
    + intros k' conn' Hk' Hc'. rewrite list_lookup_insert_ne; [done|].
      intros ->. congruence.
  - exists (cs ++ [new_connection (strip typed) f]).
    assert (connection_names (cs ++ [new_connection (strip typed) f])
            = connection_names cs ++ [JStr (strip typed)]) as Hnames.
    { by rewrite connection_names_app. }
    split_and!.
    + by right.
    + apply elem_of_app. right. by left.
    + rewrite Hnames. intros Hnd. apply NoDup_app. split_and!; [done| |].
      * intros x Hx ->%list_elem_of_singleton. done.
      * apply NoDup_singleton.
    + intros k' conn' Hk' _. by apply lookup_app_l_Some.
Qed.

(** X29. Deleting undoes saving: after [save_connection], whether it added
    an entry or wrote over one, [delete_connection] under the stripped name
    (confirmed) leaves what it would have left before, with no entry of that
    name; after an addition this is the list as it was. *)
Theorem save_then_delete typed f cs cs' :
  save_connection typed f cs = Ok (SaveAdded cs')
  ∨ save_connection typed f cs = Ok (SaveUpdated cs') →
  ∃ rest,
    delete_connection (strip typed) true cs' = Ok (Some rest)
    ∧ delete_connection (strip typed) true cs = Ok (Some rest)
    ∧ (JStr (strip typed) ∉ connection_names rest)
    ∧ (save_connection typed f cs = Ok (SaveAdded cs') → rest = cs).
Proof.
  intros Hsave.
  assert (strip typed ≠ [] ∧ all_named cs) as [Hn Hcs].
  { unfold save_connection in Hsave.
    destruct (strip typed) as [|c0 n]; [by destruct Hsave|]. split; [done|].
    apply (existing_indices_named (c0 :: n) 0).
    destruct (existing_indices (c0 :: n) 0 cs) as [l|e|];
      [by eexists|by destruct Hsave..]. }
  pose proof Hcs as [l Hl]%(existing_indices_named (strip typed) 0).
  destruct (without_name_ok (strip typed) _ _ _ _ Hl)
    as (rest & Hrest & Hnot & Hsame).
  assert (delete_connection (strip typed) true cs = Ok (Some rest)) as Hdel.
  { unfold delete_connection. destruct (strip typed); [done|].
    by rewrite Hrest. }
  exists rest.
  destruct (save_connection_cases typed f cs Hcs Hn)
    as [(k & conn & Hupd & Hk & Hc & _)|[Hadd Hfresh]].
  - destruct Hsave as [Hsave|Hsave]; [congruence|].
    rewrite Hupd in Hsave. injection Hsave as <-. split_and!; [|done|done|].
    + unfold delete_connection. destruct (strip typed) as [|c0 n]; [done|].
      rewrite (without_name_insert _ cs k conn); [by rewrite Hrest|done..].
    + intros Hx. congruence.
  - destruct Hsave as [Hsave|Hsave]; [|congruence].
    rewrite Hadd in Hsave. injection Hsave as <-.
    specialize (Hsame Hfresh) as ->. split_and!; [|done|done|done].
    unfold delete_connection. destruct (strip typed) as [|c0 n] eqn:Hname; [done|].
    rewrite (without_name_app _ cs cs _ (JStr (c0 :: n)) Hrest); [|done].
    rewrite (proj2 (is_name_true (c0 :: n) (JStr (c0 :: n))) eq_refl).
    by rewrite app_nil_r.
Qed.
End Saved.

(* ===================================================================== *)
(** * Every record can be shown                                            *)
(* ===================================================================== *)

Section Shown.
Context `{Float}.

Lemma bytes_free_json (v : pyval) :
  bytes_free v = true → set_free v = true → is_Some (json_of_py v).
Proof.
  induction v as [| | | | | |l IH|l IH|d IH|l _] using pyval_nested_ind;
    simpl; try done; intros Hfree Hsets.
  - assert (is_Some (mapM json_of_py l)) as [l' ->]; [|by eexists].
    induction IH as [|x l Hx _ IHl]; [by eexists|].
    simpl in Hfree, Hsets. apply andb_true_iff in Hfree as [Hfx Hfl].
    apply andb_true_iff in Hsets as [Hsx Hsl].
    destruct (Hx Hfx Hsx) as [x' Hx'], (IHl Hfl Hsl) as [l' Hl'].
    exists (x' :: l'). cbn. rewrite Hx'. cbn. by rewrite Hl'.
  - assert (is_Some (mapM json_of_py l)) as [l' ->]; [|by eexists].
    induction IH as [|x l Hx _ IHl]; [by eexists|].
    simpl in Hfree, Hsets. apply andb_true_iff in Hfree as [Hfx Hfl].
    apply andb_true_iff in Hsets as [Hsx Hsl].
    destruct (Hx Hfx Hsx) as [x' Hx'], (IHl Hfl Hsl) as [l' Hl'].
    exists (x' :: l'). cbn. rewrite Hx'. cbn. by rewrite Hl'.
  - match goal with
    | |- is_Some (JObj <$> ?m) => assert (is_Some m) as [d' ->]; [|by eexists]
    end.
    induction IH as [|[k x] d Hx _ IHd]; [by eexists|].
    simpl in Hfree, Hsets. apply andb_true_iff in Hfree as [Hfx Hfd].
    apply andb_true_iff in Hfx as [Hk Hfx].
    apply andb_true_iff in Hsets as [Hsx Hsd].
    destruct k as [k|k]; simpl in Hk; try done.
    destruct (Hx Hfx Hsx) as [x' Hx'], (IHd Hfd Hsd) as [d' Hd'].
    exists ((k, x') :: d'). cbn. simpl in Hx'. rewrite Hx'. cbn.
    by rewrite Hd'.
Qed.

Lemma py_of_json_showable (j : json) : showable (py_of_json j).
Proof.
  split_and!; [| |by destruct j].
  - induction j as [| | | | |l IH|d IH] using json_nested_ind; simpl; try done.
    + apply forallb_forall. intros x (y & <- & Hy)%in_map_iff.
      rewrite Forall_forall in IH. by apply IH, list_elem_of_In.
    + apply forallb_forall. intros x ([k y] & <- & Hy)%in_map_iff.
      rewrite Forall_forall in IH. simpl.
      by apply (IH (k, y)), list_elem_of_In.
  - induction j as [| | | | |l IH|d IH] using json_nested_ind; simpl; try done.
    + apply forallb_forall. intros x (y & <- & Hy)%in_map_iff.
      rewrite Forall_forall in IH. by apply IH, list_elem_of_In.
    + apply forallb_forall. intros x ([k y] & <- & Hy)%in_map_iff.
      rewrite Forall_forall in IH. simpl.
      by apply (IH (k, y)), list_elem_of_In.
Qed.

Lemma b2s_showable (v : pyval) :
  set_free v = true → (∀ l, v ≠ PyTuple l) → showable (_b2s v).
Proof.
  intros Hsets Hv.
  split_and!; [by apply b2s_bytes_free|by apply b2s_set_free|].
  destruct v; try done. by destruct (Hv l).
Qed.

Lemma set_free_bytes_list (l : list bytes) : set_free (py_bytes_list l) = true.
Proof.
  simpl. apply forallb_forall. by intros x (y & <- & _)%in_map_iff.
Qed.

Lemma set_free_bytes_dict (d : list (bytes * bytes)) :
  set_free (py_bytes_dict d) = true.
Proof.
  simpl. apply forallb_forall. by intros x (y & <- & _)%in_map_iff.
Qed.

Lemma py_sorted_showable (l : list pyval) : showable (py_sorted (PyList l)).
Proof.
  split_and!; [| |done]; simpl; apply forallb_forall;
    by intros x (y & <- & _)%in_map_iff.
Qed.

(** What is shown of a showable value. *)
Lemma showable_editor_text (v : pyval) :
  showable v → is_Some (json_of_py v) ∧ is_Some (editor_text v).
Proof.
  intros (Hfree & Hsets & Htuple).
  pose proof (bytes_free_json v Hfree Hsets) as Hjson.
  split; [done|]. destruct v as [| [|] | | | | |l|l|d|l]; try done.
  - unfold editor_text. destruct Hjson as [j ->]. by eexists.
  - by destruct (Htuple l).
  - unfold editor_text. destruct Hjson as [j ->]. by eexists.
Qed.

Context `{!Transport St}.

Lemma type_returns_text key :
  returns (St := St) (λ t, ∃ text, t = PyStr text) (type key).
Proof.
  apply returns_wrapped, (returns_bind (λ _, True)); [apply returns_any|].
  intros t _. apply returns_ret. by eexists.
Qed.

Lemma get_value_returns key max_items :
  returns (St := St)
    (λ r, vr_key r = key ∧ (∃ text, vr_type r = PyStr text)
          ∧ showable (vr_value r))
    (get_value key max_items).
Proof.
  apply returns_wrapped.
  apply (returns_bind (λ t, ∃ text, t = PyStr text));
    [apply type_returns_text|].
  intros t [text ->].
  apply (returns_bind (λ t, ∃ text, t = PyStr text)).
  { apply returns_ret. by eexists. }
  clear text. intros t [text ->]. cbv zeta.
  assert (∀ v, showable v →
               returns (St := St)
                 (λ r, vr_key r = key ∧ (∃ text, vr_type r = PyStr text)
                       ∧ showable (vr_value r))
                 (ret {| vr_type := PyStr text; vr_key := key;
                         vr_value := v |})) as Hret.
  { intros v Hv. apply returns_ret. split_and!; [done|by eexists|done]. }
  assert (∀ val : option bytes, showable (_b2s (py_bytes_opt val))) as Hopt.
  { intros [x|]; by apply b2s_showable. }
  pose proof set_free_bytes_list as Hlist.
  pose proof set_free_bytes_dict as Hdict.
  repeat case_match;
    try (apply (returns_bind (λ _, True)); [apply returns_any|intros ? _]);
    try apply Hret.
  - match goal with
    | |- context [_b2s (py_bytes_opt ?val)] =>
        pose proof (Hopt val) as Hs; destruct (_b2s (py_bytes_opt val))
    end; try by apply Hret.
    destruct (json_loads s); apply Hret; [apply py_of_json_showable|done].
  - by apply b2s_showable.
  - by apply b2s_showable.
  - apply py_sorted_showable.
  - split_and!; [| |done]; simpl; apply forallb_forall;
      by intros x (y & <- & _)%in_map_iff.
  - apply b2s_showable; [|done]. simpl. apply forallb_forall.
    intros x (y & <- & _)%in_map_iff. simpl. rewrite andb_true_r.
    apply forallb_forall. by intros z (w & <- & _)%in_map_iff.
  - done.
  - apply Hopt.
Qed.

(** X30. Every record [get_value] returns can be shown, on any transport:
    it carries the key it was asked for and a text as its type, its value
    holds no [bytes], so [json.dumps] in [populate_tree] does not raise, and
    the value has a text for the editor. *)
Theorem get_value_shown key max_items (s s' : St) r :
  get_value key max_items s = (Ok r, s') →
  vr_key r = key
  ∧ bytes_free (vr_value r) = true
  ∧ is_Some (results_text r)
  ∧ is_Some (editor_text (vr_value r)).
Proof.
  intros (Hkey & [text Htype] & Hshow)%get_value_returns.
  destruct (showable_editor_text _ Hshow) as [[j Hj] Hedit].
  split_and!; [done|by destruct Hshow as (? & ? & ?)| |done].
  unfold results_text, record_json. rewrite Htype, Hj. by eexists.
Qed.
End Shown.

(* ===================================================================== *)
(** * Worked examples                                                      *)
(* ===================================================================== *)


Lemma hash_round_trip_witness :
  alive empty_store = true
  ∧ dict_get (raw "h1") (table empty_store) = None
  ∧ ∃ s',
      set_value (txt "h1") (quoted "{'a':1,'b':[1,2]}") (txt "hash") empty_store
      = (Ok {| acknowledged := true; operation := txt "HSET";
               sr_key := txt "h1"; sr_fields := Some 2; sr_length := None |}, s')
      ∧ (get_value (txt "h1") 200 s').1
        = Ok {| vr_type := PyStr (txt "hash"); vr_key := txt "h1";
                vr_value := PyDict [(KeyStr (txt "a"), PyStr (txt "1"));
                                    (KeyStr (txt "b"), PyStr (txt "[1, 2]"))] |}.
Proof.
  split; [reflexivity|]. split; [reflexivity|].
  apply (hash_round_trip empty_store 200); reflexivity.
Defined.

Lemma get_value_string_json_witness :
  alive text_store = true
  ∧ utf8_encode (txt "j") = Some (raw "j")
  ∧ dict_get (raw "j") (table text_store) = Some (RString (raw "[1, 2]"))
  ∧ (get_value (txt "j") 200 text_store).1
    = Ok {| vr_type := PyStr (txt "string"); vr_key := txt "j";
            vr_value := PyList [PyInt 1; PyInt 2] |}.
Proof.
  split; [reflexivity|]. split; [reflexivity|]. split; [reflexivity|].
  rewrite (get_value_string_json text_store (txt "j") (raw "j") (raw "[1, 2]") 200);
    reflexivity.
Defined.

Lemma get_value_set_sorted_witness :
  let s := letters_store [raw "pear"; raw "apple"; raw "fig"] in
  alive s = true
  ∧ utf8_encode (txt "k") = Some (raw "k")
  ∧ dict_get (raw "k") (table s) = Some (RSet [raw "pear"; raw "apple"; raw "fig"])
  ∧ ∃ l,
      (get_value (txt "k") 200 s).1
      = Ok {| vr_type := PyStr (txt "set"); vr_key := txt "k";
              vr_value := PyList (map PyStr l) |}
      ∧ StronglySorted str_le l
      ∧ l ≡ₚ map decode_bytes [raw "pear"; raw "apple"; raw "fig"]
      ∧ (∀ s' m', alive s' = true →
                  dict_get (raw "k") (table s') = Some (RSet m') →
                  m' ≡ₚ [raw "pear"; raw "apple"; raw "fig"] →
                  (get_value (txt "k") 200 s').1 = (get_value (txt "k") 200 s).1)
      ∧ (Forall valid_utf8 [raw "pear"; raw "apple"; raw "fig"] →
         NoDup [raw "pear"; raw "apple"; raw "fig"] → NoDup l).
Proof.
  intros s. split; [reflexivity|]. split; [reflexivity|]. split; [reflexivity|].
  apply (get_value_set_sorted s (txt "k") (raw "k")); reflexivity.
Defined.

Lemma set_value_hash_keeps_fields_witness :
  alive hash_store = true
  ∧ utf8_encode (txt "h") = Some (raw "h")
  ∧ (let s' := (set_value (txt "h") (quoted "{'a':1}") (txt "hash") hash_store).2 in
     (s' = hash_store ∨ ∃ fv t', s' = received (HSET (raw "h") fv) t' hash_store)
     ∧ (∀ h f v,
          dict_get (raw "h") (table hash_store) = Some (RHash h) →
          dict_get f h = Some v →
          (∀ d k, json_loads (quoted "{'a':1}") = Some (JObj d) →
                  k ∈ map fst d → utf8_encode k ≠ Some f) →
          ∃ h', dict_get (raw "h") (table s') = Some (RHash h')
                ∧ dict_get f h' = Some v)
     ∧ (∀ l kind,
          json_loads (quoted "{'a':1}") = Some (JArr l) → l ≠ [] →
          kind ∈ [txt "list"; txt "set"] →
          ∃ rest, log (set_value (txt "h") (quoted "{'a':1}") kind hash_store).2
                  = log hash_store ++ DEL (raw "h") :: rest)
     ∧ (∀ l pairs,
          json_loads (quoted "{'a':1}") = Some (JArr l) → l ≠ [] →
          (for_each l zset_pair [] hash_store).1 = Ok pairs →
          ∃ rest,
            log (set_value (txt "h") (quoted "{'a':1}") (txt "zset") hash_store).2
            = log hash_store ++ DEL (raw "h") :: rest)).
Proof.
  split; [reflexivity|]. split; [reflexivity|].
  apply (set_value_hash_keeps_fields hash_store (txt "h") (raw "h")
           (quoted "{'a':1}")); reflexivity.
Defined.

(** The example of C10 run: the field [old] survives the update of [a], and
    the same key written as a list is deleted first. *)
Example set_value_hash_then_list :
  (let s' := (set_value (txt "h") (quoted "{'a':1}") (txt "hash") hash_store).2 in
   dict_get (raw "h") (table s')
   = Some (RHash [(raw "old", raw "1"); (raw "a", raw "1")])
   ∧ log s' = [HSET (raw "h") [(raw "a", raw "1")]])
  ∧ (let s' := (set_value (txt "h") (quoted "['x']") (txt "list") hash_store).2 in
     dict_get (raw "h") (table s') = Some (RList [raw "x"])
     ∧ log s' = [DEL (raw "h"); RPUSH (raw "h") [raw "x"]]).
Proof. cbv zeta. split_and!; reflexivity. Qed.

Lemma init_attempt_order_witness :
  let kw := base_kwargs tls_profile in
  let kc := dict_set "connection_class"%string KSSLConnection kw in
  Forall (unsupported no_context_redis)
    ([kw; dict_pop "username"%string kw; dict_pop "ssl_context"%string kw;
      dict_pop "ssl_cert_reqs"%string kw; dict_pop "ssl"%string kw]
     ++ [kc; dict_pop "username"%string kc; dict_pop "ssl_context"%string kc;
         dict_pop "ssl_cert_reqs"%string kc])
  ∧ __init__ (Some no_context_redis) tls_profile
    = Ok {| pool := dict_pop "ssl_context"%string kw |}.
Proof.
  intros kw kc.
  assert (Forall (unsupported no_context_redis)
            ([kw; dict_pop "username"%string kw; dict_pop "ssl_context"%string kw;
              dict_pop "ssl_cert_reqs"%string kw; dict_pop "ssl"%string kw]
             ++ [kc; dict_pop "username"%string kc;
                 dict_pop "ssl_context"%string kc;
                 dict_pop "ssl_cert_reqs"%string kc])) as Hall.
  { apply forallb_unsupported. reflexivity. }
  split; [exact Hall|].
  exact (init_attempt_order no_context_redis tls_profile Hall).
Defined.

Lemma get_client_checks_liveness_witness :
  (∀ s', t_ping down_store ≠ (Reply true, s'))
  ∧ (_get_client (Some permissive_redis) tls_profile down_store).1 = Ok None
  ∧ (∀ te s', t_ping down_store = (Fail te, s') →
              ping down_store
              = (Raise (SimpleRedisClientError (FromTransport te)), s')).
Proof.
  assert (∀ s', t_ping down_store ≠ (Reply true, s')) as Hdown.
  { intros s'. discriminate. }
  split; [exact Hdown|].
  exact (get_client_checks_liveness (Some permissive_redis) tls_profile
           down_store Hdown).
Defined.

Lemma scan_with_cursor_page_witness :
  alive users_store = true
  ∧ utf8_encode (txt "user:*") = Some (raw "user:*")
  ∧ native_type users_store None None
  ∧ 0 < 2 ∧ 0 ≤ 2
  ∧ ∃ cs keys nc,
      page_run (store_reply (table users_store) (raw "user:*") 2 None) 2 2 []
        cs keys nc
      ∧ head cs = Some 2
      ∧ (∀ fuel, (length (table users_store) < fuel)%nat →
           scan_with_cursor (txt "user:*") None 2 fuel 2 users_store
           = (Ok (take (Z.to_nat 2) keys, nc),
              scanned (raw "user:*") 2 None cs users_store))
      ∧ len (take (Z.to_nat 2) keys) ≤ 2
      ∧ (nc ≠ 0 → len (take (Z.to_nat 2) keys) = 2)
      ∧ (nc = 0 ∨ 2 ≤ len keys).
Proof.
  split; [reflexivity|]. split; [reflexivity|]. split; [reflexivity|].
  split; [lia|]. split; [lia|].
  apply (scan_with_cursor_page users_store (txt "user:*") (raw "user:*")
           None None 2 2); [reflexivity|reflexivity|reflexivity|lia|lia].
Defined.

Lemma scan_with_cursor_walk_witness :
  let keys := [txt "a"; txt "b"; txt "c"; txt "d"] in
  let calls := scan_calls (txt "*") 3 None [0; 17; 5] in
  0 < 3
  ∧ page_run (page_at sample_pager (txt "*") 3 (passed_type None)) 3
      0 [] [0; 17; 5] keys 9
  ∧ head [0; 17; 5] = Some 0
  ∧ (∀ fuel, (3 ≤ fuel)%nat →
       scan_with_cursor (txt "*") None 3 fuel 0 sample_pager
       = (Ok ([txt "a"; txt "b"; txt "c"], 9), asked_more calls sample_pager))
  ∧ len [txt "a"; txt "b"; txt "c"] ≤ 3
  ∧ (9 ≠ 0 → len [txt "a"; txt "b"; txt "c"] = 3)
  ∧ (9 = 0 ∨ 3 ≤ len keys).
Proof.
  intros keys calls.
  assert (page_run (page_at sample_pager (txt "*") 3 (passed_type None)) 3
            0 [] [0; 17; 5] keys 9) as Hrun.
  { apply (run_next _ _ 0 [] 17 [raw "a"]);
      [reflexivity|reflexivity|discriminate|].
    apply (run_next _ _ 17 _ 5 []);
      [reflexivity|reflexivity|discriminate|].
    apply (run_next _ _ 5 _ 9 [raw "b"; raw "c"; raw "d"]);
      [reflexivity|reflexivity|discriminate|].
    apply run_enough. discriminate. }
  split; [lia|]. split; [exact Hrun|].
  apply (scan_with_cursor_walk sample_pager (txt "*") None 3 0 [0; 17; 5]
           keys 9); [lia|exact Hrun].
Defined.

(* ===================================================================== *)
(** * Where the code departs from the specification                        *)
(* ===================================================================== *)

(** C2, counterexample. The store does not answer the ping, yet the
    constructor returns a client: it sends nothing. *)
Lemma init_without_ping :
  t_ping down_store
  = (Fail (T_ConnectionError "Connection refused"), down_store)
  ∧ __init__ (Some permissive_redis) tls_profile
    = Ok {| pool := base_kwargs tls_profile |}.
Proof. split; reflexivity. Qed.

(** C6. The drops are not progressive. The transport takes the parameter
    set without user name and TLS context, the third of the progressively
    reduced sets, yet every attempt of the factory is rebuilt from the full
    set and still carries one of the two: the constructor fails although a
    set the transport accepts exists. *)
Theorem init_drops_are_not_cumulative :
  ConnectionPool old_redis
    (without (base_kwargs tls_profile) ["username"; "ssl_context"]%string) = None
  ∧ __init__ (Some old_redis) tls_profile
    = Raise (SimpleRedisClientError
               (TypeError "got an unexpected keyword argument 'username'")).
Proof. split; reflexivity. Qed.

(** C7, counterexample. Two distinct members that are not valid UTF-8 both
    decode to the replacement character, and the payload holds it twice. *)
Lemma get_value_set_not_unique :
  NoDup [[255%N]; [254%N]]
  ∧ (get_value (txt "k") 200 binary_set_store).1
    = Ok {| vr_type := PyStr (txt "set"); vr_key := txt "k";
            vr_value := PyList [PyStr [65533%N]; PyStr [65533%N]] |}
  ∧ ¬ NoDup [[65533%N]; [65533%N]].
Proof.
  split_and!.
  - apply NoDup_cons. split; [|apply NoDup_singleton].
    by intros [[=]|[]%elem_of_nil]%elem_of_cons.
  - reflexivity.
  - intros [Hn _]%NoDup_cons. apply Hn. by left.
Qed.

(** C1. A key space of four keys, three of which match [user:*], scanned
    with [count = 2]: the store's own walk returns the three, in a batch of
    one and a batch of two; [scan_with_cursor] cuts the gathered keys to
    two, returns cursor [0], and [user:3] is in no page. *)
Theorem scan_with_cursor_drops_key :
  (t_scan 0 (txt "user:*") 2 None users_store).1 = Reply (2, [raw "user:1"])
  ∧ (t_scan 2 (txt "user:*") 2 None users_store).1
    = Reply (0, [raw "user:2"; raw "user:3"])
  ∧ (scan_with_cursor (txt "user:*") None 2 5 0 users_store).1
    = Ok ([txt "user:1"; txt "user:2"], 0)
  ∧ glob (raw "user:*") (raw "user:3") = true.
Proof. split_and!; reflexivity. Qed.

(** C3. One string and one hash, filter [hash], [count = 1]: with the
    native filter [scan] returns the hash; on the fallback path it stops
    gathering after the first unfiltered key and the check that follows
    leaves nothing. The fallback of [scan_with_cursor], which checks inside
    the loop, agrees with its native path. *)
Theorem scan_fallback_differs :
  (scan (txt "*") (Some (txt "hash")) 1 5 (mixed_store true)).1 = Ok [txt "h1"]
  ∧ (scan (txt "*") (Some (txt "hash")) 1 5 (mixed_store false)).1 = Ok []
  ∧ (scan_with_cursor (txt "*") (Some (txt "hash")) 1 5 0 (mixed_store true)).1
    = Ok ([txt "h1"], 0)
  ∧ (scan_with_cursor (txt "*") (Some (txt "hash")) 1 5 0 (mixed_store false)).1
    = Ok ([txt "h1"], 0).
Proof. split_and!; reflexivity. Qed.

(* ===================================================================== *)
(** * Worked examples for the rest of the client                          *)
(* ===================================================================== *)

Lemma b2s_leaves_no_bytes_witness :
  let reply := PyList [PyBytes (raw "a");
                       PyDict [(KeyBytes (raw "f"), PyTuple [PyBytes (raw "v")])];
                       PySet [PyStr (txt "m")]] in
  sets_bytes_free reply = true
  ∧ bytes_free (_b2s reply) = true
  ∧ _b2s (PySet [PyBytes (raw "m")]) = PySet [PyBytes (raw "m")]
  ∧ bytes_free (_b2s (PySet [PyBytes (raw "m")])) = false.
Proof.
  intros reply. split; [reflexivity|]. split.
  - destruct (b2s_leaves_no_bytes reply) as [Hfree _]. apply Hfree. reflexivity.
  - destruct (b2s_leaves_no_bytes (PySet [PyBytes (raw "m")])) as [_ Hset].
    destruct (Hset [PyBytes (raw "m")] eq_refl) as [Hsame Hbytes].
    split; [exact Hsame|]. rewrite Hbytes. reflexivity.
Defined.

Lemma b2s_inverts_encode_witness :
  utf8_encode [99; 108; 233; 8364]%N
  = Some [99; 108; 195; 169; 226; 130; 172]%N
  ∧ _b2s (PyBytes [99; 108; 195; 169; 226; 130; 172]%N)
    = PyStr [99; 108; 233; 8364]%N.
Proof.
  split; [reflexivity|].
  apply (b2s_inverts_encode [99; 108; 233; 8364]%N). reflexivity.
Defined.

Lemma get_value_missing_key_witness :
  alive users_store = true
  ∧ utf8_encode (txt "nobody") = Some (raw "nobody")
  ∧ dict_get (raw "nobody") (table users_store) = None
  ∧ get_value (txt "nobody") 200 users_store
    = (Ok {| vr_type := PyStr (txt "none"); vr_key := txt "nobody";
             vr_value := PyNone |},
       received (TYPE (raw "nobody")) (table users_store) users_store).
Proof.
  split; [reflexivity|]. split; [reflexivity|]. split; [reflexivity|].
  apply (get_value_missing_key users_store (txt "nobody") (raw "nobody") 200);
    reflexivity.
Defined.

Lemma get_value_list_window_witness :
  alive list_store = true
  ∧ utf8_encode (txt "l") = Some (raw "l")
  ∧ dict_get (raw "l") (table list_store)
    = Some (RList [raw "a"; raw "b"; raw "c"])
  ∧ 0 ≤ 2
  ∧ (get_value (txt "l") 2 list_store).1
    = Ok {| vr_type := PyStr (txt "list"); vr_key := txt "l";
            vr_value := PyList [PyStr (txt "a"); PyStr (txt "b")] |}.
Proof.
  split; [reflexivity|]. split; [reflexivity|]. split; [reflexivity|].
  split; [lia|].
  apply (get_value_list_window list_store (txt "l") (raw "l")
           [raw "a"; raw "b"; raw "c"] 2); [reflexivity..|lia].
Defined.

Lemma get_value_zset_window_witness :
  alive zset_store = true
  ∧ utf8_encode (txt "z") = Some (raw "z")
  ∧ dict_get (raw "z") (table zset_store)
    = Some (RZSet [(raw "low", 1); (raw "mid", 2); (raw "top", 3)])
  ∧ 0 < 2
  ∧ (get_value (txt "z") 2 zset_store).1
    = Ok {| vr_type := PyStr (txt "zset"); vr_key := txt "z";
            vr_value := PyList [PyList [PyStr (txt "low"); PyFloat 1];
                                PyList [PyStr (txt "mid"); PyFloat 2]] |}.
Proof.
  split; [reflexivity|]. split; [reflexivity|]. split; [reflexivity|].
  split; [lia|].
  apply (get_value_zset_window zset_store (txt "z") (raw "z")
           [(raw "low", 1); (raw "mid", 2); (raw "top", 3)] 2);
    [reflexivity..|lia].
Defined.

Lemma get_value_type_failure_witness :
  t_type (txt "k") down_store
  = (Fail (T_ConnectionError "Connection refused"), down_store)
  ∧ ∃ e, get_value (txt "k") 200 down_store
         = (Raise (SimpleRedisClientError e), down_store)
         ∧ exn_str (SimpleRedisClientError e)
           = exn_str (FromTransport (T_ConnectionError "Connection refused")).
Proof.
  split; [reflexivity|].
  apply (get_value_type_failure (txt "k") 200 down_store down_store).
  reflexivity.
Defined.

Lemma set_value_string_round_trip_witness :
  alive hash_store = true
  ∧ utf8_encode (txt "h") = Some (raw "h")
  ∧ utf8_encode (quoted "{'n': [1, 2]}") = Some (quoted "{'n': [1, 2]}")
  ∧ ∃ s',
      set_value (txt "h") (quoted "{'n': [1, 2]}") (txt "string") hash_store
      = (Ok {| acknowledged := true; operation := txt "SET";
               sr_key := txt "h"; sr_fields := None; sr_length := None |}, s')
      ∧ log s' = log hash_store ++ [SET (raw "h") (quoted "{'n': [1, 2]}")]
      ∧ (get_value (txt "h") 200 s').1
        = Ok {| vr_type := PyStr (txt "string"); vr_key := txt "h";
                vr_value :=
                  match json_loads (quoted "{'n': [1, 2]}") with
                  | Some parsed => py_of_json parsed
                  | None => PyStr (quoted "{'n': [1, 2]}")
                  end |}.
Proof.
  split; [reflexivity|]. split; [reflexivity|]. split; [reflexivity|].
  apply (set_value_string_round_trip hash_store (txt "h") (raw "h")
           (quoted "{'n': [1, 2]}") (quoted "{'n': [1, 2]}") 200);
    reflexivity.
Defined.

Lemma set_value_list_round_trip_witness :
  alive hash_store = true
  ∧ utf8_encode (txt "h") = Some (raw "h")
  ∧ json_loads (quoted "['x', 2, [3]]")
    = Some (JArr [JStr (txt "x"); JInt 2; JArr [JInt 3]])
  ∧ [JStr (txt "x"); JInt 2; JArr [JInt 3]] ≠ []
  ∧ mapM utf8_encode (map to_text [JStr (txt "x"); JInt 2; JArr [JInt 3]])
    = Some [raw "x"; raw "2"; raw "[3]"]
  ∧ ∃ s',
      set_value (txt "h") (quoted "['x', 2, [3]]") (txt "list") hash_store
      = (Ok {| acknowledged := true; operation := txt "RPUSH";
               sr_key := txt "h"; sr_fields := None; sr_length := Some 3 |}, s')
      ∧ log s' = log hash_store
                 ++ [DEL (raw "h"); RPUSH (raw "h") [raw "x"; raw "2"; raw "[3]"]]
      ∧ (get_value (txt "h") 200 s').1
        = Ok {| vr_type := PyStr (txt "list"); vr_key := txt "h";
                vr_value := PyList [PyStr (txt "x"); PyStr (txt "2");
                                    PyStr (txt "[3]")] |}.
Proof.
  split; [reflexivity|]. split; [reflexivity|]. split; [reflexivity|].
  split; [discriminate|]. split; [reflexivity|].
  apply (set_value_list_round_trip hash_store (txt "h") (raw "h")
           (quoted "['x', 2, [3]]") [JStr (txt "x"); JInt 2; JArr [JInt 3]]
           [raw "x"; raw "2"; raw "[3]"] 200);
    [reflexivity|reflexivity|reflexivity|discriminate|reflexivity|].
  unfold len. simpl. lia.
Defined.

Lemma set_value_set_round_trip_witness :
  alive hash_store = true
  ∧ utf8_encode (txt "h") = Some (raw "h")
  ∧ json_loads (quoted "['b', 'a', 'b']")
    = Some (JArr [JStr (txt "b"); JStr (txt "a"); JStr (txt "b")])
  ∧ mapM utf8_encode (map to_text [JStr (txt "b"); JStr (txt "a"); JStr (txt "b")])
    = Some [raw "b"; raw "a"; raw "b"]
  ∧ ∃ s' m,
      set_value (txt "h") (quoted "['b', 'a', 'b']") (txt "set") hash_store
      = (Ok {| acknowledged := true; operation := txt "SADD";
               sr_key := txt "h"; sr_fields := None; sr_length := Some 3 |}, s')
      ∧ (get_value (txt "h") 200 s').1
        = Ok {| vr_type := PyStr (txt "set"); vr_key := txt "h";
                vr_value := PyList (map PyStr m) |}
      ∧ StronglySorted str_le m ∧ NoDup m
      ∧ ∀ x, x ∈ m
             ↔ x ∈ map to_text [JStr (txt "b"); JStr (txt "a"); JStr (txt "b")].
Proof.
  split; [reflexivity|]. split; [reflexivity|]. split; [reflexivity|].
  split; [reflexivity|].
  apply (set_value_set_round_trip hash_store (txt "h") (raw "h")
           (quoted "['b', 'a', 'b']")
           [JStr (txt "b"); JStr (txt "a"); JStr (txt "b")]
           [raw "b"; raw "a"; raw "b"] 200);
    [reflexivity|reflexivity|reflexivity|discriminate|reflexivity].
Defined.

Lemma set_value_replace_loses_key_witness :
  alive list_store = true
  ∧ utf8_encode (txt "l") = Some (raw "l")
  ∧ json_loads (quoted "['fine', '\ud800']")
    = Some (JArr [JStr (txt "fine"); JStr [55296%N]])
  ∧ mapM utf8_encode (map to_text [JStr (txt "fine"); JStr [55296%N]]) = None
  ∧ ∃ s',
      set_value (txt "l") (quoted "['fine', '\ud800']") (txt "list") list_store
      = (Raise (SimpleRedisClientError (FromTransport T_UnicodeEncodeError)), s')
      ∧ log s' = log list_store ++ [DEL (raw "l")]
      ∧ dict_get (raw "l") (table s') = None.
Proof.
  split; [reflexivity|]. split; [reflexivity|]. split; [reflexivity|].
  split; [reflexivity|].
  apply (set_value_replace_loses_key list_store (txt "l") (raw "l")
           (quoted "['fine', '\ud800']") (txt "list")
           [JStr (txt "fine"); JStr [55296%N]]);
    [reflexivity|reflexivity|by left|reflexivity|discriminate|reflexivity].
Defined.

Lemma set_value_empty_array_witness :
  json_loads (txt " [ ] ") = Some (JArr [])
  ∧ lower (txt "ZSet") = txt "zset"
  ∧ ∃ op,
      set_value (txt "l") (txt " [ ] ") (txt "ZSet") list_store
      = (Ok {| acknowledged := true; operation := op; sr_key := txt "l";
               sr_fields := None; sr_length := Some 0 |}, list_store).
Proof.
  split; [reflexivity|]. split; [reflexivity|].
  apply (set_value_empty_array (txt "l") (txt " [ ] ") (txt "ZSet") list_store);
    [reflexivity|]. right. right. reflexivity.
Defined.

Lemma client_raises_client_errors_witness :
  ping down_store
  = (Raise (SimpleRedisClientError
              (FromTransport (T_ConnectionError "Connection refused"))),
     down_store)
  ∧ ∃ cause,
      SimpleRedisClientError
        (FromTransport (T_ConnectionError "Connection refused"))
      = SimpleRedisClientError cause.
Proof.
  split; [reflexivity|].
  apply (client_raises_client_errors down_store down_store). left. reflexivity.
Defined.

Lemma scan_with_cursor_no_count_witness :
  0 ≤ 0
  ∧ scan_with_cursor (txt "*") (Some (txt "hash")) 0 0 7 users_store
    = (Ok ([], 7), users_store).
Proof.
  split; [lia|].
  apply (scan_with_cursor_no_count (txt "*") (Some (txt "hash")) 0 0 7
           users_store). lia.
Defined.

Lemma scan_at_most_count_witness :
  0 ≤ 2
  ∧ (∀ keys s', scan (txt "user:*") None 2 5 users_store = (Ok keys, s') →
                len keys ≤ 2)
  ∧ (∀ cursor keys nc s',
       scan_with_cursor (txt "user:*") None 2 5 cursor users_store
       = (Ok (keys, nc), s') →
       len keys ≤ 2).
Proof.
  split; [lia|].
  apply (scan_at_most_count (txt "user:*") None 2 5 users_store). lia.
Defined.

Lemma scan_is_first_page_witness :
  0 < 2
  ∧ filtering (Some (txt "All")) = false
  ∧ scan (txt "user:*") (Some (txt "All")) 2 5 users_store
    = (let* '(keys, _) :=
         scan_with_cursor (txt "user:*") (Some (txt "All")) 2 5 0 in
       ret keys) users_store.
Proof.
  split; [lia|]. split; [reflexivity|].
  apply (scan_is_first_page (txt "user:*") (Some (txt "All")) 2 5 users_store);
    [lia|]. left. reflexivity.
Defined.

Lemma scan_with_cursor_sound_witness :
  let tf := Some (txt "hash") in
  let run := scan_with_cursor (txt "*") tf 5 5 0 (mixed_store false) in
  run = (Ok ([txt "h1"], 0), run.2)
  ∧ (∀ k, k ∈ [txt "h1"] →
       ∃ kb c ty (s0 : server) next batch s1,
         k = decode_bytes kb
         ∧ t_scan c (txt "*") 5 ty s0 = (Reply (next, batch), s1)
         ∧ kb ∈ batch
         ∧ (ty = passed_type tf
            ∨ ty = None
              ∧ (filtering tf = true →
                 ∃ (s2 : server) tb s3, t_type k s2 = (Reply tb, s3)
                             ∧ decode_bytes tb = default [] tf)))
  ∧ (0 = 0
     ∨ ∃ c ty (s0 : server) batch s1,
         t_scan c (txt "*") 5 ty s0 = (Reply (0, batch), s1)).
Proof.
  intros tf run. split; [reflexivity|].
  apply (scan_with_cursor_sound (St := server) (txt "*") tf 5 5 0
           (mixed_store false) run.2
           [txt "h1"] 0).
  reflexivity.
Defined.

Lemma init_keeps_core_parameters_witness :
  __init__ (Some no_context_redis) tls_profile
  = Ok {| pool := dict_pop "ssl_context"%string (base_kwargs tls_profile) |}
  ∧ let c := {| pool := dict_pop "ssl_context"%string (base_kwargs tls_profile) |} in
    dict_get "host"%string (pool c) = Some (KStr (host tls_profile))
    ∧ dict_get "port"%string (pool c) = Some (KInt (port tls_profile))
    ∧ dict_get "db"%string (pool c) = Some (KInt (db tls_profile))
    ∧ dict_get "socket_timeout"%string (pool c)
      = Some (KFloat (timeout tls_profile))
    ∧ dict_get "decode_responses"%string (pool c) = Some (KBool false)
    ∧ dict_get "password"%string (pool c)
      = KStr <$> truthy (password tls_profile).
Proof.
  split; [reflexivity|].
  apply (init_keeps_core_parameters no_context_redis tls_profile). reflexivity.
Defined.

Lemma init_plain_never_tls_witness :
  let p := {| host := txt "localhost"; port := 6379; db := 0;
              username := None; password := Some (txt "secret");
              use_ssl := false; verify_ssl := true; timeout := 5 |} in
  use_ssl p = false
  ∧ __init__ (Some old_redis) p = Ok {| pool := base_kwargs p |}
  ∧ dict_get "ssl"%string (base_kwargs p) = None
  ∧ dict_get "ssl_context"%string (base_kwargs p) = None
  ∧ dict_get "ssl_cert_reqs"%string (base_kwargs p) = None
  ∧ dict_get "connection_class"%string (base_kwargs p) = None.
Proof.
  intros p. split; [reflexivity|]. split; [reflexivity|].
  apply (init_plain_never_tls old_redis p {| pool := base_kwargs p |});
    reflexivity.
Defined.

Lemma custom_outcome_witness :
  custom [txt "SMEMBERS"; txt "k"] ([] : console)
  = (Ok (PySet [PyBytes (raw "k")]), [[txt "SMEMBERS"; txt "k"]])
  ∧ custom [txt "GET"; txt "k"] ([] : console)
    = (Ok (PyList [PyStr (txt "GET"); PyStr (txt "k")]), [[txt "GET"; txt "k"]])
  ∧ custom [] ([] : console)
    = (Raise (SimpleRedisClientError (Message "list index out of range")), [])
  ∧ (∃ cmd args r,
       [txt "SMEMBERS"; txt "k"] = cmd :: args
       ∧ t_execute_command cmd args ([] : console)
         = (Reply r, [[txt "SMEMBERS"; txt "k"]])
       ∧ PySet [PyBytes (raw "k")] = _b2s r
       ∧ (sets_bytes_free r = true
          → bytes_free (PySet [PyBytes (raw "k")]) = true)
       ∧ (∀ l, r = PySet l → PySet [PyBytes (raw "k")] = PySet l))
  ∧ (∃ cause,
       SimpleRedisClientError (Message "list index out of range")
       = SimpleRedisClientError cause)
  ∧ (@nil str = [] → ([] : console) = []).
Proof.
  split; [reflexivity|]. split; [reflexivity|]. split; [reflexivity|]. split.
  - destruct (custom_outcome [txt "SMEMBERS"; txt "k"] ([] : console))
      as (_ & Hok & _).
    apply Hok. reflexivity.
  - destruct (custom_outcome [] ([] : console)) as (_ & _ & Hraise).
    apply Hraise. reflexivity.
Defined.

(* ===================================================================== *)
(** * Worked examples for the window                                       *)
(* ===================================================================== *)

Lemma format_json_value_stable_witness :
  let value_text := quoted "  {'a': [1, 2], 'b': null} " in
  let v := JObj [(txt "a", JArr [JInt 1; JInt 2]); (txt "b", JNull)] in
  json_loads (strip value_text) = Some v ∧ float_free v = true
  ∧ ∃ text,
      format_json_value value_text = Some text
      ∧ json_loads text = Some v
      ∧ format_json_value text = Some text.
Proof.
  intros value_text v. split; [reflexivity|]. split; [reflexivity|].
  apply (format_json_value_stable value_text v); reflexivity.
Defined.

Lemma hash_shown_then_saved_witness :
  let h := [(raw "old", raw "1"); (raw "a", raw "0")] in
  alive hash_store = true
  ∧ utf8_encode (txt "h") = Some (raw "h")
  ∧ dict_get (raw "h") (table hash_store) = Some (RHash h)
  ∧ ∃ r s1 text res s2,
      get_value (txt "h") 200 hash_store = (Ok r, s1)
      ∧ editor_text (vr_value r) = Some text
      ∧ set_value (txt "h") text (txt "hash") s1 = (Ok res, s2)
      ∧ sr_fields res = Some (len h)
      ∧ table s2 = table hash_store.
Proof.
  intros h. split; [reflexivity|]. split; [reflexivity|]. split; [reflexivity|].
  apply (hash_shown_then_saved hash_store (txt "h") (raw "h") h 200);
    [reflexivity|reflexivity|reflexivity|discriminate| |].
  - repeat constructor; rewrite ?elem_of_cons, ?elem_of_nil; intuition discriminate.
  - repeat constructor; by eexists.
Defined.

Lemma list_shown_then_saved_witness :
  let l := [raw "a"; raw "b"; raw "c"] in
  alive list_store = true
  ∧ utf8_encode (txt "l") = Some (raw "l")
  ∧ dict_get (raw "l") (table list_store) = Some (RList l)
  ∧ 0 < 2
  ∧ ∃ r s1 text res s2,
      get_value (txt "l") 2 list_store = (Ok r, s1)
      ∧ editor_text (vr_value r) = Some text
      ∧ set_value (txt "l") text (txt "list") s1 = (Ok res, s2)
      ∧ dict_get (raw "l") (table s2) = Some (RList [raw "a"; raw "b"]).
Proof.
  intros l. split; [reflexivity|]. split; [reflexivity|]. split; [reflexivity|].
  split; [lia|].
  apply (list_shown_then_saved list_store (txt "l") (raw "l") l 2);
    [reflexivity|reflexivity|reflexivity|discriminate|lia|].
  repeat constructor; by eexists.
Defined.

Lemma get_client_form_pool_witness :
  let p := {| host := txt "localhost"; port := 6379; db := 0;
              username := None; password := None; use_ssl := false;
              verify_ssl := true; timeout := 5 |} in
  let c := {| pool := base_kwargs p |} in
  let s' := (ping users_store).2 in
  _get_client_form integral_of_str 5 (Some old_redis) local_form users_store
  = (Ok (Some c), s')
  ∧ ping users_store = (Ok true, s')
  ∧ dict_get "host"%string (pool c) = Some (KStr (txt "localhost"))
  ∧ dict_get "port"%string (pool c) = Some (KInt 6379)
  ∧ dict_get "db"%string (pool c) = Some (KInt 0)
  ∧ dict_get "password"%string (pool c) = None
  ∧ dict_get "username"%string (pool c) = None.
Proof.
  intros p c s'.
  assert (_get_client_form integral_of_str 5 (Some old_redis) local_form
            users_store = (Ok (Some c), s')) as Hrun by reflexivity.
  split; [exact Hrun|].
  destruct (get_client_form_pool integral_of_str (5 : @float integral_float)
              (Some old_redis) local_form users_store c s' Hrun)
    as (Hping & Hhost & Hport & Hdb & _ & Hpass & Huser).
  split_and!;
    [exact Hping|exact Hhost|exact Hport|exact Hdb|exact Hpass|reflexivity].
Defined.

Lemma get_client_form_refusals_witness :
  _get_client_form integral_of_str 5 (Some old_redis) blank_host_form
    users_store = (Ok None, users_store)
  ∧ _get_client_form integral_of_str 5 (Some old_redis) bad_db_form
      users_store = (Ok None, users_store)
  ∧ _get_client_form integral_of_str 5 (Some old_redis) bad_port_form
      users_store
    = (Raise (ValueError "invalid literal for int() with base 10"),
       users_store).
Proof.
  split; [|split].
  - destruct (get_client_form_refusals integral_of_str
                (5 : @float integral_float) (Some old_redis) blank_host_form
                users_store) as (Hblank & _ & _).
    apply Hblank. left. reflexivity.
  - destruct (get_client_form_refusals integral_of_str
                (5 : @float integral_float) (Some old_redis) bad_db_form
                users_store) as (_ & Hdb & _).
    apply Hdb. reflexivity.
  - destruct (get_client_form_refusals integral_of_str
                (5 : @float integral_float) (Some old_redis) bad_port_form
                users_store) as (_ & _ & Hport).
    apply Hport.
    + vm_compute. discriminate.
    + vm_compute. discriminate.
    + exists 0. reflexivity.
    + reflexivity.
Defined.

Lemma save_connection_upsert_witness :
  all_named saved_connections ∧ strip (txt " staging ") = txt "staging"
  ∧ save_connection (txt " staging ") local_form saved_connections
    = Ok (SaveUpdated [new_connection (txt "default") blank_host_form;
                       new_connection (txt "staging") local_form])
  ∧ ∃ cs',
      (save_connection (txt " staging ") local_form saved_connections
       = Ok (SaveUpdated cs')
       ∧ (JStr (strip (txt " staging ")) ∈ connection_names saved_connections)
       ∧ connection_names cs' = connection_names saved_connections
       ∨ save_connection (txt " staging ") local_form saved_connections
         = Ok (SaveAdded cs')
         ∧ (JStr (strip (txt " staging "))
            ∉ connection_names saved_connections)
         ∧ connection_names cs'
           = connection_names saved_connections
             ++ [JStr (strip (txt " staging "))])
      ∧ new_connection (strip (txt " staging ")) local_form ∈ cs'
      ∧ (NoDup (connection_names saved_connections) →
         NoDup (connection_names cs'))
      ∧ (∀ k conn, saved_connections !! k = Some conn →
                   conn_name_of conn ≠ Ok (JStr (strip (txt " staging "))) →
                   cs' !! k = Some conn).
Proof.
  assert (all_named saved_connections) as Hnamed.
  { repeat constructor; eexists; reflexivity. }
  split; [exact Hnamed|]. split; [reflexivity|]. split; [reflexivity|].
  apply (save_connection_upsert (txt " staging ") local_form saved_connections);
    [exact Hnamed|vm_compute; discriminate].
Defined.

Lemma save_then_delete_witness :
  let added := saved_connections ++ [new_connection (txt "new") local_form] in
  save_connection (txt " new ") local_form saved_connections
  = Ok (SaveAdded added)
  ∧ ∃ rest,
      delete_connection (strip (txt " new ")) true added = Ok (Some rest)
      ∧ delete_connection (strip (txt " new ")) true saved_connections
        = Ok (Some rest)
      ∧ (JStr (strip (txt " new ")) ∉ connection_names rest)
      ∧ (save_connection (txt " new ") local_form saved_connections
         = Ok (SaveAdded added) → rest = saved_connections).
Proof.
  intros added. split; [reflexivity|].
  apply (save_then_delete (txt " new ") local_form saved_connections added).
  left. reflexivity.
Defined.

Lemma get_value_shown_witness :
  let run := get_value (txt "h") 200 hash_store in
  let r := {| vr_type := PyStr (txt "hash"); vr_key := txt "h";
              vr_value := PyDict [(KeyStr (txt "old"), PyStr (txt "1"));
                                  (KeyStr (txt "a"), PyStr (txt "0"))] |} in
  run = (Ok r, run.2)
  ∧ vr_key r = txt "h"
  ∧ bytes_free (vr_value r) = true
  ∧ is_Some (results_text r)
  ∧ is_Some (editor_text (vr_value r)).
Proof.
  intros run r. split; [reflexivity|].
  apply (get_value_shown (txt "h") 200 hash_store run.2 r). reflexivity.
Defined.
